(** * Two-material cantilever deflection calculator

    A shallow embedding of [compute_deflections.py] and of the record types
    and the catalog methods of [beam_library.py], with the properties of the
    deflection kernel, of the material-pair sweep, of the transition-point
    store and of the catalog methods.

    Numbers.  The program computes with binary floating point.  The embedding
    computes with exact rationals ([Q]): every statement below is a statement
    about the formulas and the control flow over exact arithmetic, compared
    with [==] ([Qeq]).  Rounding error, overflow and [nan] are outside it. *)

From Stdlib Require Import QArith Qround ZArith List String Lia Lqa Bool Field.
From stdpp Require Import gmap strings.

Local Open Scope Q_scope.

(** ** Exceptions

    The exceptions that can leave the functions of [compute_deflections.py]:
    a float division by zero, an arithmetic operation or a comparison on a
    field that is [None], [input()] at the end of standard input, and
    [pop] on an empty list. *)

Inductive exn : Type :=
| ZeroDivisionError
| TypeError
| EOFError
| IndexError.

Inductive outcome (A : Type) : Type :=
| Ok (a : A)
| Raise (e : exn).

Arguments Ok {A} a.
Arguments Raise {A} e.

Definition obind {A B : Type} (r : outcome A) (k : A -> outcome B) : outcome B :=
  match r with
  | Ok a => k a
  | Raise e => Raise e
  end.

Notation "'let*' x ':=' e 'in' k" := (obind e (fun x => k))
  (at level 10, x name, e at level 100, k at level 200).

(** Python's [a < b] and [a / b] on floats.  A division by a literal
    ([x**3 / 3]) cannot raise and is written with [/]. *)
Definition Qltb (a b : Q) : bool := negb (Qle_bool b a).

Definition truediv (a b : Q) : outcome Q :=
  if Qeq_bool b 0 then Raise ZeroDivisionError else Ok (a / b).

(** ** The deflection kernel (compute_deflections.py, lines 10-58) *)

Definition y1 (x E1 I L w : Q) : outcome Q :=
  let* q1 := truediv (- w) (24 * E1 * I) in
  let* q2 := truediv (w * L ^ 3) (6 * E1 * I) in
  let* q3 := truediv (w * L ^ 4) (24 * E1 * I) in
  Ok (q1 * (L - x) ^ 4 - q2 * x + q3).

Definition y2 (x E1 E2 I L T w : Q) : outcome Q :=
  let* q1 := truediv (- w) (24 * E2 * I) in
  let term1 := q1 * (L - x) ^ 4 in
  let* q2 := truediv (- w) (6 * I) in
  let* q3 := truediv (L ^ 3 - (L - T) ^ 3) E1 in
  let* q4 := truediv ((L - T) ^ 3) E2 in
  let coefficient := q2 * (q3 + q4) in
  let term2 := coefficient * x in
  let* q5 := truediv w (24 * E1 * I) in
  let term3 := q5 * (L ^ 4 - (L - T) ^ 4 - 4 * L ^ 3 * T) in
  let* q6 := truediv w (24 * E2 * I) in
  let term4 := q6 * (L - T) ^ 4 in
  let term5 := - coefficient * T in
  Ok (term1 + term2 + term3 + term4 + term5).

Definition theta1 (x E1 I L w : Q) : outcome Q :=
  let* q1 := truediv w (6 * E1 * I) in
  let* q2 := truediv (w * L ^ 3) (6 * E1 * I) in
  Ok (q1 * (L - x) ^ 3 - q2).

Definition theta2 (x E1 E2 I L T w : Q) : outcome Q :=
  let* q1 := truediv w (6 * E2 * I) in
  let term1 := q1 * (L - x) ^ 3 in
  let* q2 := truediv (- w) (6 * I) in
  let* q3 := truediv (L ^ 3 - (L - T) ^ 3) E1 in
  let* q4 := truediv ((L - T) ^ 3) E2 in
  let coefficient := q2 * (q3 + q4) in
  Ok (term1 + coefficient).

(** The two arms of [y_point_load] and of [theta_point_load], named so that
    each can be evaluated on its own at the load position. *)

Definition y_point_load_before (x P E1 I y : Q) : outcome Q :=
  let* q := truediv P (2 * E1 * I) in
  Ok (q * (y * x ^ 2 - x ^ 3 / 3)).

Definition y_point_load_after (x P E1 I y : Q) : outcome Q :=
  let* q := truediv (P * y ^ 2) (2 * E1 * I) in
  Ok (q * (x - y)).

Definition y_point_load (x P E1 I y : Q) : outcome Q :=
  if Qltb x y then y_point_load_before x P E1 I y
  else y_point_load_after x P E1 I y.

Definition theta_point_load_before (x P E1 I y : Q) : outcome Q :=
  let* q := truediv P (E1 * I) in
  Ok (- q * (y * x - x ^ 2 / 2)).

Definition theta_point_load_after (x P E1 I y : Q) : outcome Q :=
  truediv (- (P * y ^ 2)) (2 * E1 * I).

Definition theta_point_load (x P E1 I y : Q) : outcome Q :=
  if Qltb x y then theta_point_load_before x P E1 I y
  else theta_point_load_after x P E1 I y.

(** The branch taken for one grid position of a distributed load: the body
    of [for x in x_values] in [compute_deflections], lines 135-140. *)
Definition distributed_y_theta (x E1 E2 I L T w : Q) : outcome (Q * Q) :=
  if Qltb x T then
    let* y := y1 x E1 I L w in
    let* theta := theta1 x E1 I L w in
    Ok (y, theta)
  else
    let* y := y2 x E1 E2 I L T w in
    let* theta := theta2 x E1 E2 I L T w in
    Ok (y, theta).

(** ** The closed forms of the specification, section 4.2

    Written from the specification's text, as total functions on [Q]; they
    are compared with the kernel where their denominators are not zero. *)
Module Spec.

Definition y1 (x E1 I L w : Q) : Q :=
  - w / (24 * E1 * I) * (L - x) ^ 4 - w * L ^ 3 / (6 * E1 * I) * x
  + w * L ^ 4 / (24 * E1 * I).

Definition theta1 (x E1 I L w : Q) : Q :=
  w / (6 * E1 * I) * (L - x) ^ 3 - w * L ^ 3 / (6 * E1 * I).

Definition C (E1 E2 I L T w : Q) : Q :=
  - w / (6 * I) * ((L ^ 3 - (L - T) ^ 3) / E1 + (L - T) ^ 3 / E2).

Definition y2 (x E1 E2 I L T w : Q) : Q :=
  - w / (24 * E2 * I) * (L - x) ^ 4 + C E1 E2 I L T w * x
  + w / (24 * E1 * I) * (L ^ 4 - (L - T) ^ 4 - 4 * L ^ 3 * T)
  + w / (24 * E2 * I) * (L - T) ^ 4 - C E1 E2 I L T w * T.

Definition theta2 (x E1 E2 I L T w : Q) : Q :=
  w / (6 * E2 * I) * (L - x) ^ 3 + C E1 E2 I L T w.

Definition y_point_lt (x P E1 I a : Q) : Q :=
  P / (2 * E1 * I) * (a * x ^ 2 - x ^ 3 / 3).

Definition theta_point_lt (x P E1 I a : Q) : Q :=
  - P / (E1 * I) * (a * x - x ^ 2 / 2).

Definition y_point_ge (x P E1 I a : Q) : Q :=
  P * a ^ 2 / (2 * E1 * I) * (x - a).

Definition theta_point_ge (x P E1 I a : Q) : Q :=
  - P * a ^ 2 / (2 * E1 * I).

End Spec.

(** A kernel result [r] is the value [v] wherever the denominator [d] is not
    zero, and is a [ZeroDivisionError] exactly where it is. *)
Definition computes (r : outcome Q) (d v : Q) : Prop :=
  match r with
  | Ok q => ~ d == 0 /\ q == v
  | Raise e => e = ZeroDivisionError /\ d == 0
  end.

(** Two kernel calls both return, and return the same number. *)
Definition same_value (r1 r2 : outcome Q) : Prop :=
  exists q1 q2, r1 = Ok q1 /\ r2 = Ok q2 /\ q1 == q2.

(** The deflection and the rotation of one position, computed in the order
    of the source: [y] first. *)
Definition y_then_theta (y theta : outcome Q) : outcome (Q * Q) :=
  let* y := y in
  let* theta := theta in
  Ok (y, theta).

(** ** The catalog records (beam_library.py, lines 9-41 and 157-164) *)

Module Material.
Record t : Type := mk { name : string; E : Q }.
End Material.

Module Beam.
Record t : Type := mk { name : string; length : Q; width : Q; thickness : Q }.

Definition moment_of_inertia (self : t) : Q :=
  (width self * thickness self ^ 3) / 12.
End Beam.

(** [w], [P] and [a] are [Optional[float]]: [None] unless the load's kind
    sets them. *)
Module Load.
Record t : Type :=
  mk { name : string; load_type : string;
       w : option Q; P : option Q; a : option Q }.
End Load.

Module BeamLibrary.
Record t : Type :=
  mk { materials : list Material.t; beams : list Beam.t; loads : list Load.t }.

Definition get_materials (self : t) : list Material.t := materials self.
Definition get_beams (self : t) : list Beam.t := beams self.
Definition get_loads (self : t) : list Load.t := loads self.
End BeamLibrary.

(** Reading a number out of an optional field for arithmetic or for a
    comparison: [None] raises [TypeError]. *)
Definition as_float (v : option Q) : outcome Q :=
  match v with
  | Some q => Ok q
  | None => Raise TypeError
  end.

(** ** Library functions the program calls *)

(** [np.arange(start, stop, step)]: the values [start + i * step] for
    [0 <= i < ceil((stop - start) / step)], the quotient taken exactly.
    NumPy takes the ceiling of the binary64 quotient, which for some lengths
    (5.0, 0.035) is larger by one.  A statement that counts grid positions
    in closed form is therefore a statement over exact arithmetic; the
    statements about what is written for each grid position are stated of
    the grid, whatever its length. *)
Definition np_arange (start stop step : Q) : list Q :=
  map (fun i : nat => start + inject_Z (Z.of_nat i) * step)
      (seq 0 (Z.to_nat (Qceiling ((stop - start) / step)))).

(** [itertools.product(l, repeat=2)]: the ordered pairs of [l], the first
    component varying slowest. *)
Definition product2 {A : Type} (l : list A) : list (A * A) :=
  flat_map (fun x => map (fun y => (x, y)) l) l.

(** [np.degrees(theta)] is [theta * 180 / pi].  The factor is irrational, so
    a converted angle is carried exactly as the radian value it was computed
    from. *)
Inductive degrees : Type := np_degrees (theta : Q).

(** [round(x, ndigits)] on a NumPy float: scale, round half to even, scale
    back. *)
Definition rint (q : Q) : Z :=
  let f := Qfloor q in
  let r := q - inject_Z f in
  if Qltb r (1 # 2) then f
  else if Qltb (1 # 2) r then (f + 1)%Z
  else if Z.even f then f else (f + 1)%Z.

Definition round (q : Q) (ndigits : Z) : Q :=
  inject_Z (rint (q * 10 ^ ndigits)) / 10 ^ ndigits.

(** ** Observable effects

    Everything the two phases do to the outside is recorded, in order, as a
    trace of events.  A console message stands for one [print] or [input]
    call and carries the values its f-string interpolates. *)

Inductive message : Type :=
| MsgLoadedMaterials (n : nat)
| MsgLoadedBeams (n : nat)
| MsgLoadedLoads (n : nat)
| MsgNoBeams
| MsgNoLoads
| MsgNoMaterials
| MsgConfiguringBeam (beam : string)
| MsgApplyingLoad (load load_type : string)
| PromptDistributed (beam : string) (L : Q)
| PromptPoint (beam : string) (y_load L : Q)
| MsgTOutOfRange (L : Q)
| MsgInvalidInput
| MsgTBeforeLoad (T y_load : Q)
| MsgLoadOutsideBeam (y_load L : Q)
| MsgUnsupportedLoad (load_type : string)
| MsgResultsWritten (filename : string)
| MsgPlotNoBeams
| MsgPlotNoLoads
| MsgPlotNoMaterials
| MsgPlottingBeam (beam : string)
| MsgNoTransitionPoint (beam load : string)
| MsgPlottingDistributed (load : string) (T : Q)
| MsgPlottingPoint (load : string) (T : Q) (y_load : option Q)
| MsgUnsupportedPlot (load_type : string)
| MsgNothingComputed
| MsgCompleted.

(** One cell of a CSV row.  [Round6 d] is [round(d, 6)] of an angle in
    degrees, kept unevaluated (see [degrees]). *)
Inductive cell : Type :=
| Str (s : string)
| Float (q : Q)
| Round6 (d : degrees).

Definition row : Type := list cell.

(** One [plt.plot(x_values, theta_values, label=..., color=colors[i])]; the
    colour is the colormap argument [i / num_combinations]. *)
Record curve : Type :=
  mk_curve { x_values : list Q; theta_values : list degrees;
             label : string; color : Q }.

(** One figure, from [plt.figure] to [plt.show]; axis labels, grid, legend
    and layout are the same for every figure. *)
Record figure : Type := mk_figure { title : string; curves : list curve }.

Inductive event : Type :=
| Print (m : message)
| Input (prompt : message)
| OpenWrite (filename : string)
| WriteRow (r : row)
| Show (f : figure).

(** What one stripped line of standard input is to [float()]. *)
Inductive response : Type :=
| NotANumber
| Number (q : Q)
| NonFinite.

(** ** Computations with state, exceptions and a trace *)

Definition M (S A : Type) : Type := S -> outcome A * S * list event.

Definition ret {S A : Type} (a : A) : M S A := fun s => (Ok a, s, []).

Definition bind {S A B : Type} (m : M S A) (k : A -> M S B) : M S B :=
  fun s =>
    let '(r, s1, t1) := m s in
    match r with
    | Ok a => let '(r2, s2, t2) := k a s1 in (r2, s2, t1 ++ t2)
    | Raise e => (Raise e, s1, t1)
    end.

Definition emit {S : Type} (e : event) : M S unit := fun s => (Ok tt, s, [e]).

Definition lift {S A : Type} (r : outcome A) : M S A := fun s => (r, s, []).

Declare Scope run_scope.
Delimit Scope run_scope with run.
Notation "x <- m ;; k" := (bind m (fun x => k))
  (at level 20, m at level 99, k at level 200, only parsing) : run_scope.
Notation "' pat <- m ;; k" := (bind m (fun x => match x with pat => k end))
  (at level 20, pat pattern, m at level 99, k at level 200, only parsing)
  : run_scope.
Notation "m ;; k" := (bind m (fun _ => k))
  (at level 100, k at level 200, only parsing, right associativity) : run_scope.
Local Open Scope run_scope.

(** [for a in l: body(a)] *)
Fixpoint for_each {S A : Type} (l : list A) (body : A -> M S unit) : M S unit :=
  match l with
  | [] => ret tt
  | a :: l' => body a ;; for_each l' body
  end.

(** [for a in l: acc = body(a, acc)], for a loop that updates a local object. *)
Fixpoint for_acc {S A B : Type} (l : list A) (body : A -> B -> M S B) (acc : B)
  : M S B :=
  match l with
  | [] => ret acc
  | a :: l' => acc' <- body a acc ;; for_acc l' body acc'
  end.

(** ** The tabulation phase: [compute_deflections] (lines 60-196) *)

Definition step : Q := 0.0025.

(** [transition_points.setdefault(key, []).append(T)] *)
Definition setdefault_append (transition_points : gmap string (list Q))
    (key : string) (T : Q) : gmap string (list Q) :=
  <[key := default [] (transition_points !! key) ++ [T]]> transition_points.

(** The [while True] loops of lines 113-124 and 157-170: prompt, read a line,
    convert it, and go round again on a line that is not a number or on a
    value outside (0, L).  [on_accept T] is what the accepting arm prints
    before it stores [T] and breaks.  The state is what is left of standard
    input; [input()] raises [EOFError] when nothing is left. *)
Fixpoint ask_T (prompt : message) (L : Q) (on_accept : Q -> list event)
    (stdin : list response) : outcome Q * list response * list event :=
  match stdin with
  | [] => (Raise EOFError, [], [Input prompt])
  | line :: rest =>
      match line with
      | Number T =>
          if Qltb 0 T && Qltb T L then (Ok T, rest, Input prompt :: on_accept T)
          else
            let '(r, s, t) := ask_T prompt L on_accept rest in
            (r, s, Input prompt :: Print (MsgTOutOfRange L) :: t)
      | NonFinite =>
          let '(r, s, t) := ask_T prompt L on_accept rest in
          (r, s, Input prompt :: Print (MsgTOutOfRange L) :: t)
      | NotANumber =>
          let '(r, s, t) := ask_T prompt L on_accept rest in
          (r, s, Input prompt :: Print MsgInvalidInput :: t)
      end
  end.

(** Lines 128-145: one material pair of a distributed load, swept over the
    grid. *)
Definition tabulate_distributed_pair (beam : Beam.t) (load : Load.t) (T : Q)
    (material1 material2 : Material.t) : M (list response) unit :=
  let I := Beam.moment_of_inertia beam in
  let L := Beam.length beam in
  let E1 := Material.E material1 in
  let E2 := Material.E material2 in
  let x_values := np_arange 0 (L + step) step in
  for_each x_values (fun x =>
    w <- lift (as_float (Load.w load)) ;;
    '(y, theta) <- lift (distributed_y_theta x E1 E2 I L T w) ;;
    let theta_degrees := np_degrees theta in
    emit (WriteRow [Str (Beam.name beam); Str (Load.name load);
                    Str (Material.name material1); Str (Material.name material2);
                    Float (round x 4); Float y; Round6 theta_degrees])).

(** Lines 127-145: the sweep of one distributed load over the material
    pairs. *)
Definition tabulate_distributed (materials : list Material.t) (beam : Beam.t)
    (load : Load.t) (T : Q) : M (list response) unit :=
  for_each (product2 materials) (fun '(material1, material2) =>
    tabulate_distributed_pair beam load T material1 material2).

(** Lines 174-191: one material pair of a point load, swept over the grid.
    Both arms of the source's [if x < y_load] make the same two calls. *)
Definition tabulate_point_pair (beam : Beam.t) (load : Load.t) (y_load : Q)
    (material1 material2 : Material.t) : M (list response) unit :=
  let I := Beam.moment_of_inertia beam in
  let L := Beam.length beam in
  let E1 := Material.E material1 in
  let E2 := Material.E material2 in
  let x_values := np_arange 0 (L + step) step in
  for_each x_values (fun x =>
    P <- lift (as_float (Load.P load)) ;;
    y <- lift (y_point_load x P E1 I y_load) ;;
    theta <- lift (theta_point_load x P E1 I y_load) ;;
    let theta_degrees := np_degrees theta in
    emit (WriteRow [Str (Beam.name beam); Str (Load.name load);
                    Str (Material.name material1); Str (Material.name material2);
                    Float (round x 4); Float y; Round6 theta_degrees])).

(** Lines 172-191: the sweep of one point load over the material pairs. *)
Definition tabulate_point (materials : list Material.t) (beam : Beam.t)
    (load : Load.t) (y_load : Q) : M (list response) unit :=
  for_each (product2 materials) (fun '(material1, material2) =>
    tabulate_point_pair beam load y_load material1 material2).

(** The body of [for load in loads] (lines 107-193); [transition_points] is
    the dictionary as the iteration finds it, the result is the dictionary
    as it leaves it. *)
Definition tabulate_load (materials : list Material.t) (beam : Beam.t)
    (load : Load.t) (transition_points : gmap string (list Q))
  : M (list response) (gmap string (list Q)) :=
  let L := Beam.length beam in
  emit (Print (MsgApplyingLoad (Load.name load) (Load.load_type load))) ;;
  if String.eqb (Load.load_type load) "distributed" then
    T <- ask_T (PromptDistributed (Beam.name beam) L) L (fun _ => []) ;;
    let transition_points :=
      setdefault_append transition_points (Beam.name beam) T in
    tabulate_distributed materials beam load T ;;
    ret transition_points
  else if String.eqb (Load.load_type load) "point" then
    y_load <- lift (as_float (Load.a load)) ;;
    if negb (Qltb 0 y_load && Qltb y_load L) then
      emit (Print (MsgLoadOutsideBeam y_load L)) ;;
      ret transition_points
    else
      T <- ask_T (PromptPoint (Beam.name beam) y_load L) L
             (fun T => if Qltb T y_load
                       then [Print (MsgTBeforeLoad T y_load)] else []) ;;
      let transition_points :=
        setdefault_append transition_points (Beam.name beam) T in
      tabulate_point materials beam load y_load ;;
      ret transition_points
  else
    emit (Print (MsgUnsupportedLoad (Load.load_type load))) ;;
    ret transition_points.

Definition header : row :=
  [Str "Beam"; Str "Load"; Str "Material1"; Str "Material2";
   Str "x (m)"; Str "y(x) (m)"; Str "theta(x) (degrees)"].

Definition compute_deflections (library : BeamLibrary.t)
    (output_filename : string) : M (list response) (gmap string (list Q)) :=
  let materials := BeamLibrary.get_materials library in
  let beams := BeamLibrary.get_beams library in
  let loads := BeamLibrary.get_loads library in
  emit (Print (MsgLoadedMaterials (List.length materials))) ;;
  emit (Print (MsgLoadedBeams (List.length beams))) ;;
  emit (Print (MsgLoadedLoads (List.length loads))) ;;
  match beams, loads, materials with
  | [], _, _ => emit (Print MsgNoBeams) ;; ret ∅
  | _, [], _ => emit (Print MsgNoLoads) ;; ret ∅
  | _, _, [] => emit (Print MsgNoMaterials) ;; ret ∅
  | _, _, _ =>
      emit (OpenWrite output_filename) ;;
      emit (WriteRow header) ;;
      transition_points <-
        for_acc beams (fun beam transition_points =>
          emit (Print (MsgConfiguringBeam (Beam.name beam))) ;;
          for_acc loads (tabulate_load materials beam) transition_points) ∅ ;;
      emit (Print (MsgResultsWritten output_filename)) ;;
      ret transition_points
  end.

(** ** The plotting phase: [plot_deflections] (lines 198-333)

    The state is the dictionary the caller passed in: the function holds a
    reference to the caller's object, so what it does to the lists inside is
    visible to the caller afterwards. *)

(** [Ts = transition_points.get(beam.name, [])] binds [Ts] to the very list
    stored under the beam's name when there is one, and to a new empty list
    otherwise.  [Ts] is represented by that key: testing and reading it look
    the dictionary up, and [Ts.pop(0)] removes the head of the stored list
    in place. *)
Definition Ts_read (key : string) : M (gmap string (list Q)) (list Q) :=
  fun transition_points =>
    (Ok (default [] (transition_points !! key)), transition_points, []).

Definition Ts_pop0 (key : string) : M (gmap string (list Q)) Q :=
  fun transition_points =>
    match transition_points !! key with
    | Some (T :: Ts) => (Ok T, <[key := Ts]> transition_points, [])
    | _ => (Raise IndexError, transition_points, [])
    end.

(** [colors = [color_cycle(i / num_combinations) for i in range(num_combinations)]] *)
Definition colors (num_combinations : nat) : list Q :=
  map (fun i : nat => inject_Z (Z.of_nat i) / inject_Z (Z.of_nat num_combinations))
      (seq 0 num_combinations).

(** The inner loop of one curve (lines 261-270 and 314-320):
    [theta_at x] is the kernel call made at [x]. *)
Definition curve_thetas {St : Type} (x_values : list Q)
    (theta_at : Q -> outcome Q) : M St (list degrees) :=
  for_acc x_values (fun x theta_values =>
    theta <- lift (theta_at x) ;;
    let theta_degrees := np_degrees theta in
    ret (theta_values ++ [theta_degrees])) [].

(** The loop over the material pairs of one figure (lines 249-276 and
    302-326).  [colors[color_idx]] is always in range: there is one colour
    for each pair. *)
Definition plot_curves {St : Type} (materials : list Material.t) (L : Q)
    (theta_at : Material.t -> Material.t -> Q -> outcome Q) : M St (list curve) :=
  let num_combinations := (List.length materials ^ 2)%nat in
  '(_, curves) <-
    for_acc (product2 materials) (fun '(material1, material2) '(color_idx, curves) =>
      let x_values := np_arange 0 (L + 0.0025) 0.0025 in
      theta_values <- curve_thetas x_values (theta_at material1 material2) ;;
      let label := (Material.name material1 ++ " & " ++ Material.name material2)%string in
      ret (S color_idx,
           curves ++ [mk_curve x_values theta_values label
                               (nth color_idx (colors num_combinations) 0)]))
      (0%nat, []) ;;
  ret curves.

Definition figure_title (beam : Beam.t) (load : Load.t) : string :=
  ("Angular Deflection Curves for Beam: " ++ Beam.name beam
   ++ " with Load: " ++ Load.name load)%string.

(** The kernel call at one position of one curve: lines 257-268 for a
    distributed load, lines 310-318 for a point load. *)
Definition plot_distributed_theta (beam : Beam.t) (load : Load.t) (T : Q)
    (material1 material2 : Material.t) (x : Q) : outcome Q :=
  let I := Beam.moment_of_inertia beam in
  let L := Beam.length beam in
  let E1 := Material.E material1 in
  let E2 := Material.E material2 in
  let* w := as_float (Load.w load) in
  if Qltb x T then theta1 x E1 I L w
  else theta2 x E1 E2 I L T w.

Definition plot_point_theta (beam : Beam.t) (load : Load.t)
    (material1 material2 : Material.t) (x : Q) : outcome Q :=
  let I := Beam.moment_of_inertia beam in
  let E1 := Material.E material1 in
  let E2 := Material.E material2 in
  let* y_load := as_float (Load.a load) in
  let* P := as_float (Load.P load) in
  theta_point_load x P E1 I y_load.

(** The body of [for load in loads] (lines 232-333). *)
Definition plot_load (materials : list Material.t) (beam : Beam.t)
    (load : Load.t) : M (gmap string (list Q)) unit :=
  let L := Beam.length beam in
  if String.eqb (Load.load_type load) "distributed" then
    Ts <- Ts_read (Beam.name beam) ;;
    match Ts with
    | [] => emit (Print (MsgNoTransitionPoint (Beam.name beam) (Load.name load)))
    | _ :: _ =>
        T <- Ts_pop0 (Beam.name beam) ;;
        emit (Print (MsgPlottingDistributed (Load.name load) T)) ;;
        curves <- plot_curves materials L (plot_distributed_theta beam load T) ;;
        emit (Show (mk_figure (figure_title beam load) curves))
    end
  else if String.eqb (Load.load_type load) "point" then
    Ts <- Ts_read (Beam.name beam) ;;
    match Ts with
    | [] => emit (Print (MsgNoTransitionPoint (Beam.name beam) (Load.name load)))
    | _ :: _ =>
        T <- Ts_pop0 (Beam.name beam) ;;
        emit (Print (MsgPlottingPoint (Load.name load) T (Load.a load))) ;;
        curves <- plot_curves materials L (plot_point_theta beam load) ;;
        emit (Show (mk_figure (figure_title beam load) curves))
    end
  else
    emit (Print (MsgUnsupportedPlot (Load.load_type load))).

Definition plot_deflections (library : BeamLibrary.t)
  : M (gmap string (list Q)) unit :=
  let materials := BeamLibrary.get_materials library in
  let beams := BeamLibrary.get_beams library in
  let loads := BeamLibrary.get_loads library in
  match beams, loads, materials with
  | [], _, _ => emit (Print MsgPlotNoBeams)
  | _, [], _ => emit (Print MsgPlotNoLoads)
  | _, _, [] => emit (Print MsgPlotNoMaterials)
  | _, _, _ =>
      for_each beams (fun beam =>
        emit (Print (MsgPlottingBeam (Beam.name beam))) ;;
        for_each loads (plot_load materials beam))
  end.

(** ** [main] (lines 335-349), from the loaded library on *)

(** Running a callee on an object of the caller's that the caller does not
    use again. *)
Definition call_with {S O A : Type} (object : O) (m : M O A) : M S A :=
  fun s => let '(r, _, t) := m object in (r, s, t).

Definition main (library : BeamLibrary.t) : M (list response) unit :=
  transition_points <- compute_deflections library "deflection_results.csv" ;;
  if bool_decide (transition_points = ∅) then
    emit (Print MsgNothingComputed)
  else
    call_with transition_points (plot_deflections library) ;;
    emit (Print MsgCompleted).

(** ** Vocabulary of the statements *)

(** The two ways the tabulation passes over a load of a beam, each with
    the diagnostic it prints: a point load at or beyond an end of the beam,
    and a load whose kind is neither of the two the program knows. *)
Inductive skips (beam : Beam.t) (load : Load.t) : message -> Prop :=
| skips_out_of_range (y_load : Q) :
    Load.load_type load = "point"%string ->
    Load.a load = Some y_load ->
    y_load <= 0 \/ Beam.length beam <= y_load ->
    skips beam load (MsgLoadOutsideBeam y_load (Beam.length beam))
| skips_unsupported :
    Load.load_type load <> "distributed"%string ->
    Load.load_type load <> "point"%string ->
    skips beam load (MsgUnsupportedLoad (Load.load_type load)).

(** A computation keeps the relation [R] between the state it starts in and
    the state it ends in, whether it returns or raises. *)
Definition keeps {S A : Type} (R : S -> S -> Prop) (m : M S A) : Prop :=
  forall s, R s (snd (fst (m s))).

(** A computation that neither changes the state nor adds to the trace. *)
Definition quiet {S A : Type} (m : M S A) : Prop :=
  forall s, snd (fst (m s)) = s /\ snd (m s) = [].

(** [after] is what is left of the dictionary [before] when transition
    points have been taken from the front of its lists: the same keys, each
    with a suffix of its former list. *)
Definition consumed_from (before after : gmap string (list Q)) : Prop :=
  forall key : string,
    option_Forall2 (fun l' l : list Q => l' `suffix_of` l)
                   (after !! key) (before !! key).

(** The transition points the plotting announces for the loads it plots on
    beams named [key], in the order of the trace.  [current] is the name of
    the beam whose plotting was announced last. *)
Fixpoint taken_for (key : string) (current : option string) (t : list event)
  : list Q :=
  match t with
  | [] => []
  | Print (MsgPlottingBeam beam) :: t' => taken_for key (Some beam) t'
  | Print (MsgPlottingDistributed _ T) :: t'
  | Print (MsgPlottingPoint _ T _) :: t' =>
      (if decide (current = Some key) then [T] else [])
      ++ taken_for key current t'
  | _ :: t' => taken_for key current t'
  end.

(** The beam whose plotting was announced last, at the end of a trace. *)
Fixpoint last_beam (current : option string) (t : list event) : option string :=
  match t with
  | [] => current
  | Print (MsgPlottingBeam beam) :: t' => last_beam (Some beam) t'
  | _ :: t' => last_beam current t'
  end.

(** Under [key], [before] held the transition points that the trace [t]
    announces for that key, in that order, and then what [after] holds; a
    key that was absent is still absent. *)
Definition taken_from (key : string) (current : option string)
    (before after : gmap string (list Q)) (t : list event) : Prop :=
  option_Forall2 (fun l' l : list Q => l = taken_for key current t ++ l')
                 (after !! key) (before !! key).

(** What appears on the console: the messages printed and the prompts. *)
Definition console (t : list event) : list message :=
  flat_map (fun e => match e with
                     | Print m | Input m => [m]
                     | _ => []
                     end) t.

(** A line the transition-point prompt of a beam of length [L] turns down. *)
Definition rejected (L : Q) (line : response) : Prop :=
  match line with
  | Number T => T <= 0 \/ L <= T
  | NotANumber | NonFinite => True
  end.

(** The prompts in a trace. *)
Definition prompts (t : list event) : list message :=
  flat_map (fun e => match e with
                     | Input m => [m]
                     | _ => []
                     end) t.

(** The rows written to the file, and the figures shown. *)
Definition rows (t : list event) : list row :=
  flat_map (fun e => match e with
                     | WriteRow r => [r]
                     | _ => []
                     end) t.

Definition figures (t : list event) : list figure :=
  flat_map (fun e => match e with
                     | Show f => [f]
                     | _ => []
                     end) t.

(** A row with its Material2 column blanked; other events are left alone. *)
Definition blank_material2 (e : event) : event :=
  match e with
  | WriteRow [beam; load; material1; material2; x; y; theta] =>
      WriteRow [beam; load; material1; Str EmptyString; x; y; theta]
  | _ => e
  end.

(** An outcome without the value it returns. *)
Definition forget {A : Type} (r : outcome A) : outcome unit :=
  match r with
  | Ok _ => Ok tt
  | Raise e => Raise e
  end.

(** Two runs end the same way, in the same state, with traces that are
    equal once [f] is applied to their events. *)
Definition agree {S A : Type} (f : event -> event)
    (run1 run2 : outcome A * S * list event) : Prop :=
  fst (fst run1) = fst (fst run2)
  /\ snd (fst run1) = snd (fst run2)
  /\ map f (snd run1) = map f (snd run2).

(** The x column of a row. *)
Definition x_column (r : row) : list Q :=
  match r with
  | [_; _; _; _; Float x; _; _] => [x]
  | _ => []
  end.

(** The transition points stored under the name of a beam. *)
Definition stored_for (beam : Beam.t) (transition_points : gmap string (list Q))
  : list Q :=
  default [] (transition_points !! Beam.name beam).

(** The transition point the tabulation stores for each load of a beam:
    what the iteration of the load appends to the beam's list, paired with
    the load's name, in the order of the loads. *)
Fixpoint tabulated_with (materials : list Material.t) (beam : Beam.t)
    (loads : list Load.t) (transition_points : gmap string (list Q))
    (stdin : list response) : list (string * Q) :=
  match loads with
  | [] => []
  | load :: rest =>
      match tabulate_load materials beam load transition_points stdin with
      | (Ok transition_points', stdin', _) =>
          map (fun T => (Load.name load, T))
              (skipn (List.length (stored_for beam transition_points))
                     (stored_for beam transition_points'))
          ++ tabulated_with materials beam rest transition_points' stdin'
      | (Raise _, _, _) => []
      end
  end.

(** The transition point the plotting announces for each load it plots. *)
Definition plotted_with (t : list event) : list (string * Q) :=
  flat_map (fun e => match e with
                     | Print (MsgPlottingDistributed load T) => [(load, T)]
                     | Print (MsgPlottingPoint load T _) => [(load, T)]
                     | _ => []
                     end) t.

(** A point load lies strictly inside the beam; other loads are free. *)
Definition inside_if_point (beam : Beam.t) (load : Load.t) : Prop :=
  Load.load_type load = "point"%string ->
  forall y_load, Load.a load = Some y_load ->
                 0 < y_load /\ y_load < Beam.length beam.

(** ** A small catalog for the examples

    A beam one centimetre long, so that its grid has five positions. *)
Definition steel : Material.t := Material.mk "Steel" 200e9.
Definition aluminum : Material.t := Material.mk "Aluminum" 69e9.
Definition short_beam : Beam.t := Beam.mk "Beam1" 0.01 0.3 0.005.
Definition uniform_load : Load.t :=
  Load.mk "Uniform Load" "distributed" (Some 1000) None None.
Definition heavy_uniform_load : Load.t :=
  Load.mk "Heavy Uniform Load" "distributed" (Some 2000) None None.
Definition far_point_load : Load.t :=
  Load.mk "Far Point Load" "point" None (Some 5000) (Some 0.012).
Definition near_point_load : Load.t :=
  Load.mk "Point Load 1" "point" None (Some 5000) (Some 0.005).

(** A beam whose length is not a multiple of the grid step. *)
Definition odd_beam : Beam.t := Beam.mk "Beam2" 0.011 0.3 0.005.

(** ** Vocabulary of the further properties *)

(** A trace that holds console output only: no prompt, no file, no row, no
    figure. *)
Definition only_prints (t : list event) : Prop :=
  Forall (fun e => exists m, e = Print m) t.

(** Every list of the dictionary is not empty and holds, under the name of
    a beam of the catalog, positions strictly inside that beam. *)
Definition stored_in_range (beams : list Beam.t)
    (transition_points : gmap string (list Q)) : Prop :=
  forall (key : string) (Ts : list Q),
    transition_points !! key = Some Ts ->
    Ts <> []
    /\ Forall (fun T => exists beam, In beam beams /\ Beam.name beam = key
                                     /\ 0 < T /\ T < Beam.length beam) Ts.

(** A load the tabulation of a beam can sweep: a distributed load with an
    intensity, or a point load with a magnitude and a position strictly
    inside the beam. *)
Inductive sweepable (beam : Beam.t) (load : Load.t) : Prop :=
| sweepable_distributed (w : Q) :
    Load.load_type load = "distributed"%string ->
    Load.w load = Some w ->
    sweepable beam load
| sweepable_point (P a : Q) :
    Load.load_type load = "point"%string ->
    Load.P load = Some P ->
    Load.a load = Some a ->
    0 < a -> a < Beam.length beam ->
    sweepable beam load.

(** A load that carries the numbers its kind computes with. *)
Definition complete (load : Load.t) : Prop :=
  (Load.load_type load = "distributed"%string -> exists w, Load.w load = Some w)
  /\ (Load.load_type load = "point"%string ->
      exists P a, Load.P load = Some P /\ Load.a load = Some a).

(** A catalog with no zero among the numbers the kernel divides by (the
    moduli, and the widths and thicknesses that make the second moments)
    and with complete loads. *)
Definition sound (library : BeamLibrary.t) : Prop :=
  Forall (fun material => ~ Material.E material == 0)
         (BeamLibrary.materials library)
  /\ Forall (fun beam => ~ Beam.width beam == 0 /\ ~ Beam.thickness beam == 0)
            (BeamLibrary.beams library)
  /\ Forall complete (BeamLibrary.loads library).

(** A run that reads standard input either returns, or stops with
    [EOFError] once nothing is left to read. *)
Definition returns_or_starves {A : Type}
    (run : outcome A * list response * list event) : Prop :=
  match fst (fst run) with
  | Ok _ => True
  | Raise e => e = EOFError /\ snd (fst run) = []
  end.

(** The number of rows one load's sweep of a beam writes: for each ordered
    pair of materials, one row for each position of the beam's grid. *)
Definition sweep_rows (materials : list Material.t) (beam : Beam.t) : nat :=
  (List.length materials ^ 2
   * List.length (np_arange 0 (Beam.length beam + step) step))%nat.

(** Two kernel calls both return, the second [k] times what the first
    returns. *)
Definition scaled_by (k : Q) (r r' : outcome Q) : Prop :=
  exists q q', r = Ok q /\ r' = Ok q' /\ q' == k * q.

(** ** The catalog's methods: [BeamLibrary] (beam_library.py, lines 101-176)

    A method takes the catalog as it finds it and returns the catalog as it
    leaves it, with what it printed.  [str.lower] is a parameter: the
    properties hold whatever it does to a name. *)

(** One line printed by a method: the f-string's fixed words and the values
    it interpolates. *)
Inductive notice : Type :=
| NoteExists (kind name : string)
| NoteAdded (kind name : string)
| NoteNotFound (kind name : string)
| NoteRemoved (kind name : string)
| NoteUpdated (beam_name dimension : string) (value : Q).

(** [==] on the dataclasses: field by field, floats by value. *)
Definition optional_eq (v1 v2 : option Q) : bool :=
  match v1, v2 with
  | Some q1, Some q2 => Qeq_bool q1 q2
  | None, None => true
  | _, _ => false
  end.

Definition Material_eq (m1 m2 : Material.t) : bool :=
  String.eqb (Material.name m1) (Material.name m2)
  && Qeq_bool (Material.E m1) (Material.E m2).

Definition Beam_eq (b1 b2 : Beam.t) : bool :=
  String.eqb (Beam.name b1) (Beam.name b2)
  && Qeq_bool (Beam.length b1) (Beam.length b2)
  && Qeq_bool (Beam.width b1) (Beam.width b2)
  && Qeq_bool (Beam.thickness b1) (Beam.thickness b2).

Definition Load_eq (l1 l2 : Load.t) : bool :=
  String.eqb (Load.name l1) (Load.name l2)
  && String.eqb (Load.load_type l1) (Load.load_type l2)
  && optional_eq (Load.w l1) (Load.w l2)
  && optional_eq (Load.P l1) (Load.P l2)
  && optional_eq (Load.a l1) (Load.a l2).

(** [l.remove(x)]: the list without its first element equal to [x];
    [None] stands for the [ValueError] raised when there is none. *)
Fixpoint list_remove {A : Type} (eq : A -> A -> bool) (x : A) (l : list A)
  : option (list A) :=
  match l with
  | [] => None
  | a :: l' => if eq a x then Some l'
               else option_map (cons a) (list_remove eq x l')
  end.

(** Assigning to the fields of the object [next(...)] found: the first
    element that satisfies [p] is changed where it stands in the list. *)
Fixpoint update_first {A : Type} (p : A -> bool) (f : A -> A) (l : list A)
  : list A :=
  match l with
  | [] => []
  | a :: l' => if p a then f a :: l' else a :: update_first p f l'
  end.

Section Methods.
Variable lower : string -> string.

(** [name.lower() == other.lower()] *)
Definition same_name (name other : string) : bool :=
  String.eqb (lower name) (lower other).

Definition add_material (self : BeamLibrary.t) (material : Material.t)
  : BeamLibrary.t * list notice :=
  if existsb (fun mat => same_name (Material.name mat) (Material.name material))
             (BeamLibrary.materials self)
  then (self, [NoteExists "Material" (Material.name material)])
  else (BeamLibrary.mk (BeamLibrary.materials self ++ [material])
                       (BeamLibrary.beams self) (BeamLibrary.loads self),
        [NoteAdded "Material" (Material.name material)]).

Definition add_beam (self : BeamLibrary.t) (beam : Beam.t)
  : BeamLibrary.t * list notice :=
  if existsb (fun b => same_name (Beam.name b) (Beam.name beam))
             (BeamLibrary.beams self)
  then (self, [NoteExists "Beam" (Beam.name beam)])
  else (BeamLibrary.mk (BeamLibrary.materials self)
                       (BeamLibrary.beams self ++ [beam])
                       (BeamLibrary.loads self),
        [NoteAdded "Beam" (Beam.name beam)]).

Definition add_load (self : BeamLibrary.t) (load : Load.t)
  : BeamLibrary.t * list notice :=
  if existsb (fun ld => same_name (Load.name ld) (Load.name load))
             (BeamLibrary.loads self)
  then (self, [NoteExists "Load" (Load.name load)])
  else (BeamLibrary.mk (BeamLibrary.materials self) (BeamLibrary.beams self)
                       (BeamLibrary.loads self ++ [load]),
        [NoteAdded "Load" (Load.name load)]).

Definition remove_material (self : BeamLibrary.t) (material_name : string)
  : option (BeamLibrary.t * list notice) :=
  match find (fun mat => same_name (Material.name mat) material_name)
             (BeamLibrary.materials self) with
  | None => Some (self, [NoteNotFound "Material" material_name])
  | Some material =>
      match list_remove Material_eq material (BeamLibrary.materials self) with
      | Some materials =>
          Some (BeamLibrary.mk materials (BeamLibrary.beams self)
                               (BeamLibrary.loads self),
                [NoteRemoved "Material" material_name])
      | None => None
      end
  end.

Definition remove_beam (self : BeamLibrary.t) (beam_name : string)
  : option (BeamLibrary.t * list notice) :=
  match find (fun b => same_name (Beam.name b) beam_name)
             (BeamLibrary.beams self) with
  | None => Some (self, [NoteNotFound "Beam" beam_name])
  | Some beam =>
      match list_remove Beam_eq beam (BeamLibrary.beams self) with
      | Some beams =>
          Some (BeamLibrary.mk (BeamLibrary.materials self) beams
                               (BeamLibrary.loads self),
                [NoteRemoved "Beam" beam_name])
      | None => None
      end
  end.

Definition remove_load (self : BeamLibrary.t) (load_name : string)
  : option (BeamLibrary.t * list notice) :=
  match find (fun ld => same_name (Load.name ld) load_name)
             (BeamLibrary.loads self) with
  | None => Some (self, [NoteNotFound "Load" load_name])
  | Some load =>
      match list_remove Load_eq load (BeamLibrary.loads self) with
      | Some loads =>
          Some (BeamLibrary.mk (BeamLibrary.materials self)
                               (BeamLibrary.beams self) loads,
                [NoteRemoved "Load" load_name])
      | None => None
      end
  end.

(** The three assignments of [modify_beam_dimensions] to the beam found. *)
Definition with_dimensions (new_length new_width new_thickness : option Q)
    (beam : Beam.t) : Beam.t :=
  Beam.mk (Beam.name beam)
          (default (Beam.length beam) new_length)
          (default (Beam.width beam) new_width)
          (default (Beam.thickness beam) new_thickness).

Definition modify_beam_dimensions (self : BeamLibrary.t) (beam_name : string)
    (new_length new_width new_thickness : option Q)
  : BeamLibrary.t * list notice :=
  let found := fun b => same_name (Beam.name b) beam_name in
  match find found (BeamLibrary.beams self) with
  | None => (self, [NoteNotFound "Beam" beam_name])
  | Some _ =>
      (BeamLibrary.mk (BeamLibrary.materials self)
                      (update_first found
                         (with_dimensions new_length new_width new_thickness)
                         (BeamLibrary.beams self))
                      (BeamLibrary.loads self),
       match new_length with
       | Some value => [NoteUpdated beam_name "length" value]
       | None => []
       end
       ++ match new_width with
          | Some value => [NoteUpdated beam_name "width" value]
          | None => []
          end
       ++ match new_thickness with
          | Some value => [NoteUpdated beam_name "thickness" value]
          | None => []
          end)
  end.

(** No two entries of a list have the same name up to [lower]. *)
Definition distinct_names {A : Type} (name : A -> string) (l : list A) : Prop :=
  List.NoDup (map (fun a => lower (name a)) l).

End Methods.

(** Lower case for the letters A to Z, for the examples. *)
Definition ascii_lower (c : Ascii.ascii) : Ascii.ascii :=
  let n := Ascii.nat_of_ascii c in
  if (65 <=? n)%nat && (n <=? 90)%nat then Ascii.ascii_of_nat (n + 32) else c.

Fixpoint lower_letters (s : string) : string :=
  match s with
  | EmptyString => EmptyString
  | String c s' => String (ascii_lower c) (lower_letters s')
  end.

(** [after] is [before] without its first entry named [target] up to
    [lower], or [before] itself when it has no such entry. *)
Definition without_first_named {A : Type} (lower : string -> string)
    (name : A -> string) (target : string) (before after : list A) : Prop :=
  (existsb (fun a => same_name lower (name a) target) before = false
   /\ after = before)
  \/ (exists front x back,
        before = front ++ x :: back
        /\ Forall (fun a => same_name lower (name a) target = false) front
        /\ same_name lower (name x) target = true
        /\ after = front ++ back).

(* ================================================================== *)
(** * Properties *)
(* ================================================================== *)

(** ** Division and comparison *)

Lemma truediv_nonzero (a b : Q) : ~ b == 0 -> truediv a b = Ok (a / b).
Proof.
  intros Hb. unfold truediv.
  destruct (Qeq_bool b 0) eqn:Hz; [|reflexivity].
  apply Qeq_bool_iff in Hz. contradiction.
Qed.

Lemma truediv_zero (a b : Q) : b == 0 -> truediv a b = Raise ZeroDivisionError.
Proof.
  intros Hb. unfold truediv. apply Qeq_bool_iff in Hb. now rewrite Hb.
Qed.

Lemma Qmult_nonzero (a b : Q) : ~ a == 0 -> ~ b == 0 -> ~ a * b == 0.
Proof.
  intros Ha Hb H. apply Qmult_integral in H. tauto.
Qed.

Lemma Qltb_lt (a b : Q) : Qltb a b = true <-> a < b.
Proof.
  unfold Qltb. rewrite negb_true_iff. split.
  - intros H. apply Qnot_le_lt. intros Hle. apply Qle_bool_iff in Hle. congruence.
  - intros H. destruct (Qle_bool b a) eqn:Hle; [|reflexivity].
    apply Qle_bool_iff in Hle. lra.
Qed.

Lemma Qltb_ge (a b : Q) : Qltb a b = false <-> b <= a.
Proof.
  unfold Qltb. rewrite negb_false_iff. apply Qle_bool_iff.
Qed.

(** A denominator is a product of moduli, of the second moment and of
    literals: once each factor is known to be zero or not, so is each
    denominator, and the chain of divisions runs to its first failure. *)
Ltac nonzero :=
  repeat apply Qmult_nonzero; first [assumption | lra].

Ltac is_zero :=
  match goal with
  | H : ?a == 0 |- _ => rewrite H; ring
  end.

Ltac div_step :=
  match goal with
  | |- context [truediv ?a ?b] =>
      first [ rewrite (truediv_nonzero a b) by nonzero
            | rewrite (truediv_zero a b) by is_zero ]
  end; cbn [obind].

Ltac zero_or_not E :=
  destruct (Qeq_dec E 0) as [?Hz | ?Hnz].

Ltac run_divisions :=
  repeat div_step; cbv zeta; try (split; [reflexivity | is_zero]).

(** ** The kernel against the closed forms *)

Lemma y1_computes x E1 I L w :
  computes (y1 x E1 I L w) (E1 * I) (Spec.y1 x E1 I L w).
Proof.
  unfold computes, y1. zero_or_not E1; zero_or_not I; run_divisions.
  split; [nonzero | reflexivity].
Qed.

Lemma theta1_computes x E1 I L w :
  computes (theta1 x E1 I L w) (E1 * I) (Spec.theta1 x E1 I L w).
Proof.
  unfold computes, theta1. zero_or_not E1; zero_or_not I; run_divisions.
  split; [nonzero | reflexivity].
Qed.

Lemma y2_computes x E1 E2 I L T w :
  computes (y2 x E1 E2 I L T w) (E1 * E2 * I) (Spec.y2 x E1 E2 I L T w).
Proof.
  unfold computes, y2.
  zero_or_not E1; zero_or_not E2; zero_or_not I; run_divisions.
  split; [nonzero | unfold Spec.y2, Spec.C; ring].
Qed.

Lemma theta2_computes x E1 E2 I L T w :
  computes (theta2 x E1 E2 I L T w) (E1 * E2 * I) (Spec.theta2 x E1 E2 I L T w).
Proof.
  unfold computes, theta2.
  zero_or_not E1; zero_or_not E2; zero_or_not I; run_divisions.
  split; [nonzero | reflexivity].
Qed.

Lemma y_point_load_before_computes x P E1 I a :
  computes (y_point_load_before x P E1 I a) (E1 * I) (Spec.y_point_lt x P E1 I a).
Proof.
  unfold computes, y_point_load_before.
  zero_or_not E1; zero_or_not I; run_divisions.
  split; [nonzero | reflexivity].
Qed.

Lemma y_point_load_after_computes x P E1 I a :
  computes (y_point_load_after x P E1 I a) (E1 * I) (Spec.y_point_ge x P E1 I a).
Proof.
  unfold computes, y_point_load_after.
  zero_or_not E1; zero_or_not I; run_divisions.
  split; [nonzero | reflexivity].
Qed.

Lemma theta_point_load_before_computes x P E1 I a :
  computes (theta_point_load_before x P E1 I a) (E1 * I)
           (Spec.theta_point_lt x P E1 I a).
Proof.
  unfold computes, theta_point_load_before.
  zero_or_not E1; zero_or_not I; run_divisions.
  split; [nonzero | unfold Spec.theta_point_lt; field; split; assumption].
Qed.

Lemma theta_point_load_after_computes x P E1 I a :
  computes (theta_point_load_after x P E1 I a) (E1 * I)
           (Spec.theta_point_ge x P E1 I a).
Proof.
  unfold computes, theta_point_load_after.
  zero_or_not E1; zero_or_not I; run_divisions.
  split; [nonzero | unfold Spec.theta_point_ge; field; split; assumption].
Qed.

Lemma computes_value (r : outcome Q) (d v : Q) :
  computes r d v -> ~ d == 0 -> exists q, r = Ok q /\ q == v.
Proof.
  unfold computes. destruct r as [q | e]; intros H Hd.
  - exists q. tauto.
  - tauto.
Qed.

Lemma same_value_of_computes (r1 r2 : outcome Q) (d1 d2 v1 v2 : Q) :
  computes r1 d1 v1 -> computes r2 d2 v2 ->
  ~ d1 == 0 -> ~ d2 == 0 -> v1 == v2 -> same_value r1 r2.
Proof.
  intros H1 H2 Hd1 Hd2 Hv.
  destruct (computes_value _ _ _ H1 Hd1) as (q1 & -> & E1).
  destruct (computes_value _ _ _ H2 Hd2) as (q2 & -> & E2).
  exists q1, q2. repeat split. now rewrite E1, E2.
Qed.

(** Which arm a position takes. *)

Lemma distributed_before x E1 E2 I L T w :
  x < T ->
  distributed_y_theta x E1 E2 I L T w
  = y_then_theta (y1 x E1 I L w) (theta1 x E1 I L w).
Proof.
  intros H. apply Qltb_lt in H. unfold distributed_y_theta. now rewrite H.
Qed.

Lemma distributed_from x E1 E2 I L T w :
  T <= x ->
  distributed_y_theta x E1 E2 I L T w
  = y_then_theta (y2 x E1 E2 I L T w) (theta2 x E1 E2 I L T w).
Proof.
  intros H. apply Qltb_ge in H. unfold distributed_y_theta. now rewrite H.
Qed.

Lemma point_load_before x P E1 I a :
  x < a ->
  y_point_load x P E1 I a = y_point_load_before x P E1 I a
  /\ theta_point_load x P E1 I a = theta_point_load_before x P E1 I a.
Proof.
  intros H. apply Qltb_lt in H. unfold y_point_load, theta_point_load.
  now rewrite H.
Qed.

Lemma point_load_from x P E1 I a :
  a <= x ->
  y_point_load x P E1 I a = y_point_load_after x P E1 I a
  /\ theta_point_load x P E1 I a = theta_point_load_after x P E1 I a.
Proof.
  intros H. apply Qltb_ge in H. unfold y_point_load, theta_point_load.
  now rewrite H.
Qed.

(** C1.  Each kernel function returns the value of the closed form of
    section 4.2 of the specification wherever the form's denominators are
    not zero (and raises [ZeroDivisionError] exactly where one is); a
    position below the transition (below the load position) takes the first
    arm, every other position the second, and so does a position equal to
    [T] (to [a]). *)
Theorem kernel_reproduces_closed_forms :
  (forall x E1 I L w,
      computes (y1 x E1 I L w) (E1 * I) (Spec.y1 x E1 I L w)
      /\ computes (theta1 x E1 I L w) (E1 * I) (Spec.theta1 x E1 I L w))
  /\ (forall x E1 E2 I L T w,
      computes (y2 x E1 E2 I L T w) (E1 * E2 * I) (Spec.y2 x E1 E2 I L T w)
      /\ computes (theta2 x E1 E2 I L T w) (E1 * E2 * I)
                  (Spec.theta2 x E1 E2 I L T w))
  /\ (forall x P E1 I a,
      computes (y_point_load_before x P E1 I a) (E1 * I)
               (Spec.y_point_lt x P E1 I a)
      /\ computes (theta_point_load_before x P E1 I a) (E1 * I)
                  (Spec.theta_point_lt x P E1 I a)
      /\ computes (y_point_load_after x P E1 I a) (E1 * I)
                  (Spec.y_point_ge x P E1 I a)
      /\ computes (theta_point_load_after x P E1 I a) (E1 * I)
                  (Spec.theta_point_ge x P E1 I a))
  /\ (forall x E1 E2 I L T w,
      (x < T -> distributed_y_theta x E1 E2 I L T w
                = y_then_theta (y1 x E1 I L w) (theta1 x E1 I L w))
      /\ (T <= x -> distributed_y_theta x E1 E2 I L T w
                    = y_then_theta (y2 x E1 E2 I L T w)
                                   (theta2 x E1 E2 I L T w))
      /\ (x == T -> distributed_y_theta x E1 E2 I L T w
                    = y_then_theta (y2 x E1 E2 I L T w)
                                   (theta2 x E1 E2 I L T w)))
  /\ (forall x P E1 I a,
      (x < a -> y_point_load x P E1 I a = y_point_load_before x P E1 I a
                /\ theta_point_load x P E1 I a
                   = theta_point_load_before x P E1 I a)
      /\ (a <= x -> y_point_load x P E1 I a = y_point_load_after x P E1 I a
                    /\ theta_point_load x P E1 I a
                       = theta_point_load_after x P E1 I a)
      /\ (x == a -> y_point_load x P E1 I a = y_point_load_after x P E1 I a
                    /\ theta_point_load x P E1 I a
                       = theta_point_load_after x P E1 I a)).
Proof.
  repeat apply conj; intros.
  - split; [apply y1_computes | apply theta1_computes].
  - split; [apply y2_computes | apply theta2_computes].
  - repeat split;
      [ apply y_point_load_before_computes
      | apply theta_point_load_before_computes
      | apply y_point_load_after_computes
      | apply theta_point_load_after_computes ].
  - repeat split; intros H.
    + now apply distributed_before.
    + now apply distributed_from.
    + apply distributed_from. rewrite H. apply Qle_refl.
  - repeat apply conj; intros H.
    + now apply point_load_before.
    + now apply point_load_from.
    + apply point_load_from. rewrite H. apply Qle_refl.
Qed.

(** The transition of C1 at a concrete position: [x = 10/2] is [T = 5]
    and takes the second arm. *)
Lemma kernel_reproduces_closed_forms_witness :
  (10 # 2) == 5
  /\ distributed_y_theta (10 # 2) 2 3 1 10 5 1
     = y_then_theta (y2 (10 # 2) 2 3 1 10 5 1) (theta2 (10 # 2) 2 3 1 10 5 1).
Proof.
  split; [reflexivity|].
  apply (proj2 (proj2 (proj1 (proj2 (proj2 (proj2 kernel_reproduces_closed_forms)))
                 (10 # 2) 2 3 1 10 5 1))).
  reflexivity.
Defined.

(** ** Continuity of the distributed-load formulas *)

(** The two arms of the distributed-load formulas meet at the transition
    whenever the moduli and the second moment are not zero. *)
Lemma distributed_arms_meet E1 E2 I w L T :
  ~ E1 == 0 -> ~ E2 == 0 -> ~ I == 0 ->
  same_value (theta1 T E1 I L w) (theta2 T E1 E2 I L T w)
  /\ same_value (y1 T E1 I L w) (y2 T E1 E2 I L T w).
Proof.
  intros H1 H2 HI. split.
  - apply (same_value_of_computes _ _ _ _ _ _
             (theta1_computes T E1 I L w) (theta2_computes T E1 E2 I L T w));
      [nonzero | nonzero |].
    unfold Spec.theta1, Spec.theta2, Spec.C. field. repeat split; assumption.
  - apply (same_value_of_computes _ _ _ _ _ _
             (y1_computes T E1 I L w) (y2_computes T E1 E2 I L T w));
      [nonzero | nonzero |].
    unfold Spec.y1, Spec.y2, Spec.C. field. repeat split; assumption.
Qed.

(** C2.  For positive moduli, second moment, load and length and a
    transition strictly inside the beam, the first and the second arm of the
    rotation return the same number at [x = T], and so do the two arms of
    the deflection. *)
Theorem distributed_load_continuous_at_T E1 E2 I w L T :
  0 < E1 -> 0 < E2 -> 0 < I -> 0 < w -> 0 < L -> 0 < T -> T < L ->
  same_value (theta1 T E1 I L w) (theta2 T E1 E2 I L T w)
  /\ same_value (y1 T E1 I L w) (y2 T E1 E2 I L T w).
Proof.
  intros HE1 HE2 HI _ _ _ _. apply distributed_arms_meet; lra.
Qed.

Lemma distributed_load_continuous_at_T_witness :
  same_value (theta1 5 200 (1 # 8) 10 1000) (theta2 5 200 69 (1 # 8) 10 5 1000)
  /\ same_value (y1 5 200 (1 # 8) 10 1000) (y2 5 200 69 (1 # 8) 10 5 1000).
Proof.
  apply (distributed_load_continuous_at_T 200 69 (1 # 8) 1000 10 5);
    reflexivity.
Defined.

(** With one modulus for both segments the second arm is the first arm, at
    every position and for every transition. *)
Lemma single_modulus_arms_coincide x E I L T w :
  ~ E == 0 -> ~ I == 0 ->
  same_value (y2 x E E I L T w) (y1 x E I L w)
  /\ same_value (theta2 x E E I L T w) (theta1 x E I L w).
Proof.
  intros HE HI. split.
  - apply (same_value_of_computes _ _ _ _ _ _
             (y2_computes x E E I L T w) (y1_computes x E I L w));
      [nonzero | nonzero |].
    unfold Spec.y1, Spec.y2, Spec.C. field. split; assumption.
  - apply (same_value_of_computes _ _ _ _ _ _
             (theta2_computes x E E I L T w) (theta1_computes x E I L w));
      [nonzero | nonzero |].
    unfold Spec.theta1, Spec.theta2, Spec.C. field. split; assumption.
Qed.

(** C6.  When both segments have the modulus [E], the second arm of the
    deflection and of the rotation returns, at every position of the beam,
    what the first arm returns there: the piecewise curves have no jump at
    the transition. *)
Theorem single_modulus_has_no_jump x E I L T w :
  0 < E -> 0 < I -> 0 < L -> 0 < w -> 0 < T -> T < L -> 0 <= x -> x <= L ->
  same_value (y2 x E E I L T w) (y1 x E I L w)
  /\ same_value (theta2 x E E I L T w) (theta1 x E I L w).
Proof.
  intros HE HI _ _ _ _ _ _. apply single_modulus_arms_coincide; lra.
Qed.

Lemma single_modulus_has_no_jump_witness :
  same_value (y2 7 200 200 (1 # 8) 10 5 1000) (y1 7 200 (1 # 8) 10 1000)
  /\ same_value (theta2 7 200 200 (1 # 8) 10 5 1000)
                (theta1 7 200 (1 # 8) 10 1000).
Proof.
  apply (single_modulus_has_no_jump 7 200 (1 # 8) 10 5 1000);
    first [reflexivity | discriminate].
Defined.

(** ** The point-load formulas at the load position *)

(** C3.  At [x = a] the two arms of the point-load rotation return the
    same number, and the two arms of the point-load deflection do not: the
    first arm returns [P a^3 / (3 E1 I)], the second returns zero. *)
Theorem point_load_deflection_jumps_at_load P E1 I a :
  0 < P -> 0 < E1 -> 0 < I -> 0 < a ->
  same_value (theta_point_load_before a P E1 I a)
             (theta_point_load_after a P E1 I a)
  /\ exists before after,
       y_point_load_before a P E1 I a = Ok before
       /\ y_point_load_after a P E1 I a = Ok after
       /\ y_point_load a P E1 I a = Ok after
       /\ before == P * a ^ 3 / (3 * E1 * I)
       /\ after == 0
       /\ ~ before == after.
Proof.
  intros HP HE HI Ha.
  assert (HEI : ~ E1 * I == 0) by (apply Qmult_nonzero; lra).
  split.
  - apply (same_value_of_computes _ _ _ _ _ _
             (theta_point_load_before_computes a P E1 I a)
             (theta_point_load_after_computes a P E1 I a)); [assumption ..|].
    unfold Spec.theta_point_lt, Spec.theta_point_ge. field. split; lra.
  - destruct (computes_value _ _ _ (y_point_load_before_computes a P E1 I a) HEI)
      as (before & Hb & Vb).
    destruct (computes_value _ _ _ (y_point_load_after_computes a P E1 I a) HEI)
      as (after & Ha' & Va).
    exists before, after.
    assert (Hbefore : before == P * a ^ 3 / (3 * E1 * I)).
    { rewrite Vb. unfold Spec.y_point_lt. field. split; lra. }
    assert (Hafter : after == 0).
    { rewrite Va. unfold Spec.y_point_ge. field. split; lra. }
    repeat split; try assumption.
    + rewrite <- Ha'. apply point_load_from. apply Qle_refl.
    + rewrite Hbefore, Hafter. intros H.
      assert (Hpos : 0 < P * a ^ 3 / (3 * E1 * I)).
      { apply Qlt_shift_div_l.
        - rewrite <- Qmult_assoc. apply Qmult_lt_0_compat; [lra|].
          apply Qmult_lt_0_compat; assumption.
        - rewrite Qmult_0_l. apply Qmult_lt_0_compat; [assumption|].
          simpl. repeat apply Qmult_lt_0_compat; assumption. }
      lra.
Qed.

Lemma point_load_deflection_jumps_at_load_witness :
  same_value (theta_point_load_before 5 5000 200 (1 # 8) 5)
             (theta_point_load_after 5 5000 200 (1 # 8) 5)
  /\ exists before after,
       y_point_load_before 5 5000 200 (1 # 8) 5 = Ok before
       /\ y_point_load_after 5 5000 200 (1 # 8) 5 = Ok after
       /\ y_point_load 5 5000 200 (1 # 8) 5 = Ok after
       /\ before == 5000 * 5 ^ 3 / (3 * 200 * (1 # 8))
       /\ after == 0
       /\ ~ before == after.
Proof.
  apply (point_load_deflection_jumps_at_load 5000 200 (1 # 8) 5); reflexivity.
Defined.

(** ** Running the phases *)

Lemma bind_run {S A B : Type} (m : M S A) (k : A -> M S B) (s : S) :
  bind m k s
  = let '(r, s1, t1) := m s in
    match r with
    | Ok a => let '(r2, s2, t2) := k a s1 in (r2, s2, t1 ++ t2)
    | Raise e => (Raise e, s1, t1)
    end.
Proof. reflexivity. Qed.

Lemma bind_emit {S B : Type} (e : event) (k : unit -> M S B) (s : S) :
  bind (emit e) k s = let '(r, s', t) := k tt s in (r, s', e :: t).
Proof.
  unfold bind, emit. destruct (k tt s) as [[r s'] t]. reflexivity.
Qed.

Lemma bind_lift_ok {S A B : Type} (a : A) (k : A -> M S B) (s : S) :
  bind (lift (Ok a)) k s = k a s.
Proof.
  unfold bind, lift. destruct (k a s) as [[r s'] t]. reflexivity.
Qed.

(** ** Empty catalogs *)

(** C7.  When the catalog has no materials, no beams or no loads,
    [compute_deflections] returns the empty dictionary at once: it prints
    the three counts and one diagnostic and does nothing else, so no file
    is opened, no row written, no prompt issued and no line of input
    read. *)
Theorem empty_catalog_returns_at_once
    (library : BeamLibrary.t) (output_filename : string)
    (stdin : list response) :
  BeamLibrary.materials library = []
  \/ BeamLibrary.beams library = []
  \/ BeamLibrary.loads library = [] ->
  exists diagnostic,
    In diagnostic [MsgNoBeams; MsgNoLoads; MsgNoMaterials]
    /\ compute_deflections library output_filename stdin
       = (Ok ∅, stdin,
          [Print (MsgLoadedMaterials (List.length (BeamLibrary.materials library)));
           Print (MsgLoadedBeams (List.length (BeamLibrary.beams library)));
           Print (MsgLoadedLoads (List.length (BeamLibrary.loads library)));
           Print diagnostic]).
Proof.
  destruct library as [materials beams loads]. cbn [BeamLibrary.materials
    BeamLibrary.beams BeamLibrary.loads]. intros H.
  unfold compute_deflections, BeamLibrary.get_materials, BeamLibrary.get_beams,
    BeamLibrary.get_loads.
  cbn [BeamLibrary.materials BeamLibrary.beams BeamLibrary.loads].
  destruct beams as [|beam beams].
  { exists MsgNoBeams. split; [now left | reflexivity]. }
  destruct loads as [|load loads].
  { exists MsgNoLoads. split; [right; now left | reflexivity]. }
  destruct materials as [|material materials].
  { exists MsgNoMaterials. split; [right; right; now left | reflexivity]. }
  destruct H as [H | [H | H]]; discriminate H.
Qed.

Lemma empty_catalog_returns_at_once_witness :
  exists diagnostic,
    In diagnostic [MsgNoBeams; MsgNoLoads; MsgNoMaterials]
    /\ compute_deflections
         (BeamLibrary.mk [Material.mk "Steel" 200]
                         [Beam.mk "Beam1" 10 (3 # 10) (1 # 200)] [])
         "deflection_results.csv" [Number 5]
       = (Ok ∅, [Number 5],
          [Print (MsgLoadedMaterials 1); Print (MsgLoadedBeams 1);
           Print (MsgLoadedLoads 0); Print diagnostic]).
Proof.
  apply (empty_catalog_returns_at_once
           (BeamLibrary.mk [Material.mk "Steel" 200]
                           [Beam.mk "Beam1" 10 (3 # 10) (1 # 200)] [])
           "deflection_results.csv" [Number 5]).
  right; right; reflexivity.
Defined.

(** ** Loads the tabulation passes over *)

(** C8.  In the loop over the loads of a beam, a point load at or beyond
    an end of the beam, and a load of an unknown kind, add two lines to the
    console (the load's announcement and a diagnostic) and nothing else:
    the loop goes on with the remaining loads from the same dictionary and
    the same unread input, so the load has no row, no prompt and no
    transition point. *)
Theorem skipped_load_leaves_only_a_diagnostic
    (materials : list Material.t) (beam : Beam.t) (load : Load.t)
    (rest : list Load.t) (diagnostic : message)
    (transition_points : gmap string (list Q)) (stdin : list response) :
  skips beam load diagnostic ->
  for_acc (load :: rest) (tabulate_load materials beam) transition_points stdin
  = let '(r, s, t) :=
      for_acc rest (tabulate_load materials beam) transition_points stdin in
    (r, s,
     Print (MsgApplyingLoad (Load.name load) (Load.load_type load))
       :: Print diagnostic :: t).
Proof.
  intros Hskip. cbn [for_acc]. rewrite bind_run.
  unfold tabulate_load at 1.
  destruct Hskip as [y_load Hkind Ha Hout | Hnd Hnp].
  - rewrite Hkind, Ha. cbn [String.eqb Ascii.eqb Bool.eqb as_float].
    rewrite bind_emit, bind_lift_ok.
    assert (Hrange : negb (Qltb 0 y_load && Qltb y_load (Beam.length beam)) = true).
    { rewrite negb_true_iff, andb_false_iff, !Qltb_ge. exact Hout. }
    rewrite Hrange, bind_emit. cbn [ret].
    destruct (for_acc rest _ _ _) as [[r s] t]. reflexivity.
  - apply String.eqb_neq in Hnd, Hnp. rewrite Hnd, Hnp.
    rewrite bind_emit, bind_emit. cbn [ret].
    destruct (for_acc rest _ _ _) as [[r s] t]. reflexivity.
Qed.

Lemma skipped_load_leaves_only_a_diagnostic_witness :
  for_acc [far_point_load; uniform_load] (tabulate_load [steel] short_beam)
          ∅ [NotANumber]
  = let '(r, s, t) :=
      for_acc [uniform_load] (tabulate_load [steel] short_beam) ∅ [NotANumber] in
    (r, s,
     Print (MsgApplyingLoad "Far Point Load" "point")
       :: Print (MsgLoadOutsideBeam 0.012 0.01) :: t).
Proof.
  apply (skipped_load_leaves_only_a_diagnostic
           [steel] short_beam far_point_load [uniform_load]
           (MsgLoadOutsideBeam 0.012 0.01) ∅ [NotANumber]).
  apply (skips_out_of_range short_beam far_point_load 0.012).
  - reflexivity.
  - reflexivity.
  - right. discriminate.
Defined.

(** ** What a phase does to its state *)

Section Frame.
Context {S : Type} (R : S -> S -> Prop).
Hypothesis R_refl : forall s, R s s.
Hypothesis R_trans : forall s1 s2 s3, R s1 s2 -> R s2 s3 -> R s1 s3.

Lemma keeps_ret {A : Type} (a : A) : keeps R (ret a).
Proof. intros s. apply R_refl. Qed.

Lemma keeps_emit (e : event) : keeps R (emit e).
Proof. intros s. apply R_refl. Qed.

Lemma keeps_lift {A : Type} (r : outcome A) : keeps R (lift r).
Proof. intros s. apply R_refl. Qed.

Lemma keeps_bind {A B : Type} (m : M S A) (k : A -> M S B) :
  keeps R m -> (forall a, keeps R (k a)) -> keeps R (bind m k).
Proof.
  intros Hm Hk s. specialize (Hm s). unfold bind.
  destruct (m s) as [[r s1] t1]. cbn [fst snd] in Hm.
  destruct r as [a | e]; [|exact Hm].
  specialize (Hk a s1). destruct (k a s1) as [[r2 s2] t2].
  cbn [fst snd] in *. eapply R_trans; eassumption.
Qed.

Lemma keeps_for_each {A : Type} (l : list A) (body : A -> M S unit) :
  (forall a, keeps R (body a)) -> keeps R (for_each l body).
Proof.
  intros Hbody. induction l as [|a l IH]; cbn [for_each].
  - apply keeps_ret.
  - apply keeps_bind; [apply Hbody | intros _; exact IH].
Qed.

Lemma keeps_for_acc {A B : Type} (l : list A) (body : A -> B -> M S B) :
  (forall a b, keeps R (body a b)) -> forall acc, keeps R (for_acc l body acc).
Proof.
  intros Hbody. induction l as [|a l IH]; intros acc; cbn [for_acc].
  - apply keeps_ret.
  - apply keeps_bind; [apply Hbody | intros b; apply IH].
Qed.

Lemma keeps_curve_thetas (x_values : list Q) (theta_at : Q -> outcome Q) :
  keeps R (curve_thetas x_values theta_at).
Proof.
  apply keeps_for_acc. intros x thetas.
  apply keeps_bind; [apply keeps_lift | intros theta; apply keeps_ret].
Qed.

Lemma keeps_plot_curves (materials : list Material.t) (L : Q)
    (theta_at : Material.t -> Material.t -> Q -> outcome Q) :
  keeps R (plot_curves materials L theta_at).
Proof.
  unfold plot_curves. apply keeps_bind.
  - apply keeps_for_acc. intros [material1 material2] [color_idx curves].
    apply keeps_bind; [apply keeps_curve_thetas | intros thetas; apply keeps_ret].
  - intros [color_idx curves]. apply keeps_ret.
Qed.
End Frame.

(** ** The plotting phase and the dictionary it is given *)

Lemma consumed_from_refl (tp : gmap string (list Q)) : consumed_from tp tp.
Proof.
  intros key. destruct (tp !! key); constructor. reflexivity.
Qed.

Lemma consumed_from_trans (tp1 tp2 tp3 : gmap string (list Q)) :
  consumed_from tp1 tp2 -> consumed_from tp2 tp3 -> consumed_from tp1 tp3.
Proof.
  intros H12 H23 key. specialize (H12 key). specialize (H23 key).
  destruct H23 as [l3 l2 H32 |]; inversion H12 as [l2' l1 H21 |]; subst;
    constructor.
  etransitivity; eassumption.
Qed.

Lemma keeps_Ts_read (key : string) : keeps consumed_from (Ts_read key).
Proof. intros tp. apply consumed_from_refl. Qed.

Lemma keeps_Ts_pop0 (key : string) : keeps consumed_from (Ts_pop0 key).
Proof.
  intros tp. unfold Ts_pop0.
  destruct (tp !! key) as [[|T Ts]|] eqn:Hkey; cbn [fst snd];
    try apply consumed_from_refl.
  intros key'. destruct (decide (key = key')) as [<- | Hne].
  - rewrite lookup_insert_eq, Hkey. constructor. apply suffix_cons_r. reflexivity.
  - rewrite lookup_insert_ne by assumption.
    destruct (tp !! key'); constructor. reflexivity.
Qed.

Lemma keeps_plot_load (materials : list Material.t) (beam : Beam.t)
    (load : Load.t) : keeps consumed_from (plot_load materials beam load).
Proof.
  pose proof consumed_from_refl as Hrefl.
  pose proof consumed_from_trans as Htrans.
  pose proof (fun A B => @keeps_bind _ consumed_from Htrans A B) as Hbind.
  unfold plot_load.
  destruct (String.eqb _ "distributed"); [|destruct (String.eqb _ "point")].
  - apply Hbind; [apply keeps_Ts_read|]. intros [|T0 Ts]; [now apply keeps_emit|].
    apply Hbind; [apply keeps_Ts_pop0 | intros T].
    apply Hbind; [now apply keeps_emit | intros _].
    apply Hbind; [now apply keeps_plot_curves | intros curves].
    now apply keeps_emit.
  - apply Hbind; [apply keeps_Ts_read|]. intros [|T0 Ts]; [now apply keeps_emit|].
    apply Hbind; [apply keeps_Ts_pop0 | intros T].
    apply Hbind; [now apply keeps_emit | intros _].
    apply Hbind; [now apply keeps_plot_curves | intros curves].
    now apply keeps_emit.
  - now apply keeps_emit.
Qed.

(** ** Point loads and the second material *)

Lemma for_each_agree {S A : Type} (f : event -> event) (l : list A)
    (body body' : A -> M S unit) :
  (forall a s, agree f (body a s) (body' a s)) ->
  forall s, agree f (for_each l body s) (for_each l body' s).
Proof.
  intros Hbody. induction l as [|a l IH]; intros s; cbn [for_each].
  - repeat split.
  - unfold bind. destruct (Hbody a s) as (Hr & Hs & Ht).
    destruct (body a s) as [[r s1] t1], (body' a s) as [[r' s1'] t1'].
    cbn [fst snd] in Hr, Hs, Ht. subst r' s1'.
    destruct r as [[] | e]; [|repeat split; assumption].
    destruct (IH s1) as (Hr & Hs & Ht').
    destruct (for_each l body s1) as [[r2 s2] t2],
             (for_each l body' s1) as [[r2' s2'] t2'].
    cbn [fst snd] in *. subst r2' s2'.
    repeat split. cbn [snd]. now rewrite !List.map_app, Ht, Ht'.
Qed.

Lemma tabulate_point_pair_material2 (beam : Beam.t) (load : Load.t) (y_load : Q)
    (material1 material2 material2' : Material.t) (stdin : list response) :
  agree blank_material2
        (tabulate_point_pair beam load y_load material1 material2 stdin)
        (tabulate_point_pair beam load y_load material1 material2' stdin).
Proof.
  unfold tabulate_point_pair. apply for_each_agree. intros x s.
  unfold bind, lift, emit.
  destruct (as_float (Load.P load)) as [P | e]; [|repeat split].
  destruct (y_point_load x P _ _ y_load) as [y | e]; [|repeat split].
  destruct (theta_point_load x P _ _ y_load) as [theta | e]; repeat split.
Qed.

Lemma rows_app (t1 t2 : list event) : rows (t1 ++ t2) = rows t1 ++ rows t2.
Proof. unfold rows. apply flat_map_app. Qed.

Lemma ask_T_accepts (prompt : message) (L : Q) (on_accept : Q -> list event)
    (T : Q) (stdin : list response) :
  0 < T -> T < L ->
  ask_T prompt L on_accept (Number T :: stdin)
  = (Ok T, stdin, Input prompt :: on_accept T).
Proof.
  intros H0 HL. apply Qltb_lt in H0, HL. cbn [ask_T]. now rewrite H0, HL.
Qed.

Lemma tabulate_load_point_T (materials : list Material.t) (beam : Beam.t)
    (load : Load.t) (y_load T : Q) (transition_points : gmap string (list Q))
    (stdin : list response) :
  Load.load_type load = "point"%string -> Load.a load = Some y_load ->
  0 < y_load -> y_load < Beam.length beam ->
  0 < T -> T < Beam.length beam ->
  let run := tabulate_load materials beam load transition_points
                           (Number T :: stdin) in
  let sweep := tabulate_point materials beam load y_load stdin in
  forget (fst (fst run)) = fst (fst sweep)
  /\ snd (fst run) = snd (fst sweep)
  /\ rows (snd run) = rows (snd sweep).
Proof.
  intros Hkind Ha Hy0 HyL HT0 HTL run sweep. subst run sweep.
  unfold tabulate_load. rewrite Hkind, Ha.
  cbn [String.eqb Ascii.eqb Bool.eqb as_float].
  rewrite bind_emit, bind_lift_ok.
  apply Qltb_lt in Hy0, HyL. rewrite Hy0, HyL. cbn [andb negb].
  rewrite bind_run, ask_T_accepts by assumption.
  rewrite bind_run.
  destruct (tabulate_point materials beam load y_load stdin) as [[[[]|e] s] t];
    cbn [ret fst snd forget]; repeat split;
    rewrite ?app_nil_r; cbn [rows flat_map app];
    rewrite rows_app; destruct (Qltb T y_load); reflexivity.
Qed.

Lemma quiet_ret {S A : Type} (a : A) : quiet (ret a : M S A).
Proof. intros s. split; reflexivity. Qed.

Lemma quiet_lift {S A : Type} (r : outcome A) : quiet (lift r : M S A).
Proof. intros s. split; reflexivity. Qed.

Lemma quiet_bind {S A B : Type} (m : M S A) (k : A -> M S B) :
  quiet m -> (forall a, quiet (k a)) -> quiet (bind m k).
Proof.
  intros Hm Hk s. destruct (Hm s) as [Hs Ht]. unfold bind.
  destruct (m s) as [[r s1] t1]. cbn [fst snd] in Hs, Ht. subst s1 t1.
  destruct r as [a | e]; [|split; reflexivity].
  destruct (Hk a s) as [Hs Ht]. destruct (k a s) as [[r2 s2] t2].
  cbn [fst snd] in *. subst s2 t2. split; reflexivity.
Qed.

Lemma quiet_for_acc {S A B : Type} (l : list A) (body : A -> B -> M S B) :
  (forall a b, quiet (body a b)) -> forall acc, quiet (for_acc l body acc).
Proof.
  intros Hbody. induction l as [|a l IH]; intros acc; cbn [for_acc].
  - apply quiet_ret.
  - apply quiet_bind; [apply Hbody | intros b; apply IH].
Qed.

Lemma quiet_plot_curves {S : Type} (materials : list Material.t) (L : Q)
    (theta_at : Material.t -> Material.t -> Q -> outcome Q) :
  quiet (plot_curves materials L theta_at : M S (list curve)).
Proof.
  unfold plot_curves. apply quiet_bind.
  - apply quiet_for_acc. intros [material1 material2] [color_idx curves].
    apply quiet_bind; [|intros thetas; apply quiet_ret].
    apply quiet_for_acc. intros x thetas.
    apply quiet_bind; [apply quiet_lift | intros theta; apply quiet_ret].
  - intros [color_idx curves]. apply quiet_ret.
Qed.

Lemma plot_load_point_T (materials : list Material.t) (beam : Beam.t)
    (load : Load.t) (T : Q) (Ts : list Q)
    (transition_points : gmap string (list Q)) :
  Load.load_type load = "point"%string ->
  let run := plot_load materials beam load
               (<[Beam.name beam := T :: Ts]> transition_points) in
  let drawing := plot_curves materials (Beam.length beam)
                   (plot_point_theta beam load)
                   (<[Beam.name beam := Ts]> transition_points) in
  fst (fst run) = forget (fst (fst drawing))
  /\ snd (fst run) = <[Beam.name beam := Ts]> transition_points
  /\ figures (snd run)
     = match fst (fst drawing) with
       | Ok curves => [mk_figure (figure_title beam load) curves]
       | Raise _ => []
       end
  /\ console (snd run) = [MsgPlottingPoint (Load.name load) T (Load.a load)].
Proof.
  intros Hkind run drawing. subst run drawing.
  unfold plot_load. rewrite Hkind. cbn [String.eqb Ascii.eqb Bool.eqb].
  rewrite bind_run. unfold Ts_read. rewrite lookup_insert_eq.
  cbn [default from_option id app].
  rewrite bind_run. unfold Ts_pop0. rewrite lookup_insert_eq, insert_insert_eq.
  rewrite bind_emit, bind_run.
  destruct (quiet_plot_curves materials (Beam.length beam)
              (plot_point_theta beam load)
              (<[Beam.name beam := Ts]> transition_points)) as [Hs Ht].
  destruct (plot_curves materials (Beam.length beam) (plot_point_theta beam load)
              (<[Beam.name beam := Ts]> transition_points)) as [[[curves|e] s] t];
    cbn [fst snd] in Hs, Ht; subst s t; repeat split.
Qed.



(** C10.  For a point load inside the beam, what is computed depends on
    the first material alone.  In the tabulation, the sweep of a material
    pair ends the same way and writes the same rows, the Material2 column
    apart, when the second material is replaced by any other; and the rows
    written for the load are the same for any two accepted transition
    points.  In the plotting, the rotation values of a curve are the same
    for any second material, and the figure of the load is the same for any
    two transition points found at the head of the beam's list. *)
Theorem point_load_results_depend_on_material1_alone
    (materials : list Material.t) (beam : Beam.t) (load : Load.t)
    (y_load T T' : Q) (material1 material2 material2' : Material.t)
    (Ts : list Q) (transition_points : gmap string (list Q))
    (stdin : list response) :
  Load.load_type load = "point"%string ->
  Load.a load = Some y_load ->
  0 < y_load -> y_load < Beam.length beam ->
  0 < T -> T < Beam.length beam ->
  0 < T' -> T' < Beam.length beam ->
  agree blank_material2
        (tabulate_point_pair beam load y_load material1 material2 stdin)
        (tabulate_point_pair beam load y_load material1 material2' stdin)
  /\ (let run := tabulate_load materials beam load transition_points
                               (Number T :: stdin) in
      let run' := tabulate_load materials beam load transition_points
                                (Number T' :: stdin) in
      forget (fst (fst run)) = forget (fst (fst run'))
      /\ snd (fst run) = snd (fst run')
      /\ rows (snd run) = rows (snd run'))
  /\ (forall (x_values : list Q) (s : gmap string (list Q)),
        curve_thetas x_values (plot_point_theta beam load material1 material2) s
        = curve_thetas x_values (plot_point_theta beam load material1 material2') s)
  /\ (let run := plot_load materials beam load
                   (<[Beam.name beam := T :: Ts]> transition_points) in
      let run' := plot_load materials beam load
                    (<[Beam.name beam := T' :: Ts]> transition_points) in
      fst (fst run) = fst (fst run')
      /\ snd (fst run) = snd (fst run')
      /\ figures (snd run) = figures (snd run')).
Proof.
  intros Hkind Ha Hy0 HyL HT0 HTL HT0' HTL'.
  pose proof (tabulate_load_point_T materials beam load y_load T
                transition_points stdin Hkind Ha Hy0 HyL HT0 HTL) as Htab.
  pose proof (tabulate_load_point_T materials beam load y_load T'
                transition_points stdin Hkind Ha Hy0 HyL HT0' HTL') as Htab'.
  pose proof (plot_load_point_T materials beam load T Ts transition_points Hkind)
    as Hplot.
  pose proof (plot_load_point_T materials beam load T' Ts transition_points Hkind)
    as Hplot'.
  cbv zeta in *.
  destruct Htab as (Hr & Hs & Ht), Htab' as (Hr' & Hs' & Ht').
  destruct Hplot as (Pr & Ps & Pt & _), Hplot' as (Pr' & Ps' & Pt' & _).
  split; [apply tabulate_point_pair_material2|].
  split; [|split; [reflexivity|]]; repeat apply conj.
  - now rewrite Hr, Hr'.
  - now rewrite Hs, Hs'.
  - now rewrite Ht, Ht'.
  - now rewrite Pr, Pr'.
  - now rewrite Ps, Ps'.
  - now rewrite Pt, Pt'.
Qed.

Lemma point_load_results_depend_on_material1_alone_witness :
  agree blank_material2
        (tabulate_point_pair short_beam near_point_load 0.005 steel steel [])
        (tabulate_point_pair short_beam near_point_load 0.005 steel aluminum [])
  /\ (let run := tabulate_load [steel; aluminum] short_beam near_point_load ∅
                               [Number 0.0025] in
      let run' := tabulate_load [steel; aluminum] short_beam near_point_load ∅
                                [Number 0.0075] in
      forget (fst (fst run)) = forget (fst (fst run'))
      /\ snd (fst run) = snd (fst run')
      /\ rows (snd run) = rows (snd run'))
  /\ (forall (x_values : list Q) (s : gmap string (list Q)),
        curve_thetas x_values
                     (plot_point_theta short_beam near_point_load steel steel) s
        = curve_thetas x_values
                       (plot_point_theta short_beam near_point_load steel aluminum) s)
  /\ (let run := plot_load [steel; aluminum] short_beam near_point_load
                   (<[Beam.name short_beam := [0.0025]]> ∅) in
      let run' := plot_load [steel; aluminum] short_beam near_point_load
                    (<[Beam.name short_beam := [0.0075]]> ∅) in
      fst (fst run) = fst (fst run')
      /\ snd (fst run) = snd (fst run')
      /\ figures (snd run) = figures (snd run')).
Proof.
  apply (point_load_results_depend_on_material1_alone
           [steel; aluminum] short_beam near_point_load 0.005 0.0025 0.0075
           steel steel aluminum [] ∅ []);
    reflexivity.
Defined.

(** ** The order of the transition points *)

(** C4, at a catalog where it fails.  The beam is 0.01 m long; its first
    load is a point load at 0.012 m, its second and third are distributed.
    The tabulation passes over the point load, asks for one transition
    point for each distributed load and stores [0.0025; 0.0075] under the
    beam.  The plotting takes a transition point for the point load too: it
    plots the point load with 0.0025, the first distributed load with
    0.0075, the value tabulated for the second, and finds none left for
    the second distributed load.  [main] runs the two phases one after the
    other on the same dictionary. *)
Theorem plot_pairs_T_with_another_load :
  let library :=
    BeamLibrary.mk [steel] [short_beam]
                   [far_point_load; uniform_load; heavy_uniform_load] in
  let tabulation :=
    compute_deflections library "deflection_results.csv"
                        [Number 0.0025; Number 0.0075] in
  let stored : gmap string (list Q) := {[ "Beam1"%string := [0.0025; 0.0075] ]} in
  let plotting := plot_deflections library stored in
  fst (fst tabulation) = Ok stored
  /\ console (snd tabulation)
     = [MsgLoadedMaterials 1; MsgLoadedBeams 1; MsgLoadedLoads 3;
        MsgConfiguringBeam "Beam1";
        MsgApplyingLoad "Far Point Load" "point";
        MsgLoadOutsideBeam 0.012 0.01;
        MsgApplyingLoad "Uniform Load" "distributed";
        PromptDistributed "Beam1" 0.01;
        MsgApplyingLoad "Heavy Uniform Load" "distributed";
        PromptDistributed "Beam1" 0.01;
        MsgResultsWritten "deflection_results.csv"]
  /\ fst (fst plotting) = Ok tt
  /\ console (snd plotting)
     = [MsgPlottingBeam "Beam1";
        MsgPlottingPoint "Far Point Load" 0.0025 (Some 0.012);
        MsgPlottingDistributed "Uniform Load" 0.0075;
        MsgNoTransitionPoint "Beam1" "Heavy Uniform Load"]
  /\ map title (figures (snd plotting))
     = ["Angular Deflection Curves for Beam: Beam1 with Load: Far Point Load";
        "Angular Deflection Curves for Beam: Beam1 with Load: Uniform Load"]%string
  /\ console (snd (main library [Number 0.0025; Number 0.0075]))
     = console (snd tabulation) ++ console (snd plotting) ++ [MsgCompleted].
Proof. vm_compute. repeat split. Qed.

(** *** First in, first out when no point load is left out *)

Lemma bind_returns {S A B : Type} (m : M S A) (k : A -> M S B)
    (s s' : S) (b : B) (t : list event) :
  bind m k s = (Ok b, s', t) ->
  exists a s1 t1 t2,
    m s = (Ok a, s1, t1) /\ k a s1 = (Ok b, s', t2) /\ t = t1 ++ t2.
Proof.
  unfold bind. destruct (m s) as [[[a | e] s1] t1]; [|discriminate].
  destruct (k a s1) as [[r2 s2] t2] eqn:Hk. intros [= -> -> <-].
  exists a, s1, t1, t2. repeat split. exact Hk.
Qed.

Lemma ask_T_in_range (prompt : message) (L : Q) (on_accept : Q -> list event)
    (stdin stdin' : list response) (T : Q) (t : list event) :
  ask_T prompt L on_accept stdin = (Ok T, stdin', t) -> 0 < T /\ T < L.
Proof.
  revert t. induction stdin as [|line stdin IH]; intros t; cbn [ask_T];
    [discriminate|].
  destruct line as [|T0|].
  - destruct (ask_T prompt L on_accept stdin) as [[r s] t0].
    intros [= -> -> <-]. now apply (IH t0).
  - destruct (Qltb 0 T0 && Qltb T0 L) eqn:Hin.
    + intros [= -> -> <-]. apply andb_true_iff in Hin as [H0 HL].
      now rewrite !Qltb_lt in *.
    + destruct (ask_T prompt L on_accept stdin) as [[r s] t0].
      intros [= -> -> <-]. now apply (IH t0).
  - destruct (ask_T prompt L on_accept stdin) as [[r s] t0].
    intros [= -> -> <-]. now apply (IH t0).
Qed.

Lemma stored_for_append (beam : Beam.t) (tp : gmap string (list Q)) (T : Q) :
  stored_for beam (setdefault_append tp (Beam.name beam) T)
  = stored_for beam tp ++ [T].
Proof.
  unfold stored_for, setdefault_append. now rewrite lookup_insert_eq.
Qed.

(** A load's iteration of the tabulation, when it returns, has stored one
    transition point inside (0, L) for a distributed load and for a point
    load inside the beam, and has left the dictionary alone otherwise. *)
Lemma tabulate_load_stores (materials : list Material.t) (beam : Beam.t)
    (load : Load.t) (tp tp' : gmap string (list Q))
    (stdin stdin' : list response) (t : list event) :
  inside_if_point beam load ->
  tabulate_load materials beam load tp stdin = (Ok tp', stdin', t) ->
  if String.eqb (Load.load_type load) "distributed"
     || String.eqb (Load.load_type load) "point"
  then exists T, tp' = setdefault_append tp (Beam.name beam) T
  else tp' = tp.
Proof.
  intros Hinside. unfold tabulate_load. rewrite bind_emit.
  destruct (String.eqb (Load.load_type load) "distributed") eqn:Hd; cbn [orb].
  - destruct (bind _ _ stdin) as [[r s] t0] eqn:Hrun. intros [= -> -> <-].
    apply bind_returns in Hrun as (T & s1 & t1 & t2 & _ & Hrest & _).
    apply bind_returns in Hrest as ([] & s2 & t3 & t4 & _ & Hret & _).
    injection Hret as <- _ _. now exists T.
  - destruct (String.eqb (Load.load_type load) "point") eqn:Hp.
    + destruct (bind _ _ stdin) as [[r s] t0] eqn:Hrun. intros [= -> -> <-].
      apply bind_returns in Hrun as (y_load & s1 & t1 & t2 & Ha & Hrest & _).
      unfold lift in Ha. injection Ha as Ha _ _.
      destruct (Load.a load) as [y|] eqn:Hay; [|discriminate].
      cbn [as_float] in Ha. injection Ha as ->.
      apply String.eqb_eq in Hp.
      destruct (Hinside Hp y_load Hay) as [H0 HL].
      apply Qltb_lt in H0, HL. rewrite H0, HL in Hrest. cbn [andb negb] in Hrest.
      apply bind_returns in Hrest as (T & s2 & t3 & t4 & _ & Hrest & _).
      apply bind_returns in Hrest as ([] & s3 & t5 & t6 & _ & Hret & _).
      injection Hret as <- _ _. now exists T.
    + rewrite bind_emit. cbn [ret]. now intros [= <- _ _].
Qed.

Lemma plotted_with_app (t1 t2 : list event) :
  plotted_with (t1 ++ t2) = plotted_with t1 ++ plotted_with t2.
Proof. unfold plotted_with. apply flat_map_app. Qed.

(** A load's iteration of the plotting takes the head of the beam's list
    for a distributed and for a point load, and announces it with the
    load. *)
Lemma plot_load_takes (materials : list Material.t) (beam : Beam.t)
    (load : Load.t) (P : gmap string (list Q)) (T : Q) (R : list Q) :
  String.eqb (Load.load_type load) "distributed"
  || String.eqb (Load.load_type load) "point" = true ->
  P !! Beam.name beam = Some (T :: R) ->
  snd (fst (plot_load materials beam load P)) = <[Beam.name beam := R]> P
  /\ plotted_with (snd (plot_load materials beam load P)) = [(Load.name load, T)].
Proof.
  intros Hkind HP. unfold plot_load.
  destruct (String.eqb (Load.load_type load) "distributed");
    [|destruct (String.eqb (Load.load_type load) "point"); [|discriminate]].
  - rewrite bind_run. unfold Ts_read. rewrite HP. cbn [default from_option id app].
    rewrite bind_run. unfold Ts_pop0. rewrite HP.
    rewrite bind_emit, bind_run.
    destruct (quiet_plot_curves materials (Beam.length beam)
                (plot_distributed_theta beam load T) (<[Beam.name beam := R]> P))
      as [Hs Ht].
    destruct (plot_curves _ _ _ _) as [[[curves|e] s] t];
      cbn [fst snd] in Hs, Ht; subst s t; split; reflexivity.
  - rewrite bind_run. unfold Ts_read. rewrite HP. cbn [default from_option id app].
    rewrite bind_run. unfold Ts_pop0. rewrite HP.
    rewrite bind_emit, bind_run.
    destruct (quiet_plot_curves materials (Beam.length beam)
                (plot_point_theta beam load) (<[Beam.name beam := R]> P))
      as [Hs Ht].
    destruct (plot_curves _ _ _ _) as [[[curves|e] s] t];
      cbn [fst snd] in Hs, Ht; subst s t; split; reflexivity.
Qed.

Lemma plot_load_passes (materials : list Material.t) (beam : Beam.t)
    (load : Load.t) (P : gmap string (list Q)) :
  String.eqb (Load.load_type load) "distributed"
  || String.eqb (Load.load_type load) "point" = false ->
  plot_load materials beam load P
  = (Ok tt, P, [Print (MsgUnsupportedPlot (Load.load_type load))]).
Proof.
  intros Hkind. apply orb_false_iff in Hkind as [Hd Hp].
  unfold plot_load. now rewrite Hd, Hp.
Qed.

Lemma tabulated_with_cons (materials : list Material.t) (beam : Beam.t)
    (load : Load.t) (rest : list Load.t) (tp tp' : gmap string (list Q))
    (stdin stdin' : list response) (t : list event) :
  inside_if_point beam load ->
  tabulate_load materials beam load tp stdin = (Ok tp', stdin', t) ->
  exists Ts,
    tabulated_with materials beam (load :: rest) tp stdin
    = map (fun T => (Load.name load, T)) Ts
      ++ tabulated_with materials beam rest tp' stdin'
    /\ stored_for beam tp' = stored_for beam tp ++ Ts
    /\ (if String.eqb (Load.load_type load) "distributed"
           || String.eqb (Load.load_type load) "point"
        then exists T, Ts = [T] else Ts = []).
Proof.
  intros Hinside Hrun. cbn [tabulated_with]. rewrite Hrun.
  pose proof (tabulate_load_stores _ _ _ _ _ _ _ _ Hinside Hrun) as Hstore.
  destruct (String.eqb (Load.load_type load) "distributed"
            || String.eqb (Load.load_type load) "point").
  - destruct Hstore as (T & ->). exists [T].
    rewrite stored_for_append, skipn_app, skipn_all, Nat.sub_diag.
    repeat split. now exists T.
  - subst tp'. exists []. rewrite skipn_all, app_nil_r. repeat split.
Qed.

(** The loop of the tabulation over the loads of a beam appends to the
    beam's list the transition points of its loads, in their order. *)
Lemma tabulation_appends (materials : list Material.t) (beam : Beam.t)
    (loads : list Load.t) :
  Forall (inside_if_point beam) loads ->
  forall (tp tp1 : gmap string (list Q)) (stdin stdin1 : list response)
         (t1 : list event),
    for_acc loads (tabulate_load materials beam) tp stdin = (Ok tp1, stdin1, t1) ->
    stored_for beam tp1
    = stored_for beam tp ++ map snd (tabulated_with materials beam loads tp stdin).
Proof.
  induction 1 as [|load rest Hinside Hrest IH]; intros tp tp1 stdin stdin1 t1 Htab.
  - cbn [for_acc ret tabulated_with map] in *. injection Htab as <- _ _.
    now rewrite app_nil_r.
  - cbn [for_acc] in Htab.
    apply bind_returns in Htab as (tp' & stdin' & ta & tb & Hload & Htab & _).
    destruct (tabulated_with_cons materials beam load rest tp tp' stdin stdin' ta
                Hinside Hload) as (Ts & -> & Hstored & _).
    rewrite (IH _ _ _ _ _ Htab), Hstored, List.map_app, List.map_map.
    cbn [snd]. now rewrite List.map_id, <- app_assoc.
Qed.

(** The loop of the plotting over the same loads, started on a list that
    begins with the transition points of the tabulation, announces each of
    them with the load it was stored for and leaves the rest of the list. *)
Lemma plotting_takes_in_order (materials : list Material.t) (beam : Beam.t)
    (loads : list Load.t) :
  Forall (inside_if_point beam) loads ->
  forall (tp tp1 : gmap string (list Q)) (stdin stdin1 : list response)
         (t1 : list event) (P P' : gmap string (list Q)) (t2 : list event)
         (R : list Q),
    for_acc loads (tabulate_load materials beam) tp stdin = (Ok tp1, stdin1, t1) ->
    stored_for beam P
    = map snd (tabulated_with materials beam loads tp stdin) ++ R ->
    for_each loads (plot_load materials beam) P = (Ok tt, P', t2) ->
    plotted_with t2 = tabulated_with materials beam loads tp stdin
    /\ stored_for beam P' = R.
Proof.
  induction 1 as [|load rest Hinside Hrest IH];
    intros tp tp1 stdin stdin1 t1 P P' t2 R Htab HP Hplot.
  - cbn [for_acc for_each ret tabulated_with map app] in *.
    injection Hplot as <- <-. split; [reflexivity | exact HP].
  - cbn [for_acc for_each] in Htab, Hplot.
    apply bind_returns in Htab as (tp' & stdin' & ta & tb & Hload & Htab & _).
    apply bind_returns in Hplot as ([] & P1 & pa & pb & Hpl & Hplot & ->).
    destruct (tabulated_with_cons materials beam load rest tp tp' stdin stdin' ta
                Hinside Hload) as (Ts & Heq & _ & Hkind).
    rewrite Heq in *. rewrite plotted_with_app.
    destruct (String.eqb (Load.load_type load) "distributed"
              || String.eqb (Load.load_type load) "point") eqn:Htakes.
    + destruct Hkind as (T & ->). cbn [map app snd] in HP.
      assert (HPT : P !! Beam.name beam
                    = Some (T :: map snd (tabulated_with materials beam rest tp' stdin')
                              ++ R)).
      { unfold stored_for in HP. destruct (P !! Beam.name beam) as [l|];
          cbn in HP; [now subst l | discriminate]. }
      destruct (plot_load_takes materials beam load P T _ Htakes HPT) as [Hs Hp].
      rewrite Hpl in Hs, Hp. cbn [fst snd] in Hs, Hp. subst P1.
      assert (HP1 : stored_for beam
                      (<[Beam.name beam :=
                           map snd (tabulated_with materials beam rest tp' stdin')
                           ++ R]> P)
                    = map snd (tabulated_with materials beam rest tp' stdin') ++ R).
      { unfold stored_for. now rewrite lookup_insert_eq. }
      destruct (IH _ _ _ _ _ _ _ _ _ Htab HP1 Hplot) as (H2 & H3).
      rewrite Hp, H2. split; [reflexivity | exact H3].
    + subst Ts. rewrite plot_load_passes in Hpl by assumption.
      injection Hpl as <- <-. cbn [map app] in *.
      destruct (IH _ _ _ _ _ _ _ _ _ Htab HP Hplot) as (H2 & H3).
      rewrite H2. split; [reflexivity | exact H3].
Qed.

(** The part of C4 that holds.  For a beam whose name has no list yet and
    whose point loads all lie strictly inside it: when the loop of the
    tabulation over its loads returns, and the loop of the plotting over the
    same loads, run on the dictionary the tabulation returned, returns too,
    the plotting announces for every load the transition point that the
    tabulation stored for that load, in the same order, and uses up the
    beam's list.  Loads of an unknown kind are passed over by both. *)
Theorem transition_points_first_in_first_out
    (materials : list Material.t) (beam : Beam.t) (loads : list Load.t)
    (tp tp1 : gmap string (list Q)) (stdin : list response) :
  Forall (inside_if_point beam) loads ->
  tp !! Beam.name beam = None ->
  let tabulation := for_acc loads (tabulate_load materials beam) tp stdin in
  let plotting := for_each loads (plot_load materials beam) tp1 in
  fst (fst tabulation) = Ok tp1 ->
  fst (fst plotting) = Ok tt ->
  plotted_with (snd plotting) = tabulated_with materials beam loads tp stdin
  /\ stored_for beam tp1
     = map snd (tabulated_with materials beam loads tp stdin)
  /\ stored_for beam (snd (fst plotting)) = [].
Proof.
  intros Hinside Hfresh tabulation plotting Htab Hplot.
  subst tabulation plotting.
  destruct (for_acc loads _ tp stdin) as [[r1 stdin1] t1] eqn:E1.
  destruct (for_each loads _ tp1) as [[r2 P'] t2] eqn:E2.
  cbn [fst snd] in *. subst r1 r2.
  pose proof (tabulation_appends materials beam loads Hinside _ _ _ _ _ E1) as Hst.
  unfold stored_for at 2 in Hst. rewrite Hfresh in Hst. cbn in Hst.
  destruct (plotting_takes_in_order materials beam loads Hinside
              _ _ _ _ _ tp1 P' t2 [] E1) as (H2 & H3);
    [now rewrite app_nil_r | exact E2 |].
  repeat split; assumption.
Qed.

Lemma transition_points_first_in_first_out_witness :
  let loads := [uniform_load; Load.mk "Wind" "gust" None None None;
                near_point_load] in
  let stored : gmap string (list Q) := {[ "Beam1"%string := [0.0025; 0.0075] ]} in
  let plotting := for_each loads (plot_load [steel] short_beam) stored in
  plotted_with (snd plotting)
  = tabulated_with [steel] short_beam loads ∅ [Number 0.0025; Number 0.0075]
  /\ stored_for short_beam stored
     = map snd (tabulated_with [steel] short_beam loads ∅
                               [Number 0.0025; Number 0.0075])
  /\ stored_for short_beam (snd (fst plotting)) = [].
Proof.
  apply (transition_points_first_in_first_out [steel] short_beam
           [uniform_load; Load.mk "Wind" "gust" None None None; near_point_load]
           ∅ {[ "Beam1"%string := [0.0025; 0.0075] ]}
           [Number 0.0025; Number 0.0075]).
  - constructor; [intros Hkind; discriminate Hkind|].
    constructor; [intros Hkind; discriminate Hkind|].
    constructor; [|constructor].
    intros _ y_load Hy. injection Hy as <-. split; reflexivity.
  - reflexivity.
  - vm_compute. reflexivity.
  - vm_compute. reflexivity.
Defined.

Example tabulated_with_example :
  tabulated_with [steel] short_beam
                 [uniform_load; Load.mk "Wind" "gust" None None None;
                  near_point_load]
                 ∅ [Number 0.0025; Number 0.0075]
  = [("Uniform Load", 0.0025); ("Point Load 1", 0.0075)]%string.
Proof. vm_compute. reflexivity. Qed.

(** ** The grid and the size of a sweep *)

Lemma product2_length {A : Type} (l : list A) :
  List.length (product2 l) = (List.length l * List.length l)%nat.
Proof.
  unfold product2.
  assert (H : forall l1 : list A,
    List.length (flat_map (fun x => map (fun y => (x, y)) l) l1)
    = (List.length l1 * List.length l)%nat).
  { induction l1 as [|a l1 IH]; [reflexivity|].
    cbn [flat_map]. rewrite length_app, length_map, IH. reflexivity. }
  apply H.
Qed.

Lemma in_product2 {A : Type} (l : list A) (x y : A) :
  In (x, y) (product2 l) <-> In x l /\ In y l.
Proof.
  unfold product2. rewrite in_flat_map. split.
  - intros (x' & Hx & Hy). apply in_map_iff in Hy as (y' & [= <- <-] & Hy).
    split; assumption.
  - intros [Hx Hy]. exists x. split; [assumption|].
    apply in_map_iff. exists y. split; [reflexivity | assumption].
Qed.

Lemma Qceiling_unique (q : Q) (z : Z) :
  inject_Z z - 1 < q -> q <= inject_Z z -> Qceiling q = z.
Proof.
  intros Hlo Hhi.
  pose proof (Qle_ceiling q) as Hc1. pose proof (Qceiling_lt q) as Hc2.
  assert (H1 : inject_Z (Qceiling q - 1) < inject_Z z) by lra.
  assert (H2 : inject_Z (z - 1) < inject_Z (Qceiling q)).
  { unfold Z.sub. rewrite inject_Z_plus.
    change (inject_Z (Z.opp 1)) with (-1 # 1). lra. }
  rewrite <- Zlt_Qlt in H1, H2. lia.
Qed.

Lemma Qceiling_succ (q : Q) : Qceiling (q + 1) = (Qceiling q + 1)%Z.
Proof.
  apply Qceiling_unique.
  - rewrite inject_Z_plus. pose proof (Qceiling_lt q) as H.
    unfold Z.sub in H. rewrite inject_Z_plus in H.
    change (inject_Z (Z.opp 1)) with (-1 # 1) in H.
    change (inject_Z 1) with (1 # 1). lra.
  - rewrite inject_Z_plus. pose proof (Qle_ceiling q).
    change (inject_Z 1) with (1 # 1). lra.
Qed.

Lemma step_nonzero : ~ step == 0.
Proof. discriminate. Qed.

Lemma step_positive : 0 < step.
Proof. reflexivity. Qed.

(** The positions of the grid of a beam of length [L]. *)
Lemma in_grid (L x : Q) :
  In x (np_arange 0 (L + step) step)
  <-> exists i : Z, (0 <= i < Qceiling (L / step) + 1)%Z
                    /\ x = 0 + inject_Z i * step.
Proof.
  unfold np_arange. rewrite in_map_iff.
  assert (Hc : Qceiling ((L + step - 0) / step) = (Qceiling (L / step) + 1)%Z).
  { rewrite <- Qceiling_succ. apply Qceiling_comp. field. apply step_nonzero. }
  rewrite Hc. split.
  - intros (i & <- & Hi). apply in_seq in Hi. exists (Z.of_nat i). split; [lia | reflexivity].
  - intros (i & Hi & ->). exists (Z.to_nat i). split.
    + now rewrite Z2Nat.id by lia.
    + apply in_seq. lia.
Qed.

(** The grid of a beam contains the end of the beam exactly when the length
    is a whole number of steps. *)
Lemma grid_includes_L_iff_multiple (L : Q) :
  0 <= L ->
  (exists x, In x (np_arange 0 (L + step) step) /\ x == L)
  <-> (exists k : Z, L == inject_Z k * step).
Proof.
  intros HL. split.
  - intros (x & Hin & Hx). apply in_grid in Hin as (i & _ & ->).
    exists i. rewrite <- Hx. ring.
  - intros (k & Hk).
    assert (Hq : L / step == inject_Z k).
    { rewrite Hk. field. apply step_nonzero. }
    assert (Hk0 : (0 <= k)%Z).
    { rewrite Zle_Qle. change (inject_Z 0) with 0. rewrite <- Hq.
      apply Qle_shift_div_l; [apply step_positive | lra]. }
    exists (0 + inject_Z k * step). split; [|rewrite Hk; ring].
    apply in_grid. exists k. split; [|reflexivity].
    rewrite (Qceiling_comp _ _ Hq), Qceiling_Z. lia.
Qed.

(** When the length is not a whole number of steps, the grid has a position
    beyond the end of the beam. *)
Lemma grid_passes_L_unless_multiple (L : Q) :
  0 <= L ->
  (forall k : Z, ~ L == inject_Z k * step) ->
  exists x, In x (np_arange 0 (L + step) step) /\ L < x.
Proof.
  intros HL Hno. set (k := Qceiling (L / step)).
  assert (Hq : 0 <= L / step).
  { apply Qle_shift_div_l; [apply step_positive | lra]. }
  assert (Hk : L <= inject_Z k * step).
  { assert (HLs : L == L / step * step) by (field; apply step_nonzero).
    rewrite HLs at 1. apply Qmult_le_compat_r; [apply Qle_ceiling | discriminate]. }
  exists (0 + inject_Z k * step). split.
  - apply in_grid. exists k. split; [|reflexivity]. fold k.
    pose proof (Qceiling_resp_le _ _ Hq) as H0. fold k in H0.
    change (Qceiling 0) with 0%Z in H0. lia.
  - specialize (Hno k). apply Qle_lteq in Hk as [Hlt | Heq]; [lra | contradiction].
Qed.

Lemma grid_length (L : Q) :
  List.length (np_arange 0 (L + step) step)
  = Z.to_nat (Qceiling (L / step) + 1).
Proof.
  unfold np_arange. rewrite length_map, length_seq.
  f_equal. rewrite <- Qceiling_succ. apply Qceiling_comp.
  field. apply step_nonzero.
Qed.

(** A loop whose every iteration returns, leaves the state alone and writes
    [c] rows writes [c] rows for each element. *)
Lemma for_each_row_count {S A : Type} (l : list A) (body : A -> M S unit)
    (c : nat) :
  (forall a s, In a l ->
     fst (fst (body a s)) = Ok tt /\ snd (fst (body a s)) = s
     /\ List.length (rows (snd (body a s))) = c) ->
  forall s,
    fst (fst (for_each l body s)) = Ok tt
    /\ snd (fst (for_each l body s)) = s
    /\ List.length (rows (snd (for_each l body s))) = (List.length l * c)%nat.
Proof.
  induction l as [|a l IH]; intros Hbody s; cbn [for_each].
  - repeat split.
  - unfold bind. destruct (Hbody a s (or_introl eq_refl)) as (Hr & Hs & Hc).
    destruct (body a s) as [[r s1] t1]. cbn [fst snd] in Hr, Hs, Hc. subst r s1.
    destruct (IH (fun a' s' H => Hbody a' s' (or_intror H)) s) as (Hr & Hs & Hc').
    destruct (for_each l body s) as [[r2 s2] t2]. cbn [fst snd] in *.
    repeat split; try assumption.
    rewrite rows_app, length_app, Hc, Hc'. reflexivity.
Qed.

Lemma distributed_y_theta_returns x E1 E2 I L T w :
  ~ E1 == 0 -> ~ E2 == 0 -> ~ I == 0 ->
  exists y theta, distributed_y_theta x E1 E2 I L T w = Ok (y, theta).
Proof.
  intros H1 H2 HI. unfold distributed_y_theta.
  destruct (Qltb x T).
  - destruct (computes_value _ _ _ (y1_computes x E1 I L w)) as (y & -> & _);
      [nonzero|].
    destruct (computes_value _ _ _ (theta1_computes x E1 I L w)) as (th & -> & _);
      [nonzero|].
    now exists y, th.
  - destruct (computes_value _ _ _ (y2_computes x E1 E2 I L T w)) as (y & -> & _);
      [nonzero|].
    destruct (computes_value _ _ _ (theta2_computes x E1 E2 I L T w))
      as (th & -> & _); [nonzero|].
    now exists y, th.
Qed.

(** For a distributed load with a numeric intensity, materials with
    nonzero moduli and a beam with a nonzero second moment, the sweep
    returns without reading input and writes one block of rows for each of
    the n^2 ordered pairs of materials, one row for each position of the
    grid [np.arange(0, L + step, step)]: n^2 times the length of the grid,
    whatever that length is. *)
Theorem distributed_sweep_row_count
    (materials : list Material.t) (beam : Beam.t) (load : Load.t) (T w : Q)
    (stdin : list response) :
  Load.w load = Some w ->
  Forall (fun material => ~ Material.E material == 0) materials ->
  ~ Beam.moment_of_inertia beam == 0 ->
  let run := tabulate_distributed materials beam load T stdin in
  let x_values := np_arange 0 (Beam.length beam + step) step in
  fst (fst run) = Ok tt
  /\ snd (fst run) = stdin
  /\ List.length (product2 materials) = (List.length materials ^ 2)%nat
  /\ List.length (rows (snd run))
     = (List.length materials ^ 2 * List.length x_values)%nat.
Proof.
  intros Hw HE HI run x_values. subst run x_values.
  rewrite List.Forall_forall in HE.
  assert (Hsq : List.length (product2 materials) = (List.length materials ^ 2)%nat).
  { rewrite product2_length. cbn [Nat.pow]. lia. }
  unfold tabulate_distributed.
  destruct (for_each_row_count (product2 materials)
              (fun '(material1, material2) =>
                 tabulate_distributed_pair beam load T material1 material2)
              (List.length (np_arange 0 (Beam.length beam + step) step)))
    with (s := stdin) as (Hr & Hs & Hc).
  - intros [material1 material2] s Hin. apply in_product2 in Hin as [Hin1 Hin2].
    unfold tabulate_distributed_pair.
    rewrite <- (Nat.mul_1_r (List.length (np_arange 0 (Beam.length beam + step) step))).
    apply for_each_row_count. intros x s' _.
    rewrite Hw. cbn [as_float]. rewrite bind_lift_ok.
    destruct (distributed_y_theta_returns x (Material.E material1)
                (Material.E material2) (Beam.moment_of_inertia beam)
                (Beam.length beam) T w) as (y & theta & ->);
      [exact (HE _ Hin1) | exact (HE _ Hin2) | assumption |].
    rewrite bind_lift_ok. repeat split.
  - repeat split; try assumption. now rewrite Hc, Hsq.
Qed.

Lemma distributed_sweep_row_count_witness :
  let run := tabulate_distributed [steel; aluminum] odd_beam uniform_load 0.005 [] in
  let x_values := np_arange 0 (Beam.length odd_beam + step) step in
  fst (fst run) = Ok tt
  /\ snd (fst run) = []
  /\ List.length (product2 [steel; aluminum]) = (2 ^ 2)%nat
  /\ List.length (rows (snd run)) = (2 ^ 2 * List.length x_values)%nat.
Proof.
  apply (distributed_sweep_row_count [steel; aluminum] odd_beam uniform_load
                                     0.005 1000 []).
  - reflexivity.
  - repeat constructor; discriminate.
  - discriminate.
Defined.

Lemma grid_includes_L_iff_multiple_witness :
  (exists x, In x (np_arange 0 (0.01 + step) step) /\ x == 0.01)
  <-> (exists k : Z, 0.01 == inject_Z k * step).
Proof.
  apply (grid_includes_L_iff_multiple 0.01). discriminate.
Defined.

Lemma grid_passes_L_unless_multiple_witness :
  exists x, In x (np_arange 0 (0.011 + step) step) /\ 0.011 < x.
Proof.
  apply (grid_passes_L_unless_multiple 0.011).
  - discriminate.
  - intros k H. unfold Qeq in H. cbn in H. lia.
Defined.

(** C5, at a beam where it fails.  For a beam 0.011 m long and two
    materials the sweep of a distributed load writes 4 blocks of 6 rows,
    that is n^2 blocks of ceil(L/0.0025)+1 rows; the positions of a block
    are the multiples of the step from 0 to 0.0125: the last one lies
    beyond the end of the beam, and no row is at [x = L]. *)
Theorem grid_runs_past_the_end_of_the_beam :
  let L := Beam.length odd_beam in
  let run := tabulate_distributed [steel; aluminum] odd_beam uniform_load 0.005 [] in
  let xs := flat_map x_column (rows (snd run)) in
  L = 0.011
  /\ Qceiling (L / 0.0025) = 5%Z
  /\ fst (fst run) = Ok tt
  /\ List.length (rows (snd run)) = (2 * 2 * 6)%nat
  /\ firstn 6 xs = [0.0000; 0.0025; 0.0050; 0.0075; 0.0100; 0.0125]
  /\ xs = firstn 6 xs ++ firstn 6 xs ++ firstn 6 xs ++ firstn 6 xs
  /\ existsb (Qeq_bool L) xs = false
  /\ existsb (fun x => Qltb L x) xs = true.
Proof. vm_compute. repeat split. Qed.

(** ** The transition-point prompt *)

Lemma ask_T_rejects (prompt : message) (L : Q) (on_accept : Q -> list event)
    (line : response) (stdin : list response) :
  rejected L line ->
  exists diagnostic,
    ask_T prompt L on_accept (line :: stdin)
    = let '(r, s, t) := ask_T prompt L on_accept stdin in
      (r, s, Input prompt :: Print diagnostic :: t).
Proof.
  intros Hrej. destruct line as [|T|]; cbn [ask_T].
  - now exists MsgInvalidInput.
  - exists (MsgTOutOfRange L).
    assert (Hout : Qltb 0 T && Qltb T L = false).
    { rewrite andb_false_iff, !Qltb_ge. exact Hrej. }
    now rewrite Hout.
  - now exists (MsgTOutOfRange L).
Qed.

(** The prompt of section 4.3.  Lines that are not numbers, and numbers
    outside (0, L), are turned down one by one, each with a new prompt; the
    first number inside (0, L) is returned and the lines after it are left
    unread.  When every line is turned down the prompt ends in [EOFError]
    on the exhausted input. *)
Theorem ask_T_returns_first_valid (prompt : message) (L T : Q)
    (on_accept : Q -> list event) (turned_down stdin : list response) :
  Forall (rejected L) turned_down ->
  0 < T -> T < L ->
  prompts (on_accept T) = [] ->
  let run := ask_T prompt L on_accept (turned_down ++ Number T :: stdin) in
  let eof := ask_T prompt L on_accept turned_down in
  fst (fst run) = Ok T
  /\ snd (fst run) = stdin
  /\ List.length (prompts (snd run)) = S (List.length turned_down)
  /\ fst (fst eof) = Raise EOFError
  /\ List.length (prompts (snd eof)) = S (List.length turned_down).
Proof.
  intros Hrej HT0 HTL Hquiet. cbv zeta.
  induction Hrej as [|line lines Hline Hlines IH]; cbn [app].
  - rewrite ask_T_accepts by assumption.
    cbn [fst snd prompts flat_map app]. fold (prompts (on_accept T)).
    rewrite Hquiet. repeat split.
  - destruct (ask_T_rejects prompt L on_accept line (lines ++ Number T :: stdin) Hline)
      as (d & ->).
    destruct (ask_T_rejects prompt L on_accept line lines Hline) as (d' & ->).
    destruct IH as (Hr & Hs & Hp & He & Hpe).
    destruct (ask_T prompt L on_accept (lines ++ Number T :: stdin)) as [[r s] t].
    destruct (ask_T prompt L on_accept lines) as [[r' s'] t'].
    cbn [fst snd prompts flat_map app List.length] in *.
    repeat split; congruence.
Qed.

Lemma ask_T_returns_first_valid_witness :
  let run := ask_T (PromptDistributed "Beam1" 10) 10 (fun _ => [])
                   ([NotANumber; Number 12; Number 0] ++ Number 5 :: [Number 7]) in
  let eof := ask_T (PromptDistributed "Beam1" 10) 10 (fun _ => [])
                   [NotANumber; Number 12; Number 0] in
  fst (fst run) = Ok 5
  /\ snd (fst run) = [Number 7]
  /\ List.length (prompts (snd run)) = 4%nat
  /\ fst (fst eof) = Raise EOFError
  /\ List.length (prompts (snd eof)) = 4%nat.
Proof.
  apply (ask_T_returns_first_valid (PromptDistributed "Beam1" 10) 10 5
           (fun _ => []) [NotANumber; Number 12; Number 0] [Number 7]).
  - constructor; [exact I|].
    constructor; [right; discriminate|].
    constructor; [left; discriminate | constructor].
  - reflexivity.
  - reflexivity.
  - reflexivity.
Defined.

(** ** Point loads in the plotting phase *)

(** The plotting phase has no test on the position of a point load: for
    every point load, inside the beam or not, a transition point at the
    head of the beam's list is taken off the list and announced with the
    load. *)
Theorem plot_takes_T_for_every_point_load
    (materials : list Material.t) (beam : Beam.t) (load : Load.t)
    (T : Q) (Ts : list Q) (transition_points : gmap string (list Q)) :
  Load.load_type load = "point"%string ->
  let run := plot_load materials beam load
               (<[Beam.name beam := T :: Ts]> transition_points) in
  snd (fst run) = <[Beam.name beam := Ts]> transition_points
  /\ console (snd run) = [MsgPlottingPoint (Load.name load) T (Load.a load)].
Proof.
  intros Hkind.
  destruct (plot_load_point_T materials beam load T Ts transition_points Hkind)
    as (_ & Hs & _ & Hc).
  split; assumption.
Qed.

Lemma plot_takes_T_for_every_point_load_witness :
  let run := plot_load [steel] short_beam far_point_load
               (<[Beam.name short_beam := [0.0025; 0.0075]]> ∅) in
  snd (fst run) = <[Beam.name short_beam := [0.0075]]> ∅
  /\ console (snd run)
     = [MsgPlottingPoint (Load.name far_point_load) 0.0025
                         (Load.a far_point_load)].
Proof.
  apply (plot_takes_T_for_every_point_load [steel] short_beam far_point_load
           0.0025 [0.0075] ∅).
  reflexivity.
Defined.

(** ** What the plotting takes from the dictionary *)

Lemma taken_for_app (key : string) (current : option string)
    (t1 t2 : list event) :
  taken_for key current (t1 ++ t2)
  = taken_for key current t1 ++ taken_for key (last_beam current t1) t2.
Proof.
  revert current. induction t1 as [|e t1 IH]; intros current; [reflexivity|].
  destruct e as [m | | | |]; cbn [app taken_for last_beam]; try apply IH.
  destruct m; cbn [taken_for last_beam]; try apply IH;
    now rewrite IH, app_assoc.
Qed.

Lemma last_beam_app (current : option string) (t1 t2 : list event) :
  last_beam current (t1 ++ t2) = last_beam (last_beam current t1) t2.
Proof.
  revert current. induction t1 as [|e t1 IH]; intros current; [reflexivity|].
  destruct e as [m | | | |]; cbn [app last_beam]; try apply IH.
  destruct m; cbn [last_beam]; apply IH.
Qed.

Lemma taken_from_refl (key : string) (current : option string)
    (P : gmap string (list Q)) (t : list event) :
  taken_for key current t = [] -> taken_from key current P P t.
Proof.
  intros Ht. unfold taken_from. rewrite Ht.
  destruct (P !! key); constructor. reflexivity.
Qed.

Lemma taken_from_trans (key : string) (current : option string)
    (P1 P2 P3 : gmap string (list Q)) (t1 t2 : list event) :
  taken_from key current P1 P2 t1 ->
  taken_from key (last_beam current t1) P2 P3 t2 ->
  taken_from key current P1 P3 (t1 ++ t2).
Proof.
  unfold taken_from. rewrite taken_for_app. intros H12 H23.
  destruct H12 as [l2 l1 H12|]; inversion H23 as [l3 l2' H23' E3 E2|];
    subst; constructor.
  now rewrite <- app_assoc.
Qed.

(** A popped transition point is announced, and an announced one was
    popped: one iteration of the plotting over a load takes from the list
    of its beam the transition point it announces, if it announces one,
    and touches no other key; it announces no beam. *)
Lemma plot_load_taken (materials : list Material.t) (beam : Beam.t)
    (load : Load.t) (key : string) (P : gmap string (list Q)) :
  let run := plot_load materials beam load P in
  taken_from key (Some (Beam.name beam)) P (snd (fst run)) (snd run)
  /\ forall current, last_beam current (snd run) = current.
Proof.
  cbv zeta.
  assert (Hpop : forall (T : Q) (R : list Q) (m : message) (rest : list event),
    P !! Beam.name beam = Some (T :: R) ->
    (exists name, m = MsgPlottingDistributed name T)
    \/ (exists name a, m = MsgPlottingPoint name T a) ->
    (rest = [] \/ exists f, rest = [Show f]) ->
    taken_from key (Some (Beam.name beam)) P (<[Beam.name beam := R]> P)
               (Print m :: rest)
    /\ forall current, last_beam current (Print m :: rest) = current).
  { intros T R m rest HP Hm Hrest.
    assert (Htaken : taken_for key (Some (Beam.name beam)) (Print m :: rest)
                     = if decide (Some (Beam.name beam) = Some key)
                       then [T] else []).
    { destruct Hm as [(name & ->) | (name & a & ->)];
        destruct Hrest as [-> | (f & ->)]; cbn [taken_for];
        now rewrite app_nil_r. }
    split.
    - unfold taken_from. rewrite Htaken.
      destruct (decide (Some (Beam.name beam) = Some key)) as [[= <-] | Hne].
      + rewrite lookup_insert_eq, HP. constructor. reflexivity.
      + rewrite lookup_insert_ne by congruence.
        destruct (P !! key); constructor. reflexivity.
    - intros current.
      destruct Hm as [(name & ->) | (name & a & ->)];
        destruct Hrest as [-> | (f & ->)]; reflexivity. }
  unfold plot_load.
  destruct (String.eqb (Load.load_type load) "distributed");
    [|destruct (String.eqb (Load.load_type load) "point")].
  - rewrite bind_run. unfold Ts_read.
    destruct (P !! Beam.name beam) as [[|T R]|] eqn:HP;
      cbn [default from_option id app];
      try (split; [now apply taken_from_refl | reflexivity]).
    rewrite bind_run. unfold Ts_pop0. rewrite HP.
    rewrite bind_emit, bind_run.
    destruct (quiet_plot_curves materials (Beam.length beam)
                (plot_distributed_theta beam load T)
                (<[Beam.name beam := R]> P)) as [Hs Ht].
    destruct (plot_curves _ _ _ _) as [[[curves|e] s] t];
      cbn [fst snd] in Hs, Ht; subst s t; cbn [emit fst snd app];
      apply (Hpop T R); eauto.
  - rewrite bind_run. unfold Ts_read.
    destruct (P !! Beam.name beam) as [[|T R]|] eqn:HP;
      cbn [default from_option id app];
      try (split; [now apply taken_from_refl | reflexivity]).
    rewrite bind_run. unfold Ts_pop0. rewrite HP.
    rewrite bind_emit, bind_run.
    destruct (quiet_plot_curves materials (Beam.length beam)
                (plot_point_theta beam load)
                (<[Beam.name beam := R]> P)) as [Hs Ht].
    destruct (plot_curves _ _ _ _) as [[[curves|e] s] t];
      cbn [fst snd] in Hs, Ht; subst s t; cbn [emit fst snd app];
      apply (Hpop T R); eauto.
  - split; [now apply taken_from_refl | reflexivity].
Qed.

Lemma plot_loads_taken (materials : list Material.t) (beam : Beam.t)
    (key : string) (loads : list Load.t) (P : gmap string (list Q)) :
  let run := for_each loads (plot_load materials beam) P in
  taken_from key (Some (Beam.name beam)) P (snd (fst run)) (snd run)
  /\ forall current, last_beam current (snd run) = current.
Proof.
  cbv zeta. revert P. induction loads as [|load loads IH]; intros P.
  - split; [now apply taken_from_refl | reflexivity].
  - cbn [for_each]. unfold bind.
    destruct (plot_load_taken materials beam load key P) as [H1 L1].
    destruct (plot_load materials beam load P) as [[[[]|e] P1] t1];
      cbn [fst snd] in *; [|now split].
    destruct (IH P1) as [H2 L2].
    destruct (for_each loads (plot_load materials beam) P1) as [[r2 P2] t2].
    cbn [fst snd] in *. split.
    + apply (taken_from_trans _ _ _ P1); [assumption | now rewrite L1].
    + intros current. now rewrite last_beam_app, L1, L2.
Qed.

Lemma plot_beams_taken (materials : list Material.t) (loads : list Load.t)
    (key : string) (beams : list Beam.t) (current : option string)
    (P : gmap string (list Q)) :
  let run :=
    for_each beams (fun beam =>
      bind (emit (Print (MsgPlottingBeam (Beam.name beam))))
           (fun _ => for_each loads (plot_load materials beam))) P in
  taken_from key current P (snd (fst run)) (snd run).
Proof.
  cbv zeta. revert current P. induction beams as [|beam beams IH];
    intros current P.
  - now apply taken_from_refl.
  - cbn [for_each]. rewrite bind_run, bind_emit.
    destruct (plot_loads_taken materials beam key loads P) as [H1 L1].
    destruct (for_each loads (plot_load materials beam) P) as [[[[]|e] P1] t1];
      cbn [fst snd] in *; [|exact H1].
    specialize (IH (last_beam current
                      (Print (MsgPlottingBeam (Beam.name beam)) :: t1)) P1).
    destruct (for_each beams _ P1) as [[r2 P2] t2]. cbn [fst snd] in *.
    apply (taken_from_trans _ _ _ P1 _
             (Print (MsgPlottingBeam (Beam.name beam)) :: t1));
      [exact H1 | exact IH].
Qed.

(** C9, as the code has it.  Whatever the catalog and the dictionary, and
    whether the plotting returns or raises: under every key, the list the
    dictionary held is made of the transition points the plotting
    announced for the loads it plotted on beams of that name, in that
    order, followed by the list the dictionary holds afterwards, and a key
    that was absent is still absent.  So the plotting pops one transition
    point from the front of a beam's list for each distributed or point
    load it plots and does nothing else to the dictionary: the dictionary
    it leaves has the keys it was given, each with a suffix of its former
    list. *)
Theorem plot_deflections_only_consumes
    (library : BeamLibrary.t) (transition_points : gmap string (list Q)) :
  let run := plot_deflections library transition_points in
  (forall key : string,
      taken_from key None transition_points (snd (fst run)) (snd run))
  /\ consumed_from transition_points (snd (fst run)).
Proof.
  cbv zeta.
  assert (Htaken : forall key : string,
    taken_from key None transition_points
      (snd (fst (plot_deflections library transition_points)))
      (snd (plot_deflections library transition_points))).
  { intros key. unfold plot_deflections.
    destruct (BeamLibrary.get_beams library) as [|beam beams];
      [now apply taken_from_refl|].
    destruct (BeamLibrary.get_loads library) as [|load loads];
      [now apply taken_from_refl|].
    destruct (BeamLibrary.get_materials library) as [|material materials];
      [now apply taken_from_refl|].
    apply plot_beams_taken. }
  split; [exact Htaken|].
  intros key. specialize (Htaken key). unfold taken_from in Htaken.
  destruct Htaken as [l' l ->|]; constructor.
  apply suffix_app_r. reflexivity.
Qed.

(** C9 as stated fails: plotting one distributed load of a beam whose list
    holds one transition point leaves the list empty. *)
Lemma plot_deflections_empties_the_list :
  let library := BeamLibrary.mk [steel] [short_beam] [uniform_load] in
  let transition_points : gmap string (list Q) := {[ "Beam1"%string := [0.005] ]} in
  transition_points !! "Beam1"%string = Some [0.005]
  /\ snd (fst (plot_deflections library transition_points)) !! "Beam1"%string
     = Some [].
Proof. vm_compute. split; reflexivity. Qed.

(** The counterexample, read with the theorem: the transition point the
    list lost is the one the plotting announced for the load. *)
Example plot_deflections_takes_what_it_announces :
  let library := BeamLibrary.mk [steel] [short_beam] [uniform_load] in
  let transition_points : gmap string (list Q) :=
    {[ "Beam1"%string := [0.005; 0.0075] ]} in
  let run := plot_deflections library transition_points in
  taken_for "Beam1" None (snd run) = [0.005]
  /\ snd (fst run) !! "Beam1"%string = Some [0.0075]
  /\ plotted_with (snd run) = [("Uniform Load"%string, 0.005)]
  /\ List.length (figures (snd run)) = 1%nat.
Proof. vm_compute. repeat split. Qed.

(* ================================================================== *)
(** * Further properties of the kernel, the phases and the catalog *)
(* ================================================================== *)

(** ** The clamped end and the signs of the results *)

Lemma Qsquare_nonneg (a : Q) : 0 <= a * a.
Proof. nra. Qed.

Lemma quartic_factor_positive (x L : Q) :
  0 < x -> 0 < (x - 2 * L) ^ 2 + 2 * L ^ 2.
Proof.
  intros Hx.
  assert (H : (x - 2 * L) ^ 2 + 2 * L ^ 2
              == (1 # 3) * (x * x) + (2 # 3) * ((x - 3 * L) * (x - 3 * L))) by ring.
  rewrite H. pose proof (Qsquare_nonneg (x - 3 * L)).
  assert (0 < x * x) by nra. lra.
Qed.

Lemma cubic_factor_positive (x L : Q) :
  0 < x -> 0 < (2 * x - 3 * L) ^ 2 + 3 * L ^ 2.
Proof.
  intros Hx.
  assert (H : (2 * x - 3 * L) ^ 2 + 3 * L ^ 2
              == x * x + 3 * ((x - 2 * L) * (x - 2 * L))) by ring.
  rewrite H. pose proof (Qsquare_nonneg (x - 2 * L)).
  assert (0 < x * x) by nra. lra.
Qed.

Lemma Qdiv_positive (n d : Q) : 0 < n -> 0 < d -> 0 < n / d.
Proof.
  intros Hn Hd. apply Qlt_shift_div_l; [assumption | now rewrite Qmult_0_l].
Qed.

(** The first arm of the distributed-load formulas, factored. *)
Lemma first_arm_factored x E1 I L w :
  ~ E1 == 0 -> ~ I == 0 ->
  Spec.y1 x E1 I L w
  == - (w * (x * x) * ((x - 2 * L) ^ 2 + 2 * L ^ 2) / (24 * E1 * I))
  /\ Spec.theta1 x E1 I L w
     == - (w * x * ((2 * x - 3 * L) ^ 2 + 3 * L ^ 2) / (24 * E1 * I)).
Proof.
  intros HE HI. unfold Spec.y1, Spec.theta1. split; field; split; assumption.
Qed.

Lemma point_first_arm_factored x P E1 I a :
  ~ E1 == 0 -> ~ I == 0 ->
  Spec.y_point_lt x P E1 I a == P * (x * x) * (a - x / 3) / (2 * E1 * I)
  /\ Spec.theta_point_lt x P E1 I a == - (P * x * (a - x / 2) / (E1 * I)).
Proof.
  intros HE HI. unfold Spec.y_point_lt, Spec.theta_point_lt.
  split; field; split; assumption.
Qed.

(** Both families are clamped at [x = 0]: whatever the length, the load
    and the second material, the deflection and the rotation computed at
    the first grid position are zero. *)
Theorem both_families_are_clamped_at_zero (E1 E2 I L T w P a : Q) :
  ~ E1 == 0 -> ~ I == 0 -> 0 < T -> 0 < a ->
  (exists y theta,
      distributed_y_theta 0 E1 E2 I L T w = Ok (y, theta)
      /\ y == 0 /\ theta == 0)
  /\ (exists y theta,
        y_point_load 0 P E1 I a = Ok y /\ theta_point_load 0 P E1 I a = Ok theta
        /\ y == 0 /\ theta == 0).
Proof.
  intros HE HI HT Ha.
  assert (HEI : ~ E1 * I == 0) by now apply Qmult_nonzero.
  split.
  - rewrite distributed_before by assumption. unfold y_then_theta.
    destruct (computes_value _ _ _ (y1_computes 0 E1 I L w) HEI) as (y & -> & Hy).
    destruct (computes_value _ _ _ (theta1_computes 0 E1 I L w) HEI)
      as (theta & -> & Hth).
    exists y, theta. cbn [obind]. repeat split.
    + rewrite Hy. unfold Spec.y1. field. split; assumption.
    + rewrite Hth. unfold Spec.theta1. field. split; assumption.
  - destruct (point_load_before 0 P E1 I a Ha) as [-> ->].
    destruct (computes_value _ _ _ (y_point_load_before_computes 0 P E1 I a) HEI)
      as (y & -> & Hy).
    destruct (computes_value _ _ _ (theta_point_load_before_computes 0 P E1 I a) HEI)
      as (theta & -> & Hth).
    exists y, theta. repeat split.
    + rewrite Hy. unfold Spec.y_point_lt. field. split; assumption.
    + rewrite Hth. unfold Spec.theta_point_lt. field. split; assumption.
Qed.

Lemma both_families_are_clamped_at_zero_witness :
  (exists y theta,
      distributed_y_theta 0 200 69 (1 # 8) 10 5 1000 = Ok (y, theta)
      /\ y == 0 /\ theta == 0)
  /\ (exists y theta,
        y_point_load 0 5000 200 (1 # 8) 5 = Ok y
        /\ theta_point_load 0 5000 200 (1 # 8) 5 = Ok theta
        /\ y == 0 /\ theta == 0).
Proof.
  apply (both_families_are_clamped_at_zero 200 69 (1 # 8) 10 5 1000 5000 5);
    first [discriminate | reflexivity].
Defined.

(** The two families do not share a sign convention.  For positive load,
    modulus and second moment and a position [x > 0], the first arm of the
    distributed load returns a negative deflection and a negative rotation,
    whatever the length; below the load position [a] the point-load
    functions return a positive deflection and a negative rotation. *)
Theorem signs_of_the_first_arms (x E1 I L w P a : Q) :
  0 < E1 -> 0 < I -> 0 < w -> 0 < P -> 0 < x -> x < a ->
  (exists y theta,
      y1 x E1 I L w = Ok y /\ theta1 x E1 I L w = Ok theta
      /\ y < 0 /\ theta < 0)
  /\ (exists y theta,
        y_point_load x P E1 I a = Ok y /\ theta_point_load x P E1 I a = Ok theta
        /\ 0 < y /\ theta < 0).
Proof.
  intros HE HI Hw HP Hx Hxa.
  assert (HE0 : ~ E1 == 0) by lra. assert (HI0 : ~ I == 0) by lra.
  assert (HEI : ~ E1 * I == 0) by now apply Qmult_nonzero.
  assert (Hxx : 0 < x * x) by nra.
  assert (Hd24 : 0 < 24 * E1 * I).
  { repeat apply Qmult_lt_0_compat; first [assumption | reflexivity]. }
  split.
  - destruct (computes_value _ _ _ (y1_computes x E1 I L w) HEI) as (y & -> & Hy).
    destruct (computes_value _ _ _ (theta1_computes x E1 I L w) HEI)
      as (theta & -> & Hth).
    destruct (first_arm_factored x E1 I L w HE0 HI0) as [Fy Fth].
    exists y, theta. repeat split.
    + rewrite Hy, Fy.
      assert (0 < w * (x * x) * ((x - 2 * L) ^ 2 + 2 * L ^ 2) / (24 * E1 * I)).
      { apply Qdiv_positive; [|assumption].
        repeat apply Qmult_lt_0_compat; try assumption.
        now apply quartic_factor_positive. }
      lra.
    + rewrite Hth, Fth.
      assert (0 < w * x * ((2 * x - 3 * L) ^ 2 + 3 * L ^ 2) / (24 * E1 * I)).
      { apply Qdiv_positive; [|assumption].
        repeat apply Qmult_lt_0_compat; try assumption.
        now apply cubic_factor_positive. }
      lra.
  - destruct (point_load_before x P E1 I a Hxa) as [-> ->].
    destruct (computes_value _ _ _ (y_point_load_before_computes x P E1 I a) HEI)
      as (y & -> & Hy).
    destruct (computes_value _ _ _ (theta_point_load_before_computes x P E1 I a) HEI)
      as (theta & -> & Hth).
    destruct (point_first_arm_factored x P E1 I a HE0 HI0) as [Fy Fth].
    exists y, theta. repeat split.
    + rewrite Hy, Fy. apply Qdiv_positive.
      * repeat apply Qmult_lt_0_compat; try assumption.
        unfold Qdiv. change (/ 3) with (1 # 3). lra.
      * repeat apply Qmult_lt_0_compat; first [assumption | reflexivity].
    + rewrite Hth, Fth.
      assert (0 < P * x * (a - x / 2) / (E1 * I)).
      { apply Qdiv_positive.
        - repeat apply Qmult_lt_0_compat; try assumption.
          unfold Qdiv. change (/ 2) with (1 # 2). lra.
        - now apply Qmult_lt_0_compat. }
      lra.
Qed.

Lemma signs_of_the_first_arms_witness :
  (exists y theta,
      y1 2 200 (1 # 8) 10 1000 = Ok y /\ theta1 2 200 (1 # 8) 10 1000 = Ok theta
      /\ y < 0 /\ theta < 0)
  /\ (exists y theta,
        y_point_load 2 5000 200 (1 # 8) 5 = Ok y
        /\ theta_point_load 2 5000 200 (1 # 8) 5 = Ok theta
        /\ 0 < y /\ theta < 0).
Proof.
  apply (signs_of_the_first_arms 2 200 (1 # 8) 10 1000 5000 5); reflexivity.
Defined.

(** ** The values at the free end and under the load *)

(** The classical cantilever values: under a distributed load the first
    arm gives, at the free end [x = L], the deflection -w L^4 / (8 E I) and
    the rotation -w L^3 / (6 E I); for a point load the arm below the load,
    evaluated at the load position [a], gives P a^3 / (3 E I), and
    [theta_point_load] returns -P a^2 / (2 E I) there. *)
Theorem classical_values_at_the_free_end (E1 I L w P a : Q) :
  ~ E1 == 0 -> ~ I == 0 ->
  (exists y theta,
      y1 L E1 I L w = Ok y /\ theta1 L E1 I L w = Ok theta
      /\ y == - (w * L ^ 4) / (8 * E1 * I)
      /\ theta == - (w * L ^ 3) / (6 * E1 * I))
  /\ (exists y theta,
        y_point_load_before a P E1 I a = Ok y
        /\ theta_point_load a P E1 I a = Ok theta
        /\ y == P * a ^ 3 / (3 * E1 * I)
        /\ theta == - (P * a ^ 2) / (2 * E1 * I)).
Proof.
  intros HE HI.
  assert (HEI : ~ E1 * I == 0) by now apply Qmult_nonzero.
  split.
  - destruct (computes_value _ _ _ (y1_computes L E1 I L w) HEI) as (y & -> & Hy).
    destruct (computes_value _ _ _ (theta1_computes L E1 I L w) HEI)
      as (theta & -> & Hth).
    exists y, theta. repeat split.
    + rewrite Hy. unfold Spec.y1. field. split; assumption.
    + rewrite Hth. unfold Spec.theta1. field. split; assumption.
  - destruct (point_load_from a P E1 I a) as [_ ->]; [lra|].
    destruct (computes_value _ _ _ (y_point_load_before_computes a P E1 I a) HEI)
      as (y & -> & Hy).
    destruct (computes_value _ _ _ (theta_point_load_after_computes a P E1 I a) HEI)
      as (theta & -> & Hth).
    exists y, theta. repeat split.
    + rewrite Hy. unfold Spec.y_point_lt. field. split; assumption.
    + rewrite Hth. unfold Spec.theta_point_ge. field. split; assumption.
Qed.

Lemma classical_values_at_the_free_end_witness :
  (exists y theta,
      y1 10 200 (1 # 8) 10 1000 = Ok y /\ theta1 10 200 (1 # 8) 10 1000 = Ok theta
      /\ y == - (1000 * 10 ^ 4) / (8 * 200 * (1 # 8))
      /\ theta == - (1000 * 10 ^ 3) / (6 * 200 * (1 # 8)))
  /\ (exists y theta,
        y_point_load_before 5 5000 200 (1 # 8) 5 = Ok y
        /\ theta_point_load 5 5000 200 (1 # 8) 5 = Ok theta
        /\ y == 5000 * 5 ^ 3 / (3 * 200 * (1 # 8))
        /\ theta == - (5000 * 5 ^ 2) / (2 * 200 * (1 # 8))).
Proof.
  apply (classical_values_at_the_free_end 200 (1 # 8) 10 1000 5000 5);
    discriminate.
Defined.

(** ** Proportionality *)

Lemma scaled_by_of_computes (k : Q) (r r' : outcome Q) (d v v' : Q) :
  computes r d v -> computes r' d v' -> ~ d == 0 -> v' == k * v ->
  scaled_by k r r'.
Proof.
  intros Hr Hr' Hd Hv.
  destruct (computes_value _ _ _ Hr Hd) as (q & -> & Hq).
  destruct (computes_value _ _ _ Hr' Hd) as (q' & -> & Hq').
  exists q, q'. repeat split. now rewrite Hq, Hq'.
Qed.

(** Every result is proportional to the load: multiplying the intensity
    [w] of a distributed load, or the magnitude [P] of a point load, by [k]
    multiplies the deflection and the rotation by [k], at every position
    and on either side of the transition point or of the load. *)
Theorem results_are_proportional_to_the_load
    (k x E1 E2 I L T w P a : Q) :
  ~ E1 == 0 -> ~ E2 == 0 -> ~ I == 0 ->
  scaled_by k (y1 x E1 I L w) (y1 x E1 I L (k * w))
  /\ scaled_by k (theta1 x E1 I L w) (theta1 x E1 I L (k * w))
  /\ scaled_by k (y2 x E1 E2 I L T w) (y2 x E1 E2 I L T (k * w))
  /\ scaled_by k (theta2 x E1 E2 I L T w) (theta2 x E1 E2 I L T (k * w))
  /\ scaled_by k (y_point_load x P E1 I a) (y_point_load x (k * P) E1 I a)
  /\ scaled_by k (theta_point_load x P E1 I a)
                 (theta_point_load x (k * P) E1 I a).
Proof.
  intros H1 H2 HI.
  assert (H1I : ~ E1 * I == 0) by now apply Qmult_nonzero.
  assert (H12I : ~ E1 * E2 * I == 0) by now repeat apply Qmult_nonzero.
  repeat split.
  - apply (scaled_by_of_computes _ _ _ _ _ _ (y1_computes _ _ _ _ _)
             (y1_computes _ _ _ _ _) H1I).
    unfold Spec.y1. field. split; assumption.
  - apply (scaled_by_of_computes _ _ _ _ _ _ (theta1_computes _ _ _ _ _)
             (theta1_computes _ _ _ _ _) H1I).
    unfold Spec.theta1. field. split; assumption.
  - apply (scaled_by_of_computes _ _ _ _ _ _ (y2_computes _ _ _ _ _ _ _)
             (y2_computes _ _ _ _ _ _ _) H12I).
    unfold Spec.y2, Spec.C. field. repeat split; assumption.
  - apply (scaled_by_of_computes _ _ _ _ _ _ (theta2_computes _ _ _ _ _ _ _)
             (theta2_computes _ _ _ _ _ _ _) H12I).
    unfold Spec.theta2, Spec.C. field. repeat split; assumption.
  - unfold y_point_load. destruct (Qltb x a).
    + apply (scaled_by_of_computes _ _ _ _ _ _
               (y_point_load_before_computes _ _ _ _ _)
               (y_point_load_before_computes _ _ _ _ _) H1I).
      unfold Spec.y_point_lt. field. split; assumption.
    + apply (scaled_by_of_computes _ _ _ _ _ _
               (y_point_load_after_computes _ _ _ _ _)
               (y_point_load_after_computes _ _ _ _ _) H1I).
      unfold Spec.y_point_ge. field. split; assumption.
  - unfold theta_point_load. destruct (Qltb x a).
    + apply (scaled_by_of_computes _ _ _ _ _ _
               (theta_point_load_before_computes _ _ _ _ _)
               (theta_point_load_before_computes _ _ _ _ _) H1I).
      unfold Spec.theta_point_lt. field. split; assumption.
    + apply (scaled_by_of_computes _ _ _ _ _ _
               (theta_point_load_after_computes _ _ _ _ _)
               (theta_point_load_after_computes _ _ _ _ _) H1I).
      unfold Spec.theta_point_ge. field. split; assumption.
Qed.

Lemma results_are_proportional_to_the_load_witness :
  scaled_by 2 (y1 2 200 (1 # 8) 10 1000) (y1 2 200 (1 # 8) 10 (2 * 1000))
  /\ scaled_by 2 (theta1 2 200 (1 # 8) 10 1000)
                 (theta1 2 200 (1 # 8) 10 (2 * 1000))
  /\ scaled_by 2 (y2 2 200 69 (1 # 8) 10 5 1000)
                 (y2 2 200 69 (1 # 8) 10 5 (2 * 1000))
  /\ scaled_by 2 (theta2 2 200 69 (1 # 8) 10 5 1000)
                 (theta2 2 200 69 (1 # 8) 10 5 (2 * 1000))
  /\ scaled_by 2 (y_point_load 2 5000 200 (1 # 8) 5)
                 (y_point_load 2 (2 * 5000) 200 (1 # 8) 5)
  /\ scaled_by 2 (theta_point_load 2 5000 200 (1 # 8) 5)
                 (theta_point_load 2 (2 * 5000) 200 (1 # 8) 5).
Proof.
  apply (results_are_proportional_to_the_load 2 2 200 69 (1 # 8) 10 5 1000 5000 5);
    discriminate.
Defined.

(** ** Catalogs whose loads are all passed over *)

Lemma only_prints_app (t1 t2 : list event) :
  only_prints t1 -> only_prints t2 -> only_prints (t1 ++ t2).
Proof. unfold only_prints. intros H1 H2. apply Forall_app. now split. Qed.

Lemma only_prints_silent (t : list event) :
  only_prints t -> rows t = [] /\ prompts t = [] /\ figures t = [].
Proof.
  induction 1 as [|e t [m ->] _ (Hr & Hp & Hf)]; [repeat split|].
  cbn [rows prompts figures flat_map app]. repeat split; assumption.
Qed.

Lemma tabulate_load_skips (materials : list Material.t) (beam : Beam.t)
    (load : Load.t) (diagnostic : message)
    (tp : gmap string (list Q)) (stdin : list response) :
  skips beam load diagnostic ->
  tabulate_load materials beam load tp stdin
  = (Ok tp, stdin,
     [Print (MsgApplyingLoad (Load.name load) (Load.load_type load));
      Print diagnostic]).
Proof.
  intros Hskip. unfold tabulate_load.
  destruct Hskip as [y_load Hkind Ha Hout | Hnd Hnp].
  - rewrite Hkind, Ha. cbn [String.eqb Ascii.eqb Bool.eqb as_float].
    rewrite bind_emit, bind_lift_ok.
    assert (Hrange : negb (Qltb 0 y_load && Qltb y_load (Beam.length beam)) = true).
    { rewrite negb_true_iff, andb_false_iff, !Qltb_ge. exact Hout. }
    now rewrite Hrange, bind_emit.
  - apply String.eqb_neq in Hnd, Hnp. rewrite Hnd, Hnp.
    now rewrite bind_emit, bind_emit.
Qed.

Lemma loads_all_skipped (materials : list Material.t) (beam : Beam.t)
    (loads : list Load.t) (tp : gmap string (list Q)) (stdin : list response) :
  (forall load, In load loads -> exists diagnostic, skips beam load diagnostic) ->
  exists t, for_acc loads (tabulate_load materials beam) tp stdin = (Ok tp, stdin, t)
            /\ only_prints t.
Proof.
  induction loads as [|load loads IH]; intros Hskip; cbn [for_acc].
  - exists []. split; [reflexivity | constructor].
  - destruct (Hskip load (or_introl eq_refl)) as (d & Hd).
    destruct IH as (t & Ht & Hp); [intros l Hl; apply Hskip; now right|].
    unfold bind. rewrite (tabulate_load_skips _ _ _ _ _ _ Hd), Ht.
    eexists. split; [reflexivity|].
    apply only_prints_app; [|assumption].
    repeat constructor; eexists; reflexivity.
Qed.

Lemma beams_all_skipped (materials : list Material.t) (loads : list Load.t)
    (beams : list Beam.t) (tp : gmap string (list Q)) (stdin : list response) :
  (forall beam load, In beam beams -> In load loads ->
                     exists diagnostic, skips beam load diagnostic) ->
  exists t,
    for_acc beams
      (fun beam transition_points =>
         bind (emit (Print (MsgConfiguringBeam (Beam.name beam))))
              (fun _ => for_acc loads (tabulate_load materials beam)
                                transition_points)) tp stdin
    = (Ok tp, stdin, t)
    /\ only_prints t.
Proof.
  induction beams as [|beam beams IH]; intros Hskip; cbn [for_acc].
  - exists []. split; [reflexivity | constructor].
  - destruct (loads_all_skipped materials beam loads tp stdin) as (t1 & Ht1 & Hp1);
      [intros l Hl; apply Hskip; [now left | assumption]|].
    destruct IH as (t2 & Ht2 & Hp2);
      [intros b l Hb Hl; apply Hskip; [now right | assumption]|].
    rewrite bind_run, bind_emit, Ht1, Ht2.
    eexists. split; [reflexivity|].
    apply only_prints_app; [|assumption].
    constructor; [eexists; reflexivity | assumption].
Qed.

Lemma console_app (t1 t2 : list event) :
  console (t1 ++ t2) = console t1 ++ console t2.
Proof. unfold console. apply flat_map_app. Qed.

(** When every load of the catalog is passed over for every beam (point
    loads outside the beam, unknown kinds), the tabulation still creates
    the output file and writes its header, but nothing else: it asks for no
    transition point, reads no input and returns the empty dictionary.
    [main] then reports that no computation was performed and shows no
    figure. *)
Theorem catalog_of_skipped_loads_leaves_a_header_only
    (library : BeamLibrary.t) (output_filename : string)
    (stdin : list response) :
  BeamLibrary.materials library <> [] ->
  BeamLibrary.beams library <> [] ->
  BeamLibrary.loads library <> [] ->
  (forall beam load,
      In beam (BeamLibrary.beams library) ->
      In load (BeamLibrary.loads library) ->
      exists diagnostic, skips beam load diagnostic) ->
  let tabulation := compute_deflections library output_filename stdin in
  let whole := main library stdin in
  fst (fst tabulation) = Ok ∅
  /\ snd (fst tabulation) = stdin
  /\ In (OpenWrite output_filename) (snd tabulation)
  /\ rows (snd tabulation) = [header]
  /\ prompts (snd tabulation) = []
  /\ fst (fst whole) = Ok tt
  /\ snd (fst whole) = stdin
  /\ figures (snd whole) = []
  /\ last (console (snd whole)) = Some MsgNothingComputed.
Proof.
  destruct library as [materials beams loads].
  cbn [BeamLibrary.materials BeamLibrary.beams BeamLibrary.loads].
  intros Hm Hb Hl Hskip.
  assert (Hrun : forall filename,
    exists t, compute_deflections (BeamLibrary.mk materials beams loads)
                                  filename stdin
              = (Ok ∅, stdin,
                 [Print (MsgLoadedMaterials (List.length materials));
                  Print (MsgLoadedBeams (List.length beams));
                  Print (MsgLoadedLoads (List.length loads));
                  OpenWrite filename; WriteRow header]
                 ++ t ++ [Print (MsgResultsWritten filename)])
              /\ only_prints t).
  { intros filename.
    destruct (beams_all_skipped materials loads beams ∅ stdin Hskip)
      as (t & Ht & Hp).
    exists t. split; [|assumption].
    unfold compute_deflections, BeamLibrary.get_materials,
      BeamLibrary.get_beams, BeamLibrary.get_loads.
    cbn [BeamLibrary.materials BeamLibrary.beams BeamLibrary.loads].
    destruct beams as [|beam beams]; [contradiction|].
    destruct loads as [|load loads]; [contradiction|].
    destruct materials as [|material materials]; [contradiction|].
    rewrite !bind_emit, bind_run, Ht, bind_emit. reflexivity. }
  cbv zeta. destruct (Hrun output_filename) as (t & -> & Hp).
  destruct (only_prints_silent t Hp) as (Hr & Hi & Hf).
  unfold main. destruct (Hrun "deflection_results.csv"%string) as (t' & Ht' & Hp').
  destruct (only_prints_silent t' Hp') as (Hr' & Hi' & Hf').
  rewrite bind_run, Ht'. cbn [fst snd].
  rewrite bool_decide_eq_true_2 by reflexivity. cbn [emit fst snd].
  repeat split.
  - cbn. tauto.
  - unfold rows in *. cbn [flat_map app]. rewrite flat_map_app, Hr. reflexivity.
  - unfold prompts in *. cbn [flat_map app]. rewrite flat_map_app, Hi. reflexivity.
  - unfold figures in *. cbn [flat_map app].
    rewrite !flat_map_app, Hf'. reflexivity.
  - rewrite console_app. apply last_snoc.
Qed.

Lemma catalog_of_skipped_loads_leaves_a_header_only_witness :
  let library :=
    BeamLibrary.mk [steel] [short_beam]
                   [far_point_load; Load.mk "Wind" "gust" None None None] in
  let tabulation := compute_deflections library "out.csv" [Number 0.005] in
  let whole := main library [Number 0.005] in
  fst (fst tabulation) = Ok ∅
  /\ snd (fst tabulation) = [Number 0.005]
  /\ In (OpenWrite "out.csv") (snd tabulation)
  /\ rows (snd tabulation) = [header]
  /\ prompts (snd tabulation) = []
  /\ fst (fst whole) = Ok tt
  /\ snd (fst whole) = [Number 0.005]
  /\ figures (snd whole) = []
  /\ last (console (snd whole)) = Some MsgNothingComputed.
Proof.
  apply (catalog_of_skipped_loads_leaves_a_header_only
           (BeamLibrary.mk [steel] [short_beam]
              [far_point_load; Load.mk "Wind" "gust" None None None])
           "out.csv" [Number 0.005]).
  - discriminate.
  - discriminate.
  - discriminate.
  - intros beam load [<- | []] [<- | [<- | []]].
    + exists (MsgLoadOutsideBeam 0.012 0.01).
      apply (skips_out_of_range short_beam far_point_load 0.012);
        [reflexivity | reflexivity | right; discriminate].
    + exists (MsgUnsupportedLoad "gust").
      apply skips_unsupported; discriminate.
Defined.

(** ** Plotting when no transition point is stored *)

Lemma plot_load_without_T (materials : list Material.t) (beam : Beam.t)
    (load : Load.t) (P : gmap string (list Q)) :
  stored_for beam P = [] ->
  exists m, plot_load materials beam load P = (Ok tt, P, [Print m]).
Proof.
  intros Hempty. unfold plot_load, stored_for in *.
  destruct (String.eqb _ "distributed"); [|destruct (String.eqb _ "point")].
  - rewrite bind_run. unfold Ts_read. rewrite Hempty. now eexists.
  - rewrite bind_run. unfold Ts_read. rewrite Hempty. now eexists.
  - now eexists.
Qed.

(** When the dictionary has no transition point for any beam of the
    catalog (no key for it, or an empty list), the plotting returns, shows
    no figure and leaves the dictionary as it was: it only prints.  It does
    so for every catalog, also one whose loads lack their numbers or whose
    materials have a zero modulus, because no kernel function is called. *)
Theorem plotting_without_transition_points
    (library : BeamLibrary.t) (transition_points : gmap string (list Q)) :
  (forall beam, In beam (BeamLibrary.beams library) ->
                stored_for beam transition_points = []) ->
  let run := plot_deflections library transition_points in
  fst (fst run) = Ok tt
  /\ snd (fst run) = transition_points
  /\ only_prints (snd run).
Proof.
  destruct library as [materials beams loads].
  cbn [BeamLibrary.beams]. intros Hempty. cbv zeta.
  unfold plot_deflections, BeamLibrary.get_materials, BeamLibrary.get_beams,
    BeamLibrary.get_loads.
  cbn [BeamLibrary.materials BeamLibrary.beams BeamLibrary.loads].
  assert (Hone : forall m : message, only_prints [Print m]).
  { intros m. constructor; [now exists m | constructor]. }
  assert (Hloads : forall beam l,
    stored_for beam transition_points = [] ->
    exists t, for_each l (plot_load materials beam) transition_points
              = (Ok tt, transition_points, t) /\ only_prints t).
  { intros beam l Hb. induction l as [|load l (t & Ht & Hp)]; cbn [for_each].
    - exists []. split; [reflexivity | constructor].
    - destruct (plot_load_without_T materials beam load _ Hb) as (m & Hm).
      unfold bind. rewrite Hm, Ht. eexists. split; [reflexivity|].
      apply only_prints_app; [apply Hone | assumption]. }
  assert (Hbeams : forall bs l,
    (forall beam, In beam bs -> stored_for beam transition_points = []) ->
    exists t,
      for_each bs (fun beam =>
                     bind (emit (Print (MsgPlottingBeam (Beam.name beam))))
                          (fun _ => for_each l (plot_load materials beam)))
               transition_points
      = (Ok tt, transition_points, t) /\ only_prints t).
  { intros bs l. induction bs as [|beam bs IH]; intros Hb; cbn [for_each].
    - exists []. split; [reflexivity | constructor].
    - destruct (Hloads beam l (Hb beam (or_introl eq_refl))) as (t1 & Ht1 & Hp1).
      destruct IH as (t2 & Ht2 & Hp2); [intros b Hin; apply Hb; now right|].
      rewrite bind_run, bind_emit, Ht1, Ht2. eexists. split; [reflexivity|].
      apply only_prints_app; [|assumption].
      constructor; [eexists; reflexivity | assumption]. }
  destruct beams as [|beam beams]; [repeat split; apply Hone|].
  destruct loads as [|load loads]; [repeat split; apply Hone|].
  destruct materials as [|material materials]; [repeat split; apply Hone|].
  destruct (Hbeams (beam :: beams) (load :: loads) Hempty) as (t & -> & Hp).
  repeat split. exact Hp.
Qed.

Lemma plotting_without_transition_points_witness :
  let library :=
    BeamLibrary.mk [Material.mk "Void" 0] [short_beam]
                   [uniform_load; Load.mk "Bare" "point" None None None] in
  let run := plot_deflections library ({[ "Beam9"%string := [0.005] ]}) in
  fst (fst run) = Ok tt
  /\ snd (fst run) = {[ "Beam9"%string := [0.005] ]}
  /\ only_prints (snd run).
Proof.
  apply (plotting_without_transition_points
           (BeamLibrary.mk [Material.mk "Void" 0] [short_beam]
              [uniform_load; Load.mk "Bare" "point" None None None])
           ({[ "Beam9"%string := [0.005] ]})).
  intros beam [<- | []]. reflexivity.
Defined.

(** ** What the tabulation stores *)

Lemma for_acc_preserves {S A B : Type} (Inv : B -> Prop) (l : list A)
    (body : A -> B -> M S B) :
  (forall a acc s acc' s' t,
      In a l -> Inv acc -> body a acc s = (Ok acc', s', t) -> Inv acc') ->
  forall acc s acc' s' t,
    Inv acc -> for_acc l body acc s = (Ok acc', s', t) -> Inv acc'.
Proof.
  induction l as [|a l IH]; intros Hbody acc s acc' s' t Hacc Hrun;
    cbn [for_acc] in Hrun.
  - injection Hrun as <- _ _. exact Hacc.
  - apply bind_returns in Hrun as (acc1 & s1 & t1 & t2 & Ha & Hrest & _).
    apply (IH (fun a' acc0 s0 acc0' s0' t0 Hin =>
                 Hbody a' acc0 s0 acc0' s0' t0 (or_intror Hin))
              acc1 s1 acc' s' t2); [|exact Hrest].
    apply (Hbody a acc s acc1 s1 t1); [now left | assumption..].
Qed.

(** A load's iteration of the tabulation, when it returns, has either left
    the dictionary alone or appended one position strictly inside the beam
    to the beam's list. *)
Lemma tabulate_load_appends_in_range (materials : list Material.t)
    (beam : Beam.t) (load : Load.t) (tp tp' : gmap string (list Q))
    (stdin stdin' : list response) (t : list event) :
  tabulate_load materials beam load tp stdin = (Ok tp', stdin', t) ->
  tp' = tp
  \/ exists T, 0 < T /\ T < Beam.length beam
               /\ tp' = setdefault_append tp (Beam.name beam) T.
Proof.
  unfold tabulate_load. rewrite bind_emit.
  destruct (String.eqb (Load.load_type load) "distributed").
  - destruct (bind _ _ stdin) as [[r s] t0] eqn:Hrun. intros [= -> -> <-].
    apply bind_returns in Hrun as (T & s1 & t1 & t2 & Hask & Hrest & _).
    apply bind_returns in Hrest as ([] & s2 & t3 & t4 & _ & Hret & _).
    injection Hret as <- _ _. right. exists T.
    destruct (ask_T_in_range _ _ _ _ _ _ _ Hask). repeat split; assumption.
  - destruct (String.eqb (Load.load_type load) "point").
    + destruct (bind _ _ stdin) as [[r s] t0] eqn:Hrun. intros [= -> -> <-].
      apply bind_returns in Hrun as (y_load & s1 & t1 & t2 & _ & Hrest & _).
      destruct (negb _).
      * rewrite bind_emit in Hrest. injection Hrest as <- _ _. now left.
      * apply bind_returns in Hrest as (T & s2 & t3 & t4 & Hask & Hrest & _).
        apply bind_returns in Hrest as ([] & s3 & t5 & t6 & _ & Hret & _).
        injection Hret as <- _ _. right. exists T.
        destruct (ask_T_in_range _ _ _ _ _ _ _ Hask). repeat split; assumption.
    + rewrite bind_emit. cbn [ret]. intros [= <- _ _]. now left.
Qed.

Lemma stored_in_range_append (beams : list Beam.t) (beam : Beam.t)
    (tp : gmap string (list Q)) (T : Q) :
  In beam beams -> 0 < T -> T < Beam.length beam ->
  stored_in_range beams tp ->
  stored_in_range beams (setdefault_append tp (Beam.name beam) T).
Proof.
  intros Hin H0 HL Hinv key Ts. unfold setdefault_append.
  destruct (decide (Beam.name beam = key)) as [<- | Hne].
  - rewrite lookup_insert_eq. intros [= <-]. split.
    + intros Happ. now apply app_eq_nil in Happ as [_ ?].
    + apply Forall_app. split.
      * destruct (tp !! Beam.name beam) as [l|] eqn:Hl; cbn; [|constructor].
        now apply (Hinv _ _ Hl).
      * constructor; [|constructor]. now exists beam.
  - rewrite lookup_insert_ne by assumption. apply Hinv.
Qed.

(** The dictionary [compute_deflections] returns holds, under each key, a
    list that is not empty; the key is the name of a beam of the catalog
    and every stored transition point lies strictly inside a beam of that
    name.  So the dictionary is empty exactly when no transition point was
    stored, which is what [main] tests. *)
Theorem stored_transition_points_are_in_range
    (library : BeamLibrary.t) (output_filename : string)
    (stdin : list response) (transition_points : gmap string (list Q)) :
  fst (fst (compute_deflections library output_filename stdin))
  = Ok transition_points ->
  stored_in_range (BeamLibrary.beams library) transition_points.
Proof.
  destruct library as [materials beams loads]. cbn [BeamLibrary.beams].
  assert (Hempty : stored_in_range beams ∅).
  { intros key Ts Hkey. now rewrite lookup_empty in Hkey. }
  unfold compute_deflections, BeamLibrary.get_materials, BeamLibrary.get_beams,
    BeamLibrary.get_loads.
  cbn [BeamLibrary.materials BeamLibrary.beams BeamLibrary.loads].
  rewrite !bind_emit.
  destruct beams as [|beam beams];
    [rewrite bind_emit; cbn; now intros [= <-]|].
  destruct loads as [|load loads];
    [rewrite bind_emit; cbn; now intros [= <-]|].
  destruct materials as [|material materials];
    [rewrite bind_emit; cbn; now intros [= <-]|].
  rewrite !bind_emit.
  destruct (bind _ _ stdin) as [[r s] t] eqn:Hrun. cbn [fst]. intros ->.
  apply bind_returns in Hrun as (tp1 & s1 & t1 & t2 & Hloop & Hret & _).
  rewrite bind_emit in Hret. injection Hret as <- _ _.
  revert Hloop. apply for_acc_preserves; [|exact Hempty].
  intros b acc s0 acc' s' t0 Hin Hacc Hbody.
  rewrite bind_emit in Hbody.
  destruct (for_acc (load :: loads) _ acc s0) as [[r' s''] t'] eqn:Hloads.
  injection Hbody as -> _ _.
  revert Hloads. apply for_acc_preserves; [|exact Hacc].
  intros ld acc0 s2 acc2 s3 t3 _ Hacc0 Hstep.
  apply tabulate_load_appends_in_range in Hstep as [-> | (T & H0 & HL & ->)];
    [assumption | now apply stored_in_range_append].
Qed.

Lemma stored_transition_points_are_in_range_witness :
  let library := BeamLibrary.mk [steel] [short_beam]
                                [uniform_load; far_point_load; near_point_load] in
  let transition_points : gmap string (list Q) :=
    {[ "Beam1"%string := [0.0025; 0.0075] ]} in
  fst (fst (compute_deflections library "out.csv"
                                [Number 0.0025; Number 0.02; Number 0.0075]))
  = Ok transition_points
  /\ stored_in_range (BeamLibrary.beams library) transition_points.
Proof.
  split; [vm_compute; reflexivity|].
  apply (stored_transition_points_are_in_range
           (BeamLibrary.mk [steel] [short_beam]
                           [uniform_load; far_point_load; near_point_load])
           "out.csv" [Number 0.0025; Number 0.02; Number 0.0075]).
  vm_compute. reflexivity.
Defined.

(** ** Catalogs on which the kernel cannot fail *)

Lemma moment_of_inertia_nonzero (beam : Beam.t) :
  ~ Beam.width beam == 0 -> ~ Beam.thickness beam == 0 ->
  ~ Beam.moment_of_inertia beam == 0.
Proof.
  intros Hw Ht HI. unfold Beam.moment_of_inertia in HI.
  assert (Hp : Beam.width beam
               * (Beam.thickness beam * (Beam.thickness beam * Beam.thickness beam))
               == 0).
  { rewrite <- (Qmult_0_l 12), <- HI. field. }
  apply Qmult_integral in Hp as [? | Hp]; [contradiction|].
  apply Qmult_integral in Hp as [? | Hp]; [contradiction|].
  apply Qmult_integral in Hp as [? | ?]; contradiction.
Qed.

Lemma point_y_theta_returns x P E1 I y_load :
  ~ E1 == 0 -> ~ I == 0 ->
  exists y theta, y_point_load x P E1 I y_load = Ok y
                  /\ theta_point_load x P E1 I y_load = Ok theta.
Proof.
  intros H1 HI. unfold y_point_load, theta_point_load.
  destruct (Qltb x y_load).
  - destruct (computes_value _ _ _ (y_point_load_before_computes x P E1 I y_load))
      as (y & -> & _); [nonzero|].
    destruct (computes_value _ _ _ (theta_point_load_before_computes x P E1 I y_load))
      as (th & -> & _); [nonzero|].
    now exists y, th.
  - destruct (computes_value _ _ _ (y_point_load_after_computes x P E1 I y_load))
      as (y & -> & _); [nonzero|].
    destruct (computes_value _ _ _ (theta_point_load_after_computes x P E1 I y_load))
      as (th & -> & _); [nonzero|].
    now exists y, th.
Qed.

Lemma theta_distributed_returns x E1 E2 I L T w :
  ~ E1 == 0 -> ~ E2 == 0 -> ~ I == 0 ->
  exists theta, (if Qltb x T then theta1 x E1 I L w
                 else theta2 x E1 E2 I L T w) = Ok theta.
Proof.
  intros H1 H2 HI. destruct (Qltb x T).
  - destruct (computes_value _ _ _ (theta1_computes x E1 I L w)) as (th & -> & _);
      [nonzero | now exists th].
  - destruct (computes_value _ _ _ (theta2_computes x E1 E2 I L T w))
      as (th & -> & _); [nonzero | now exists th].
Qed.

(** The sweep of a distributed load and of a point load: with a numeric
    load, nonzero moduli and a nonzero second moment, every kernel call
    returns, so the sweep returns, reads nothing and writes one row for
    each material pair and grid position. *)
Lemma tabulate_distributed_rows
    (materials : list Material.t) (beam : Beam.t) (load : Load.t) (T w : Q)
    (stdin : list response) :
  Load.w load = Some w ->
  Forall (fun material => ~ Material.E material == 0) materials ->
  ~ Beam.moment_of_inertia beam == 0 ->
  let run := tabulate_distributed materials beam load T stdin in
  fst (fst run) = Ok tt
  /\ snd (fst run) = stdin
  /\ List.length (rows (snd run))
     = (List.length (product2 materials)
        * List.length (np_arange 0 (Beam.length beam + step) step))%nat.
Proof.
  intros Hw HE HI run. subst run. rewrite List.Forall_forall in HE.
  unfold tabulate_distributed. apply for_each_row_count.
  intros [material1 material2] s Hin. apply in_product2 in Hin as [Hin1 Hin2].
  unfold tabulate_distributed_pair.
  rewrite <- (Nat.mul_1_r (List.length (np_arange 0 (Beam.length beam + step) step))).
  apply for_each_row_count. intros x s' _.
  rewrite Hw. cbn [as_float]. rewrite bind_lift_ok.
  destruct (distributed_y_theta_returns x (Material.E material1)
              (Material.E material2) (Beam.moment_of_inertia beam)
              (Beam.length beam) T w) as (y & theta & ->);
    [exact (HE _ Hin1) | exact (HE _ Hin2) | assumption |].
  rewrite bind_lift_ok. repeat split.
Qed.

Lemma tabulate_point_rows
    (materials : list Material.t) (beam : Beam.t) (load : Load.t) (y_load P : Q)
    (stdin : list response) :
  Load.P load = Some P ->
  Forall (fun material => ~ Material.E material == 0) materials ->
  ~ Beam.moment_of_inertia beam == 0 ->
  let run := tabulate_point materials beam load y_load stdin in
  fst (fst run) = Ok tt
  /\ snd (fst run) = stdin
  /\ List.length (rows (snd run))
     = (List.length (product2 materials)
        * List.length (np_arange 0 (Beam.length beam + step) step))%nat.
Proof.
  intros HP HE HI run. subst run. rewrite List.Forall_forall in HE.
  unfold tabulate_point. apply for_each_row_count.
  intros [material1 material2] s Hin. apply in_product2 in Hin as [Hin1 Hin2].
  unfold tabulate_point_pair.
  rewrite <- (Nat.mul_1_r (List.length (np_arange 0 (Beam.length beam + step) step))).
  apply for_each_row_count. intros x s' _.
  rewrite HP. cbn [as_float]. rewrite bind_lift_ok.
  destruct (point_y_theta_returns x P (Material.E material1)
              (Beam.moment_of_inertia beam) y_load) as (y & theta & -> & ->);
    [exact (HE _ Hin1) | assumption |].
  rewrite !bind_lift_ok. repeat split.
Qed.

Lemma ask_T_starves (prompt : message) (L : Q) (on_accept : Q -> list event)
    (stdin : list response) :
  returns_or_starves (ask_T prompt L on_accept stdin).
Proof.
  unfold returns_or_starves.
  induction stdin as [|line stdin IH]; cbn [ask_T]; [now split|].
  destruct line as [|T|]; try destruct (Qltb 0 T && Qltb T L);
    try exact I;
    destruct (ask_T prompt L on_accept stdin) as [[r s] t]; exact IH.
Qed.

Lemma starves_bind {A B : Type} (m : M (list response) A)
    (k : A -> M (list response) B) (s : list response) :
  returns_or_starves (m s) ->
  (forall a s1, returns_or_starves (k a s1)) ->
  returns_or_starves (bind m k s).
Proof.
  unfold returns_or_starves, bind. intros Hm Hk.
  destruct (m s) as [[[a | e] s1] t1]; [|exact Hm].
  specialize (Hk a s1). now destruct (k a s1) as [[r2 s2] t2].
Qed.

Lemma starves_for_acc {A B : Type} (l : list A)
    (body : A -> B -> M (list response) B) :
  (forall a acc s, In a l -> returns_or_starves (body a acc s)) ->
  forall acc s, returns_or_starves (for_acc l body acc s).
Proof.
  induction l as [|a l IH]; intros Hbody acc s; cbn [for_acc]; [exact I|].
  apply starves_bind; [apply Hbody; now left|].
  intros acc' s1. apply IH. intros a' acc0 s0 Hin. apply Hbody. now right.
Qed.

Lemma tabulate_load_starves (materials : list Material.t) (beam : Beam.t)
    (load : Load.t) (transition_points : gmap string (list Q))
    (stdin : list response) :
  Forall (fun material => ~ Material.E material == 0) materials ->
  ~ Beam.moment_of_inertia beam == 0 ->
  complete load ->
  returns_or_starves (tabulate_load materials beam load transition_points stdin).
Proof.
  intros HE HI [Hd Hp]. unfold tabulate_load.
  apply starves_bind; [exact I | intros _ s1].
  destruct (String.eqb_spec (Load.load_type load) "distributed") as [Hkind | _].
  - destruct (Hd Hkind) as (w & Hw).
    apply starves_bind; [apply ask_T_starves | intros T s2].
    apply starves_bind; [|intros; exact I].
    unfold returns_or_starves.
    now destruct (tabulate_distributed_rows materials beam load T w s2 Hw HE HI)
      as (-> & _).
  - destruct (String.eqb_spec (Load.load_type load) "point") as [Hkind | _].
    + destruct (Hp Hkind) as (P & a & HP & Ha). rewrite Ha. cbn [as_float].
      apply starves_bind; [exact I | intros y_load s2].
      destruct (negb _).
      * apply starves_bind; [exact I | intros; exact I].
      * apply starves_bind; [apply ask_T_starves | intros T s3].
        apply starves_bind; [|intros; exact I].
        unfold returns_or_starves.
        now destruct (tabulate_point_rows materials beam load y_load P s3 HP HE HI)
          as (-> & _).
    + apply starves_bind; [exact I | intros; exact I].
Qed.

Lemma for_acc_returns_quietly {S A B : Type} (l : list A) (body : A -> B -> M S B) :
  (forall a acc s, In a l -> exists acc', body a acc s = (Ok acc', s, [])) ->
  forall acc s, exists acc', for_acc l body acc s = (Ok acc', s, []).
Proof.
  induction l as [|a l IH]; intros Hbody acc s; cbn [for_acc].
  - now exists acc.
  - destruct (Hbody a acc s (or_introl eq_refl)) as (acc1 & H1).
    destruct (IH (fun a' acc0 s0 Hin => Hbody a' acc0 s0 (or_intror Hin)) acc1 s)
      as (acc2 & H2).
    exists acc2. unfold bind. now rewrite H1, H2.
Qed.

Lemma plot_curves_returns {S : Type} (materials : list Material.t) (L : Q)
    (theta_at : Material.t -> Material.t -> Q -> outcome Q) (s : S) :
  (forall material1 material2 x,
      In material1 materials -> In material2 materials ->
      exists theta, theta_at material1 material2 x = Ok theta) ->
  exists curves, plot_curves materials L theta_at s = (Ok curves, s, []).
Proof.
  intros Hat. unfold plot_curves. cbv zeta. rewrite bind_run.
  match goal with
  | |- context [for_acc ?l ?body ?acc0 s] =>
      destruct (for_acc_returns_quietly l body) with (acc := acc0) (s := s)
        as (acc & Hacc)
  end.
  - intros [material1 material2] [color_idx curves] s0 Hin.
    apply in_product2 in Hin as [Hin1 Hin2]. unfold curve_thetas.
    rewrite bind_run.
    match goal with
    | |- context [for_acc ?l ?body ?acc0 s0] =>
        destruct (for_acc_returns_quietly l body) with (acc := acc0) (s := s0)
          as (thetas & Hthetas)
    end.
    + intros x thetas s1 _.
      destruct (Hat material1 material2 x Hin1 Hin2) as (theta & ->).
      rewrite bind_lift_ok. now eexists.
    + rewrite Hthetas. now eexists.
  - rewrite Hacc. destruct acc as [color_idx curves]. now exists curves.
Qed.

Lemma plot_load_returns (materials : list Material.t) (beam : Beam.t)
    (load : Load.t) (transition_points : gmap string (list Q)) :
  Forall (fun material => ~ Material.E material == 0) materials ->
  ~ Beam.moment_of_inertia beam == 0 ->
  complete load ->
  exists transition_points' t,
    plot_load materials beam load transition_points
    = (Ok tt, transition_points', t).
Proof.
  intros HE HI [Hd Hp]. rewrite List.Forall_forall in HE. unfold plot_load.
  destruct (String.eqb_spec (Load.load_type load) "distributed") as [Hkind | _].
  - destruct (Hd Hkind) as (w & Hw).
    rewrite bind_run. unfold Ts_read.
    destruct (transition_points !! Beam.name beam) as [[|T Ts]|] eqn:Hkey;
      cbn [default from_option id]; try (now eexists; eexists).
    rewrite bind_run. unfold Ts_pop0. rewrite Hkey. rewrite bind_emit.
    destruct (plot_curves_returns materials (Beam.length beam)
                (plot_distributed_theta beam load T)
                (<[Beam.name beam := Ts]> transition_points)) as (curves & Hc).
    + intros material1 material2 x Hin1 Hin2. unfold plot_distributed_theta.
      rewrite Hw. cbn [as_float obind].
      apply theta_distributed_returns; auto.
    + rewrite bind_run, Hc. now eexists; eexists.
  - destruct (String.eqb_spec (Load.load_type load) "point") as [Hkind | _];
      [|now eexists; eexists].
    destruct (Hp Hkind) as (P & a & HP & Ha).
    rewrite bind_run. unfold Ts_read.
    destruct (transition_points !! Beam.name beam) as [[|T Ts]|] eqn:Hkey;
      cbn [default from_option id]; try (now eexists; eexists).
    rewrite bind_run. unfold Ts_pop0. rewrite Hkey. rewrite bind_emit.
    destruct (plot_curves_returns materials (Beam.length beam)
                (plot_point_theta beam load)
                (<[Beam.name beam := Ts]> transition_points)) as (curves & Hc).
    + intros material1 material2 x Hin1 Hin2. unfold plot_point_theta.
      rewrite HP, Ha. cbn [as_float obind].
      destruct (point_y_theta_returns x P (Material.E material1)
                  (Beam.moment_of_inertia beam) a) as (y & theta & _ & ->);
        auto. now exists theta.
    + rewrite bind_run, Hc. now eexists; eexists.
Qed.

Lemma for_each_returns {S A : Type} (l : list A) (body : A -> M S unit) :
  (forall a s, In a l -> exists s' t, body a s = (Ok tt, s', t)) ->
  forall s, exists s' t, for_each l body s = (Ok tt, s', t).
Proof.
  induction l as [|a l IH]; intros Hbody s; cbn [for_each].
  - now eexists; eexists.
  - destruct (Hbody a s (or_introl eq_refl)) as (s1 & t1 & H1).
    destruct (IH (fun a' s0 Hin => Hbody a' s0 (or_intror Hin)) s1)
      as (s2 & t2 & H2).
    unfold bind. rewrite H1, H2. now eexists; eexists.
Qed.

Lemma plot_deflections_returns (library : BeamLibrary.t)
    (transition_points : gmap string (list Q)) :
  sound library ->
  exists transition_points' t,
    plot_deflections library transition_points = (Ok tt, transition_points', t).
Proof.
  destruct library as [materials beams loads]. intros (HE & HB & HL).
  cbn [BeamLibrary.materials BeamLibrary.beams BeamLibrary.loads] in *.
  rewrite List.Forall_forall in HB, HL.
  unfold plot_deflections, BeamLibrary.get_materials, BeamLibrary.get_beams,
    BeamLibrary.get_loads.
  cbn [BeamLibrary.materials BeamLibrary.beams BeamLibrary.loads].
  assert (Hloop : exists transition_points' t,
    for_each beams (fun beam =>
      bind (emit (Print (MsgPlottingBeam (Beam.name beam))))
           (fun _ => for_each loads (plot_load materials beam)))
      transition_points = (Ok tt, transition_points', t)).
  { apply for_each_returns. intros beam s Hbeam. rewrite bind_emit.
    destruct (for_each_returns loads (plot_load materials beam)) with (s := s)
      as (s' & t & ->); [|now eexists; eexists].
    intros load s0 Hload. apply plot_load_returns; [assumption | | now apply HL].
    destruct (HB beam Hbeam). now apply moment_of_inertia_nonzero. }
  destruct beams as [|beam beams]; [now eexists; eexists|].
  destruct loads as [|load loads]; [now eexists; eexists|].
  destruct materials as [|material materials]; [now eexists; eexists|].
  exact Hloop.
Qed.

Lemma compute_deflections_starves (library : BeamLibrary.t)
    (output_filename : string) (stdin : list response) :
  sound library ->
  returns_or_starves (compute_deflections library output_filename stdin).
Proof.
  destruct library as [materials beams loads]. intros (HE & HB & HL).
  cbn [BeamLibrary.materials BeamLibrary.beams BeamLibrary.loads] in *.
  rewrite List.Forall_forall in HB, HL.
  unfold compute_deflections, BeamLibrary.get_materials, BeamLibrary.get_beams,
    BeamLibrary.get_loads.
  cbn [BeamLibrary.materials BeamLibrary.beams BeamLibrary.loads].
  do 3 (apply starves_bind; [exact I | intros _ ?]).
  assert (Hloop : forall s,
    returns_or_starves
      (for_acc beams (fun beam transition_points =>
         bind (emit (Print (MsgConfiguringBeam (Beam.name beam))))
              (fun _ => for_acc loads (tabulate_load materials beam)
                                transition_points)) ∅ s)).
  { apply starves_for_acc. intros beam acc s Hbeam.
    apply starves_bind; [exact I | intros _ s'].
    apply starves_for_acc. intros load acc' s'' Hload.
    apply tabulate_load_starves; [assumption | | now apply HL].
    destruct (HB beam Hbeam). now apply moment_of_inertia_nonzero. }
  destruct beams as [|beam beams];
    [apply starves_bind; [exact I | intros; exact I]|].
  destruct loads as [|load loads];
    [apply starves_bind; [exact I | intros; exact I]|].
  destruct materials as [|material materials];
    [apply starves_bind; [exact I | intros; exact I]|].
  do 2 (apply starves_bind; [exact I | intros _ ?]).
  apply starves_bind; [apply Hloop | intros tp ?].
  apply starves_bind; [exact I | intros; exact I].
Qed.

(** On a sound catalog no kernel call fails and no list is popped when
    empty: the tabulation and the whole run either return or stop with
    [EOFError] because standard input ran out at a prompt, and the
    plotting returns whatever dictionary it is given.  [Beam.moment_of_inertia]
    is not zero when width and thickness are not. *)
Theorem sound_catalog_fails_only_for_want_of_input
    (library : BeamLibrary.t) (output_filename : string)
    (stdin : list response) :
  sound library ->
  returns_or_starves (compute_deflections library output_filename stdin)
  /\ returns_or_starves (main library stdin)
  /\ (forall transition_points : gmap string (list Q),
        exists transition_points' t,
          plot_deflections library transition_points
          = (Ok tt, transition_points', t)).
Proof.
  intros Hsound. split; [|split].
  - now apply compute_deflections_starves.
  - unfold main. apply starves_bind; [now apply compute_deflections_starves|].
    intros transition_points s1.
    destruct (bool_decide (transition_points = ∅)); [exact I|].
    unfold returns_or_starves, bind, call_with.
    destruct (plot_deflections_returns library transition_points Hsound)
      as (tp' & t & ->). exact I.
  - intros transition_points. now apply plot_deflections_returns.
Qed.

Lemma sound_catalog_fails_only_for_want_of_input_witness :
  let library := BeamLibrary.mk [steel; aluminum] [short_beam]
                                [uniform_load; near_point_load] in
  sound library
  /\ returns_or_starves (compute_deflections library "out.csv" [Number 0.005])
  /\ returns_or_starves (main library [Number 0.005])
  /\ (forall transition_points : gmap string (list Q),
        exists transition_points' t,
          plot_deflections library transition_points
          = (Ok tt, transition_points', t)).
Proof.
  assert (Hsound : sound (BeamLibrary.mk [steel; aluminum] [short_beam]
                                         [uniform_load; near_point_load])).
  { split; [|split].
    - repeat constructor; discriminate.
    - repeat constructor; discriminate.
    - constructor; [|constructor; [|constructor]].
      + split; [intros _; now exists 1000 | intros Hkind; discriminate Hkind].
      + split; [intros Hkind; discriminate Hkind
               | intros _; now exists 5000, 0.005]. }
  split; [exact Hsound|].
  exact (sound_catalog_fails_only_for_want_of_input
           (BeamLibrary.mk [steel; aluminum] [short_beam]
                           [uniform_load; near_point_load])
           "out.csv" [Number 0.005] Hsound).
Defined.

(** ** A run in which every load is swept *)

Lemma prompts_app (t1 t2 : list event) :
  prompts (t1 ++ t2) = prompts t1 ++ prompts t2.
Proof. unfold prompts. apply flat_map_app. Qed.

Lemma prompts_written (l : list row) : prompts (map WriteRow l) = [].
Proof. induction l as [|r l IH]; [reflexivity | exact IH]. Qed.

(** A loop over bodies that only write rows only writes rows. *)
Lemma for_each_written {S A : Type} (l : list A) (body : A -> M S unit) :
  (forall a s, snd (body a s) = map WriteRow (rows (snd (body a s)))) ->
  forall s, snd (for_each l body s) = map WriteRow (rows (snd (for_each l body s))).
Proof.
  intros Hbody. induction l as [|a l IH]; intros s; cbn [for_each];
    [reflexivity|].
  unfold bind. specialize (Hbody a s).
  destruct (body a s) as [[[[] | e] s1] t1]; cbn [snd] in *; [|exact Hbody].
  specialize (IH s1). destruct (for_each l body s1) as [[r2 s2] t2].
  cbn [snd] in *. rewrite rows_app, List.map_app, <- Hbody, <- IH. reflexivity.
Qed.

Lemma tabulate_distributed_written (materials : list Material.t)
    (beam : Beam.t) (load : Load.t) (T : Q) (stdin : list response) :
  let t := snd (tabulate_distributed materials beam load T stdin) in
  t = map WriteRow (rows t).
Proof.
  cbv zeta. unfold tabulate_distributed. apply for_each_written.
  intros [material1 material2] s. unfold tabulate_distributed_pair.
  apply for_each_written. intros x s'. unfold bind, lift, emit.
  destruct (as_float (Load.w load)) as [w|]; [|reflexivity].
  destruct (distributed_y_theta _ _ _ _ _ _ _) as [[y theta]|]; reflexivity.
Qed.

Lemma tabulate_point_written (materials : list Material.t)
    (beam : Beam.t) (load : Load.t) (y_load : Q) (stdin : list response) :
  let t := snd (tabulate_point materials beam load y_load stdin) in
  t = map WriteRow (rows t).
Proof.
  cbv zeta. unfold tabulate_point. apply for_each_written.
  intros [material1 material2] s. unfold tabulate_point_pair.
  apply for_each_written. intros x s'. unfold bind, lift, emit.
  destruct (as_float (Load.P load)) as [P|]; [|reflexivity].
  destruct (y_point_load _ _ _ _ _) as [y|]; [|reflexivity].
  destruct (theta_point_load _ _ _ _ _) as [theta|]; reflexivity.
Qed.

Lemma sweep_rows_product2 (materials : list Material.t) (beam : Beam.t) :
  (List.length (product2 materials)
   * List.length (np_arange 0 (Beam.length beam + step) step))%nat
  = sweep_rows materials beam.
Proof.
  unfold sweep_rows. rewrite product2_length. cbn [Nat.pow]. lia.
Qed.

(** One iteration over a load that can be swept, with an acceptable
    transition point at the head of the input: one prompt, one line read,
    the point stored, a full block of rows written. *)
Lemma tabulate_load_sweeps (materials : list Material.t) (beam : Beam.t)
    (load : Load.t) (T : Q) (tp : gmap string (list Q)) (stdin : list response) :
  Forall (fun material => ~ Material.E material == 0) materials ->
  ~ Beam.moment_of_inertia beam == 0 ->
  sweepable beam load ->
  0 < T -> T < Beam.length beam ->
  exists t,
    tabulate_load materials beam load tp (Number T :: stdin)
    = (Ok (setdefault_append tp (Beam.name beam) T), stdin, t)
    /\ List.length (prompts t) = 1%nat
    /\ List.length (rows t) = sweep_rows materials beam.
Proof.
  intros HE HI Hsweep HT0 HTL. unfold tabulate_load. rewrite bind_emit.
  destruct Hsweep as [w Hkind Hw | P a Hkind HP Ha Ha0 HaL].
  - rewrite Hkind. cbn [String.eqb Ascii.eqb Bool.eqb].
    rewrite bind_run, ask_T_accepts by assumption. rewrite bind_run.
    destruct (tabulate_distributed_rows materials beam load T w stdin Hw HE HI)
      as (Hr & Hs & Hc).
    pose proof (tabulate_distributed_written materials beam load T stdin) as Hrows.
    cbv zeta in Hrows.
    destruct (tabulate_distributed materials beam load T stdin) as [[r s] t].
    cbn [fst snd] in *. subst r s. cbn [ret]. eexists. split; [reflexivity|].
    rewrite app_nil_r, Hrows. cbn [prompts rows flat_map app].
    fold (prompts (map WriteRow (rows t))). fold (rows (map WriteRow (rows t))).
    rewrite prompts_written, <- Hrows, Hc, sweep_rows_product2. now split.
  - rewrite Hkind, Ha. cbn [String.eqb Ascii.eqb Bool.eqb as_float].
    rewrite bind_lift_ok.
    apply Qltb_lt in Ha0, HaL. rewrite Ha0, HaL. cbn [andb negb].
    rewrite bind_run, ask_T_accepts by assumption. rewrite bind_run.
    destruct (tabulate_point_rows materials beam load a P stdin HP HE HI)
      as (Hr & Hs & Hc).
    pose proof (tabulate_point_written materials beam load a stdin) as Hrows.
    cbv zeta in Hrows.
    destruct (tabulate_point materials beam load a stdin) as [[r s] t].
    cbn [fst snd] in *. subst r s. cbn [ret]. eexists. split; [reflexivity|].
    rewrite app_nil_r, Hrows.
    destruct (Qltb T a); cbn [prompts rows flat_map app];
      fold (prompts (map WriteRow (rows t))); fold (rows (map WriteRow (rows t)));
      rewrite prompts_written, <- Hrows, Hc, sweep_rows_product2; now split.
Qed.

Lemma loads_swept (materials : list Material.t) (beam : Beam.t)
    (rest : list response) (loads : list Load.t) :
  Forall (fun material => ~ Material.E material == 0) materials ->
  ~ Beam.moment_of_inertia beam == 0 ->
  (forall load, In load loads -> sweepable beam load) ->
  forall (Ts : list Q) (tp : gmap string (list Q)),
    List.length Ts = List.length loads ->
    Forall (fun T => 0 < T /\ T < Beam.length beam) Ts ->
    exists tp' t,
      for_acc loads (tabulate_load materials beam) tp (map Number Ts ++ rest)
      = (Ok tp', rest, t)
      /\ List.length (prompts t) = List.length loads
      /\ List.length (rows t) = (List.length loads * sweep_rows materials beam)%nat.
Proof.
  intros HE HI. induction loads as [|load loads IH]; intros Hsweep Ts tp Hlen HTs.
  - destruct Ts; [|discriminate]. exists tp, []. repeat split.
  - destruct Ts as [|T Ts]; [discriminate|]. injection Hlen as Hlen.
    apply List.Forall_cons_iff in HTs as [[HT0 HTL] HTs].
    destruct (tabulate_load_sweeps materials beam load T tp (map Number Ts ++ rest)
                HE HI (Hsweep load (or_introl eq_refl)) HT0 HTL)
      as (t1 & H1 & Hp1 & Hr1).
    destruct (IH (fun l Hl => Hsweep l (or_intror Hl)) Ts
                 (setdefault_append tp (Beam.name beam) T) Hlen HTs)
      as (tp' & t2 & H2 & Hp2 & Hr2).
    exists tp', (t1 ++ t2). cbn [for_acc map app]. unfold bind.
    rewrite H1, H2. split; [reflexivity|].
    rewrite prompts_app, rows_app, !length_app, Hp1, Hp2, Hr1, Hr2.
    cbn [List.length]. split; lia.
Qed.

Lemma beams_swept (materials : list Material.t) (loads : list Load.t)
    (rest : list response) (beams : list Beam.t) :
  Forall (fun material => ~ Material.E material == 0) materials ->
  Forall (fun beam => ~ Beam.width beam == 0 /\ ~ Beam.thickness beam == 0) beams ->
  (forall beam load, In beam beams -> In load loads -> sweepable beam load) ->
  forall (Ts : list Q) (tp : gmap string (list Q)),
    List.length Ts = (List.length beams * List.length loads)%nat ->
    Forall (fun T => forall beam, In beam beams ->
                                  0 < T /\ T < Beam.length beam) Ts ->
    exists tp' t,
      for_acc beams
        (fun beam transition_points =>
           bind (emit (Print (MsgConfiguringBeam (Beam.name beam))))
                (fun _ => for_acc loads (tabulate_load materials beam)
                                  transition_points)) tp (map Number Ts ++ rest)
      = (Ok tp', rest, t)
      /\ List.length (prompts t) = (List.length beams * List.length loads)%nat
      /\ List.length (rows t)
         = (List.length loads * list_sum (map (sweep_rows materials) beams))%nat.
Proof.
  intros HE. induction beams as [|beam beams IH]; intros HB Hsweep Ts tp Hlen HTs.
  - destruct Ts; [|discriminate]. exists tp, []. cbn. repeat split. lia.
  - apply List.Forall_cons_iff in HB as [[Hw Ht] HB].
    cbn [List.length Nat.mul] in Hlen.
    rewrite <- (firstn_skipn (List.length loads) Ts) in HTs |- *.
    apply Forall_app in HTs as [HTs1 HTs2].
    rewrite List.map_app, <- app_assoc.
    destruct (loads_swept materials beam
                (map Number (skipn (List.length loads) Ts) ++ rest) loads HE
                (moment_of_inertia_nonzero beam Hw Ht)
                (fun l Hl => Hsweep beam l (or_introl eq_refl) Hl)
                (firstn (List.length loads) Ts) tp)
      as (tp1 & t1 & H1 & Hp1 & Hr1).
    + rewrite firstn_length_le; lia.
    + revert HTs1. apply List.Forall_impl. intros T HT. apply HT. now left.
    + destruct (IH HB (fun b l Hb Hl => Hsweep b l (or_intror Hb) Hl)
                   (skipn (List.length loads) Ts) tp1)
        as (tp' & t2 & H2 & Hp2 & Hr2).
      * rewrite length_skipn. lia.
      * revert HTs2. apply List.Forall_impl. intros T HT b Hb. apply HT. now right.
      * exists tp'. eexists. cbn [for_acc]. rewrite bind_run, bind_emit, H1, H2.
        split; [reflexivity|].
        cbn [prompts rows flat_map app].
        fold (prompts (t1 ++ t2)). fold (rows (t1 ++ t2)).
        rewrite prompts_app, rows_app, !length_app, Hp1, Hp2, Hr1, Hr2.
        cbn [List.length map]. unfold list_sum. cbn [fold_right].
        split; lia.
Qed.

(** When every load of the catalog can be swept on every beam, the moduli
    and the beams' widths and thicknesses are not zero, and the input
    begins with one acceptable transition point for each pair of a beam and
    a load, then [compute_deflections] returns, asks once for each pair,
    reads exactly those lines, and writes the header and, for each pair,
    one row for each of the n^2 ordered pairs of materials and each
    position of the beam's grid [np.arange(0, L + step, step)]. *)
Theorem clean_run_reads_one_line_per_pair
    (library : BeamLibrary.t) (output_filename : string)
    (Ts : list Q) (rest : list response) :
  let materials := BeamLibrary.materials library in
  let beams := BeamLibrary.beams library in
  let loads := BeamLibrary.loads library in
  materials <> [] -> beams <> [] -> loads <> [] ->
  Forall (fun material => ~ Material.E material == 0) materials ->
  Forall (fun beam => ~ Beam.width beam == 0 /\ ~ Beam.thickness beam == 0) beams ->
  (forall beam load, In beam beams -> In load loads -> sweepable beam load) ->
  List.length Ts = (List.length beams * List.length loads)%nat ->
  Forall (fun T => forall beam, In beam beams ->
                                0 < T /\ T < Beam.length beam) Ts ->
  let run := compute_deflections library output_filename
                                 (map Number Ts ++ rest) in
  (exists transition_points, fst (fst run) = Ok transition_points)
  /\ snd (fst run) = rest
  /\ List.length (prompts (snd run))
     = (List.length beams * List.length loads)%nat
  /\ List.length (rows (snd run))
     = S (List.length loads * list_sum (map (sweep_rows materials) beams)).
Proof.
  destruct library as [materials beams loads]. cbv zeta.
  cbn [BeamLibrary.materials BeamLibrary.beams BeamLibrary.loads].
  intros Hm Hb Hl HE HB Hsweep Hlen HTs.
  destruct (beams_swept materials loads rest beams HE HB Hsweep Ts ∅ Hlen HTs)
    as (tp' & t & Hrun & Hp & Hr).
  unfold compute_deflections, BeamLibrary.get_materials, BeamLibrary.get_beams,
    BeamLibrary.get_loads.
  cbn [BeamLibrary.materials BeamLibrary.beams BeamLibrary.loads].
  destruct beams as [|beam beams]; [contradiction|].
  destruct loads as [|load loads]; [contradiction|].
  destruct materials as [|material materials]; [contradiction|].
  rewrite !bind_emit, bind_run, Hrun, bind_emit. cbn [ret fst snd].
  split; [now exists tp'|]. split; [reflexivity|].
  cbn [prompts rows flat_map app].
  fold (prompts (t ++ [Print (MsgResultsWritten output_filename)])).
  fold (rows (t ++ [Print (MsgResultsWritten output_filename)])).
  rewrite prompts_app, rows_app. cbn [List.length].
  rewrite !length_app, Hp, Hr.
  cbn [prompts rows flat_map app List.length]. split; lia.
Qed.

Lemma clean_run_reads_one_line_per_pair_witness :
  let library := BeamLibrary.mk [steel; aluminum] [short_beam; odd_beam]
                                [uniform_load; near_point_load] in
  let run := compute_deflections library "out.csv"
               (map Number [0.0025; 0.005; 0.0075; 0.005] ++ [NotANumber]) in
  (exists transition_points, fst (fst run) = Ok transition_points)
  /\ snd (fst run) = [NotANumber]
  /\ List.length (prompts (snd run)) = (2 * 2)%nat
  /\ List.length (rows (snd run))
     = S (2 * list_sum (map (sweep_rows [steel; aluminum])
                            [short_beam; odd_beam])).
Proof.
  apply (clean_run_reads_one_line_per_pair
           (BeamLibrary.mk [steel; aluminum] [short_beam; odd_beam]
                           [uniform_load; near_point_load])
           "out.csv" [0.0025; 0.005; 0.0075; 0.005] [NotANumber]).
  - discriminate.
  - discriminate.
  - discriminate.
  - repeat constructor; discriminate.
  - repeat constructor; discriminate.
  - intros beam load [<- | [<- | []]] [<- | [<- | []]].
    + now apply (sweepable_distributed _ _ 1000).
    + now apply (sweepable_point _ _ 5000 0.005).
    + now apply (sweepable_distributed _ _ 1000).
    + now apply (sweepable_point _ _ 5000 0.005).
  - reflexivity.
  - repeat (apply List.Forall_cons;
              [intros beam [<- | [<- | []]]; split; reflexivity|]).
    apply List.Forall_nil.
Defined.

(** ** Catalogs on which the kernel fails *)

Lemma grid_starts_at_zero (L : Q) :
  0 < L ->
  exists x_values, np_arange 0 (L + step) step = (0 + inject_Z 0 * step) :: x_values.
Proof.
  intros HL. pose proof (grid_length L) as Hlen. unfold np_arange in *.
  assert (Hq : 0 <= L / step).
  { apply Qle_shift_div_l; [apply step_positive | lra]. }
  apply Qceiling_resp_le in Hq. change (Qceiling 0) with 0%Z in Hq.
  rewrite length_map in Hlen.
  destruct (seq 0 _) as [|i l] eqn:Hseq; [cbn in Hlen; lia|].
  destruct (Z.to_nat (Qceiling ((L + step - 0) / step))) as [|n];
    [discriminate|].
  cbn [seq] in Hseq. injection Hseq as <- _. now eexists.
Qed.

Lemma computes_raises (r : outcome Q) (d v : Q) :
  computes r d v -> d == 0 -> r = Raise ZeroDivisionError.
Proof.
  unfold computes. destruct r as [q | e]; intros H Hd; [tauto|].
  now destruct H as [-> _].
Qed.

Lemma for_each_raises_first {S A : Type} (a : A) (l : list A)
    (body : A -> M S unit) (s s' : S) (e : exn) (t : list event) :
  body a s = (Raise e, s', t) -> for_each (a :: l) body s = (Raise e, s', t).
Proof. intros H. cbn [for_each]. unfold bind. now rewrite H. Qed.

(** The sweep of a load ends at its first row when the kernel call of that
    row, at x = 0 for the first material, fails. *)
Lemma tabulate_distributed_raises (material : Material.t)
    (materials : list Material.t) (beam : Beam.t) (load : Load.t) (T : Q)
    (stdin : list response) (e : exn) :
  0 < Beam.length beam ->
  (let* w := as_float (Load.w load) in
   distributed_y_theta (0 + inject_Z 0 * step) (Material.E material)
     (Material.E material) (Beam.moment_of_inertia beam) (Beam.length beam) T w)
  = Raise e ->
  tabulate_distributed (material :: materials) beam load T stdin
  = (Raise e, stdin, []).
Proof.
  intros HL Hfail. destruct (grid_starts_at_zero _ HL) as (x_values & Hgrid).
  unfold tabulate_distributed, product2. cbn [flat_map map app].
  apply for_each_raises_first. unfold tabulate_distributed_pair.
  rewrite Hgrid. apply for_each_raises_first.
  destruct (as_float (Load.w load)) as [w|e'];
    [|now injection Hfail as <-].
  rewrite bind_lift_ok. cbn [obind] in Hfail. now rewrite Hfail.
Qed.

Lemma tabulate_point_raises (material : Material.t)
    (materials : list Material.t) (beam : Beam.t) (load : Load.t) (y_load : Q)
    (stdin : list response) (e : exn) :
  0 < Beam.length beam ->
  (let* P := as_float (Load.P load) in
   y_point_load (0 + inject_Z 0 * step) P (Material.E material)
                (Beam.moment_of_inertia beam) y_load)
  = Raise e ->
  tabulate_point (material :: materials) beam load y_load stdin
  = (Raise e, stdin, []).
Proof.
  intros HL Hfail. destruct (grid_starts_at_zero _ HL) as (x_values & Hgrid).
  unfold tabulate_point, product2. cbn [flat_map map app].
  apply for_each_raises_first. unfold tabulate_point_pair.
  rewrite Hgrid. apply for_each_raises_first.
  destruct (as_float (Load.P load)) as [P|e'];
    [|now injection Hfail as <-].
  rewrite bind_lift_ok. cbn [obind] in Hfail. now rewrite Hfail.
Qed.

(** What is left of an iteration whose sweep fails at its first row. *)
Lemma tabulate_load_distributed_raises (material : Material.t)
    (materials : list Material.t) (beam : Beam.t) (load : Load.t) (T : Q)
    (tp : gmap string (list Q)) (stdin : list response) (e : exn) :
  Load.load_type load = "distributed"%string ->
  0 < T -> T < Beam.length beam ->
  (let* w := as_float (Load.w load) in
   distributed_y_theta (0 + inject_Z 0 * step) (Material.E material)
     (Material.E material) (Beam.moment_of_inertia beam) (Beam.length beam) T w)
  = Raise e ->
  tabulate_load (material :: materials) beam load tp (Number T :: stdin)
  = (Raise e, stdin,
     [Print (MsgApplyingLoad (Load.name load) (Load.load_type load));
      Input (PromptDistributed (Beam.name beam) (Beam.length beam))]).
Proof.
  intros Hkind HT0 HTL Hfail. unfold tabulate_load. rewrite bind_emit.
  rewrite Hkind. cbn [String.eqb Ascii.eqb Bool.eqb].
  rewrite bind_run, ask_T_accepts by assumption. rewrite bind_run.
  rewrite (tabulate_distributed_raises _ _ _ _ _ _ e) by (assumption || lra).
  reflexivity.
Qed.

Lemma tabulate_load_point_raises (material : Material.t)
    (materials : list Material.t) (beam : Beam.t) (load : Load.t) (a T : Q)
    (tp : gmap string (list Q)) (stdin : list response) (e : exn) :
  Load.load_type load = "point"%string -> Load.a load = Some a ->
  0 < a -> a < Beam.length beam ->
  0 < T -> T < Beam.length beam ->
  (let* P := as_float (Load.P load) in
   y_point_load (0 + inject_Z 0 * step) P (Material.E material)
                (Beam.moment_of_inertia beam) a)
  = Raise e ->
  exists warning,
    tabulate_load (material :: materials) beam load tp (Number T :: stdin)
    = (Raise e, stdin,
       [Print (MsgApplyingLoad (Load.name load) (Load.load_type load));
        Input (PromptPoint (Beam.name beam) a (Beam.length beam))] ++ warning)
    /\ only_prints warning.
Proof.
  intros Hkind Ha Ha0 HaL HT0 HTL Hfail. unfold tabulate_load. rewrite bind_emit.
  rewrite Hkind, Ha. cbn [String.eqb Ascii.eqb Bool.eqb as_float].
  rewrite bind_lift_ok.
  apply Qltb_lt in Ha0, HaL. rewrite Ha0, HaL. cbn [andb negb].
  rewrite bind_run, ask_T_accepts by assumption. rewrite bind_run.
  rewrite (tabulate_point_raises _ _ _ _ _ _ e) by (assumption || lra).
  eexists. split; [reflexivity|].
  destruct (Qltb T a); repeat constructor. now eexists.
Qed.

(** A beam without stiffness: when the modulus of the first material times
    the second moment of the beam is zero, a load that can be swept is
    asked its transition point, the point is read, and the first kernel
    call of the sweep, at x = 0, raises [ZeroDivisionError]: the iteration
    ends there having written no row. *)
Theorem zero_stiffness_fails_before_the_first_row
    (material : Material.t) (materials : list Material.t) (beam : Beam.t)
    (load : Load.t) (T : Q) (tp : gmap string (list Q)) (stdin : list response) :
  Material.E material * Beam.moment_of_inertia beam == 0 ->
  sweepable beam load ->
  0 < T -> T < Beam.length beam ->
  let run := tabulate_load (material :: materials) beam load tp
                           (Number T :: stdin) in
  fst (fst run) = Raise ZeroDivisionError
  /\ snd (fst run) = stdin
  /\ List.length (prompts (snd run)) = 1%nat
  /\ rows (snd run) = [].
Proof.
  intros Hzero Hsweep HT0 HTL. cbv zeta.
  assert (Hlt : forall a, 0 < a -> Qltb (0 + inject_Z 0 * step) a = true).
  { intros a Ha. apply Qltb_lt. change (inject_Z 0) with 0. lra. }
  destruct Hsweep as [w Hkind Hw | P a Hkind HP Ha Ha0 HaL].
  - rewrite (tabulate_load_distributed_raises _ _ _ _ _ _ _ ZeroDivisionError);
      [repeat split | assumption..|].
    rewrite Hw. cbn [as_float obind]. unfold distributed_y_theta.
    rewrite (Hlt T HT0).
    now rewrite (computes_raises _ _ _ (y1_computes _ _ _ _ _) Hzero).
  - destruct (tabulate_load_point_raises material materials beam load a T tp
                stdin ZeroDivisionError) as (warning & -> & Hwarn);
      try assumption.
    + rewrite HP. cbn [as_float obind]. unfold y_point_load. rewrite (Hlt a Ha0).
      now rewrite (computes_raises _ _ _
                     (y_point_load_before_computes _ _ _ _ _) Hzero).
    + apply only_prints_silent in Hwarn as (Hr & Hp & _).
      cbn [fst snd prompts rows flat_map app].
      fold (prompts warning). fold (rows warning). rewrite Hr, Hp.
      repeat split.
Qed.

Lemma zero_stiffness_fails_before_the_first_row_witness :
  let flat_beam := Beam.mk "Foil" 0.01 0.3 0 in
  let run := tabulate_load [steel; aluminum] flat_beam uniform_load ∅
                           [Number 0.005; Number 0.0075] in
  fst (fst run) = Raise ZeroDivisionError
  /\ snd (fst run) = [Number 0.0075]
  /\ List.length (prompts (snd run)) = 1%nat
  /\ rows (snd run) = [].
Proof.
  apply (zero_stiffness_fails_before_the_first_row steel [aluminum]
           (Beam.mk "Foil" 0.01 0.3 0) uniform_load 0.005 ∅ [Number 0.0075]).
  - reflexivity.
  - now apply (sweepable_distributed _ _ 1000).
  - reflexivity.
  - reflexivity.
Defined.

(** A load without the numbers of its kind ends the run with [TypeError]:
    a point load without a position at the range test, before anything is
    asked; a point load inside the beam without a magnitude, or a
    distributed load without an intensity, at the first grid position,
    after the transition point was asked and read; no row of the load is
    written. *)
Theorem incomplete_load_raises_TypeError
    (material : Material.t) (materials : list Material.t) (beam : Beam.t)
    (load : Load.t) (T : Q) (tp : gmap string (list Q)) (stdin : list response) :
  0 < T -> T < Beam.length beam ->
  let asked := tabulate_load (material :: materials) beam load tp
                             (Number T :: stdin) in
  (Load.load_type load = "point"%string -> Load.a load = None ->
   forall any_materials any_stdin,
     tabulate_load any_materials beam load tp any_stdin
     = (Raise TypeError, any_stdin,
        [Print (MsgApplyingLoad (Load.name load) (Load.load_type load))]))
  /\ (Load.load_type load = "point"%string -> Load.P load = None ->
      forall a, Load.a load = Some a -> 0 < a -> a < Beam.length beam ->
      fst (fst asked) = Raise TypeError /\ snd (fst asked) = stdin
      /\ List.length (prompts (snd asked)) = 1%nat /\ rows (snd asked) = [])
  /\ (Load.load_type load = "distributed"%string -> Load.w load = None ->
      fst (fst asked) = Raise TypeError /\ snd (fst asked) = stdin
      /\ List.length (prompts (snd asked)) = 1%nat /\ rows (snd asked) = []).
Proof.
  intros HT0 HTL. cbv zeta. split; [|split].
  - intros Hkind Ha any_materials any_stdin. unfold tabulate_load.
    rewrite Hkind, Ha. reflexivity.
  - intros Hkind HP a Ha Ha0 HaL.
    destruct (tabulate_load_point_raises material materials beam load a T tp
                stdin TypeError) as (warning & -> & Hwarn);
      try assumption; [now rewrite HP|].
    apply only_prints_silent in Hwarn as (Hr & Hp & _).
    cbn [fst snd prompts rows flat_map app].
    fold (prompts warning). fold (rows warning). rewrite Hr, Hp.
    repeat split.
  - intros Hkind Hw.
    rewrite (tabulate_load_distributed_raises _ _ _ _ _ _ _ TypeError);
      [repeat split | assumption..|]. now rewrite Hw.
Qed.

Lemma incomplete_load_raises_TypeError_witness :
  let bare := Load.mk "Bare" "distributed" None None None in
  let asked := tabulate_load [steel; aluminum] short_beam bare ∅
                             [Number 0.005; Number 0.0075] in
  fst (fst asked) = Raise TypeError /\ snd (fst asked) = [Number 0.0075]
  /\ List.length (prompts (snd asked)) = 1%nat /\ rows (snd asked) = [].
Proof.
  refine (proj2 (proj2 (incomplete_load_raises_TypeError steel [aluminum]
            short_beam (Load.mk "Bare" "distributed" None None None) 0.005 ∅
            [Number 0.0075] _ _)) _ _); reflexivity.
Defined.

(** ** The x column *)

Lemma rint_integer (q : Q) (n : Z) : q == inject_Z n -> rint q = n.
Proof.
  intros Hq. unfold rint.
  assert (Hf : Qfloor q = n) by (rewrite (Qfloor_comp _ _ Hq); apply Qfloor_Z).
  rewrite Hf. cbv zeta.
  assert (Hlt : Qltb (q - inject_Z n) (1 # 2) = true).
  { apply Qltb_lt. rewrite Hq. lra. }
  now rewrite Hlt.
Qed.

Lemma round_grid_position (i : Z) :
  round (0 + inject_Z i * step) 4 == 0 + inject_Z i * step.
Proof.
  unfold round.
  rewrite (rint_integer _ (25 * i)).
  - rewrite inject_Z_mult. unfold step. change (inject_Z 25) with 25. field.
  - rewrite inject_Z_mult. unfold step. change (inject_Z 25) with 25. field.
Qed.

(** The x column of the rows a returning loop writes, when each returning
    iteration writes one row with [g a] in that column. *)
Lemma for_each_x_column {S A : Type} (l : list A) (body : A -> M S unit)
    (g : A -> Q) :
  (forall a s s' t, body a s = (Ok tt, s', t) ->
                    flat_map x_column (rows t) = [g a]) ->
  forall s s' t, for_each l body s = (Ok tt, s', t) ->
                 flat_map x_column (rows t) = map g l.
Proof.
  intros Hbody. induction l as [|a l IH]; intros s s' t; cbn [for_each].
  - now intros [= _ <-].
  - intros Hrun.
    apply bind_returns in Hrun as ([] & s1 & t1 & t2 & Ha & Hrest & ->).
    rewrite rows_app, flat_map_app, (Hbody _ _ _ _ Ha), (IH _ _ _ Hrest).
    reflexivity.
Qed.

Lemma grid_rounds_to_itself (L : Q) :
  Forall2 Qeq (map (fun x => round x 4) (np_arange 0 (L + step) step))
              (np_arange 0 (L + step) step).
Proof.
  unfold np_arange. induction (seq 0 _) as [|i l IH]; cbn [map]; constructor.
  - apply round_grid_position.
  - exact IH.
Qed.

(** Rounding to four decimals loses nothing on the grid: a multiple of
    0.0025 has four decimals, so [round(x, 4)] is [x], and the x column of
    the rows a returning sweep of one material pair writes, for a
    distributed and for a point load, holds the grid positions themselves,
    in order. *)
Theorem x_column_holds_the_grid_positions
    (beam : Beam.t) (load1 load2 : Load.t) (T y_load : Q)
    (material1 material2 : Material.t) (stdin : list response) :
  let grid := np_arange 0 (Beam.length beam + step) step in
  let run1 := tabulate_distributed_pair beam load1 T material1 material2 stdin in
  let run2 := tabulate_point_pair beam load2 y_load material1 material2 stdin in
  fst (fst run1) = Ok tt ->
  fst (fst run2) = Ok tt ->
  Forall (fun x => round x 4 == x) grid
  /\ Forall2 Qeq (flat_map x_column (rows (snd run1))) grid
  /\ Forall2 Qeq (flat_map x_column (rows (snd run2))) grid.
Proof.
  cbv zeta. intros H1 H2. split; [|split].
  - apply List.Forall_forall. intros x Hx.
    apply in_grid in Hx as (i & _ & ->). apply round_grid_position.
  - destruct (tabulate_distributed_pair _ _ _ _ _ _) as [[r s] t] eqn:Hrun.
    cbn [fst snd] in *. subst r. unfold tabulate_distributed_pair in Hrun.
    erewrite for_each_x_column with (g := fun x => round x 4);
      [apply grid_rounds_to_itself | | exact Hrun].
    intros x s0 s' t0 Hbody.
    apply bind_returns in Hbody as (w & s1 & t1 & t2 & Hw & Hbody & ->).
    apply bind_returns in Hbody as ([y theta] & s2 & t3 & t4 & Hy & Hbody & ->).
    injection Hw as _ _ <-. injection Hy as _ _ <-. now injection Hbody as _ <-.
  - destruct (tabulate_point_pair _ _ _ _ _ _) as [[r s] t] eqn:Hrun.
    cbn [fst snd] in *. subst r. unfold tabulate_point_pair in Hrun.
    erewrite for_each_x_column with (g := fun x => round x 4);
      [apply grid_rounds_to_itself | | exact Hrun].
    intros x s0 s' t0 Hbody.
    apply bind_returns in Hbody as (P & s1 & t1 & t2 & HP & Hbody & ->).
    apply bind_returns in Hbody as (y & s2 & t3 & t4 & Hy & Hbody & ->).
    apply bind_returns in Hbody as (theta & s3 & t5 & t6 & Hth & Hbody & ->).
    injection HP as _ _ <-. injection Hy as _ _ <-. injection Hth as _ _ <-.
    now injection Hbody as _ <-.
Qed.

Lemma x_column_holds_the_grid_positions_witness :
  let grid := np_arange 0 (Beam.length odd_beam + step) step in
  let run1 := tabulate_distributed_pair odd_beam uniform_load 0.005
                                        steel aluminum [] in
  let run2 := tabulate_point_pair odd_beam near_point_load 0.005
                                  steel aluminum [] in
  Forall (fun x => round x 4 == x) grid
  /\ Forall2 Qeq (flat_map x_column (rows (snd run1))) grid
  /\ Forall2 Qeq (flat_map x_column (rows (snd run2))) grid.
Proof.
  apply (x_column_holds_the_grid_positions odd_beam uniform_load
           near_point_load 0.005 0.005 steel aluminum []);
    vm_compute; reflexivity.
Defined.

(** ** The catalog's methods *)

Lemma optional_eq_refl (v : option Q) : optional_eq v v = true.
Proof. destruct v as [q|]; [apply Qeq_bool_iff; reflexivity | reflexivity]. Qed.

Lemma Material_eq_refl (m : Material.t) : Material_eq m m = true.
Proof.
  unfold Material_eq. rewrite String.eqb_refl.
  apply Qeq_bool_iff. reflexivity.
Qed.

Lemma Beam_eq_refl (b : Beam.t) : Beam_eq b b = true.
Proof.
  unfold Beam_eq. rewrite String.eqb_refl.
  rewrite !(proj2 (Qeq_bool_iff _ _) (Qeq_refl _)). reflexivity.
Qed.

Lemma Load_eq_refl (l : Load.t) : Load_eq l l = true.
Proof.
  unfold Load_eq. now rewrite !String.eqb_refl, !optional_eq_refl.
Qed.

Lemma Material_eq_name (m1 m2 : Material.t) :
  Material_eq m1 m2 = true -> Material.name m1 = Material.name m2.
Proof.
  unfold Material_eq. intros H. apply andb_true_iff in H as [H _].
  now apply String.eqb_eq.
Qed.

Lemma Beam_eq_name (b1 b2 : Beam.t) :
  Beam_eq b1 b2 = true -> Beam.name b1 = Beam.name b2.
Proof.
  unfold Beam_eq. intros H. rewrite !andb_true_iff in H.
  now apply String.eqb_eq.
Qed.

Lemma Load_eq_name (l1 l2 : Load.t) :
  Load_eq l1 l2 = true -> Load.name l1 = Load.name l2.
Proof.
  unfold Load_eq. intros H. rewrite !andb_true_iff in H.
  now apply String.eqb_eq.
Qed.

Section ListMethods.
Context {A : Type} (name : A -> string) (eq : A -> A -> bool).
Hypothesis eq_refl' : forall a, eq a a = true.
Hypothesis eq_name : forall a b, eq a b = true -> name a = name b.
Variable lower : string -> string.

(** [list.remove] of what [next] found takes out the first entry of the
    name and nothing else. *)
Lemma remove_found (target : string) (l : list A) (x : A) :
  find (fun a => same_name lower (name a) target) l = Some x ->
  exists before after,
    l = before ++ x :: after
    /\ Forall (fun a => same_name lower (name a) target = false) before
    /\ same_name lower (name x) target = true
    /\ list_remove eq x l = Some (before ++ after).
Proof.
  induction l as [|a l IH]; cbn [find list_remove]; [discriminate|].
  destruct (same_name lower (name a) target) eqn:Ha.
  - intros [= <-]. exists [], l. rewrite eq_refl'. repeat split; [constructor | assumption].
  - intros Hfind. destruct (IH Hfind) as (before & after & -> & Hb & Hx & Hrem).
    exists (a :: before), after.
    assert (Hne : eq a x = false).
    { destruct (eq a x) eqn:Hax; [|reflexivity].
      apply eq_name in Hax. unfold same_name in *. congruence. }
    rewrite Hne, Hrem. repeat split; [constructor|]; assumption.
Qed.

Lemma find_none_existsb (p : A -> bool) (l : list A) :
  find p l = None <-> existsb p l = false.
Proof.
  induction l as [|a l IH]; cbn [find existsb]; [tauto|].
  destruct (p a); cbn [orb]; [split; discriminate | exact IH].
Qed.


(** Among distinct names, the entry found is the only one of its name. *)
Lemma distinct_names_after (target : string) (before after : list A) (x : A) :
  distinct_names lower name (before ++ x :: after) ->
  Forall (fun a => same_name lower (name a) target = false) before ->
  same_name lower (name x) target = true ->
  existsb (fun a => same_name lower (name a) target) (before ++ after) = false
  /\ distinct_names lower name (before ++ after).
Proof.
  unfold distinct_names. intros Hl Hb Hx. split.
  - rewrite existsb_app. apply orb_false_iff. split.
    + induction Hb as [|a l Ha _ IH]; [reflexivity|]. cbn [existsb].
      rewrite Ha. apply IH. cbn [app map] in Hl.
      now apply List.NoDup_cons_iff in Hl as [_ ?].
    + rewrite List.map_app in Hl. cbn [map] in Hl.
      apply List.NoDup_remove_2 in Hl.
      destruct (existsb _ after) eqn:Hex; [|reflexivity]. exfalso.
      apply existsb_exists in Hex as (a & Hin & Ha). apply Hl.
      rewrite in_app_iff. right. unfold same_name in *.
      apply String.eqb_eq in Ha, Hx. rewrite Hx, <- Ha.
      now apply (in_map (fun a => lower (name a))).
  - rewrite List.map_app in *. cbn [map] in Hl.
    now apply List.NoDup_remove_1 in Hl.
Qed.

Lemma remove_appended (l : list A) (x : A) :
  existsb (fun a => same_name lower (name a) (name x)) l = false ->
  find (fun a => same_name lower (name a) (name x)) (l ++ [x]) = Some x
  /\ list_remove eq x (l ++ [x]) = Some l.
Proof.
  induction l as [|a l IH]; cbn [existsb find list_remove app]; intros Hex.
  - unfold same_name. now rewrite String.eqb_refl, eq_refl'.
  - apply orb_false_iff in Hex as [Ha Hex]. rewrite Ha.
    destruct (IH Hex) as [-> ->].
    assert (Hne : eq a x = false).
    { destruct (eq a x) eqn:Hax; [|reflexivity].
      apply eq_name in Hax. unfold same_name in Ha.
      rewrite Hax, String.eqb_refl in Ha. discriminate. }
    now rewrite Hne.
Qed.

Lemma update_first_found (p : A -> bool) (f : A -> A) (l : list A) (x : A) :
  find p l = Some x ->
  exists before after,
    l = before ++ x :: after
    /\ Forall (fun a => p a = false) before
    /\ p x = true
    /\ update_first p f l = before ++ f x :: after.
Proof.
  induction l as [|a l IH]; cbn [find update_first]; [discriminate|].
  destruct (p a) eqn:Ha.
  - intros [= <-]. exists [], l. repeat split; [constructor | assumption].
  - intros Hfind. destruct (IH Hfind) as (before & after & -> & Hb & Hx & ->).
    exists (a :: before), after. repeat split; [constructor|]; assumption.
Qed.

End ListMethods.





Example add_material_rejects_a_name_in_another_case :
  add_material lower_letters
    (BeamLibrary.mk [steel; aluminum] [short_beam] [uniform_load])
    (Material.mk "STEEL" 210e9)
  = (BeamLibrary.mk [steel; aluminum] [short_beam] [uniform_load],
     [NoteExists "Material" "STEEL"]).
Proof. reflexivity. Qed.

Lemma removed_entry {A : Type} (lower : string -> string) (name : A -> string)
    (eq : A -> A -> bool) (target : string) (l : list A) :
  (forall a, eq a a = true) ->
  (forall a b, eq a b = true -> name a = name b) ->
  match find (fun a => same_name lower (name a) target) l with
  | None => without_first_named lower name target l l
  | Some x => exists l', list_remove eq x l = Some l'
                         /\ without_first_named lower name target l l'
  end.
Proof.
  intros Hrefl Hname.
  destruct (find _ l) as [x|] eqn:Hfind.
  - destruct (remove_found name eq Hrefl Hname lower target l x Hfind)
      as (front & back & -> & Hf & Hx & Hrem).
    exists (front ++ back). split; [assumption|]. right.
    now exists front, x, back.
  - left. split; [|reflexivity]. now apply find_none_existsb.
Qed.

Lemma without_first_named_distinct {A : Type} (lower : string -> string)
    (name : A -> string) (target : string) (l l' : list A) :
  without_first_named lower name target l l' ->
  distinct_names lower name l ->
  existsb (fun a => same_name lower (name a) target) l' = false
  /\ distinct_names lower name l'.
Proof.
  intros [[Hex ->] | (front & x & back & -> & Hf & Hx & ->)] Hd.
  - now split.
  - now apply (distinct_names_after name lower target front back x).
Qed.

(** Removing never fails in [list.remove]: [remove_material],
    [remove_beam] and [remove_load] return, having taken out the first
    entry of the name up to [lower] and nothing else, or nothing when
    there is no such entry; the two other lists are untouched.  When the
    names of the list were distinct, they still are and no entry of the
    name is left. *)
Theorem removing_takes_the_first_of_the_name (lower : string -> string)
    (self : BeamLibrary.t) (target : string) :
  (exists self' notes,
      remove_material lower self target = Some (self', notes)
      /\ without_first_named lower Material.name target
           (BeamLibrary.materials self) (BeamLibrary.materials self')
      /\ (distinct_names lower Material.name (BeamLibrary.materials self) ->
          existsb (fun mat => same_name lower (Material.name mat) target)
                  (BeamLibrary.materials self') = false
          /\ distinct_names lower Material.name (BeamLibrary.materials self'))
      /\ BeamLibrary.beams self' = BeamLibrary.beams self
      /\ BeamLibrary.loads self' = BeamLibrary.loads self)
  /\ (exists self' notes,
         remove_beam lower self target = Some (self', notes)
         /\ without_first_named lower Beam.name target
              (BeamLibrary.beams self) (BeamLibrary.beams self')
         /\ (distinct_names lower Beam.name (BeamLibrary.beams self) ->
             existsb (fun b => same_name lower (Beam.name b) target)
                     (BeamLibrary.beams self') = false
             /\ distinct_names lower Beam.name (BeamLibrary.beams self'))
         /\ BeamLibrary.materials self' = BeamLibrary.materials self
         /\ BeamLibrary.loads self' = BeamLibrary.loads self)
  /\ (exists self' notes,
         remove_load lower self target = Some (self', notes)
         /\ without_first_named lower Load.name target
              (BeamLibrary.loads self) (BeamLibrary.loads self')
         /\ (distinct_names lower Load.name (BeamLibrary.loads self) ->
             existsb (fun ld => same_name lower (Load.name ld) target)
                     (BeamLibrary.loads self') = false
             /\ distinct_names lower Load.name (BeamLibrary.loads self'))
         /\ BeamLibrary.materials self' = BeamLibrary.materials self
         /\ BeamLibrary.beams self' = BeamLibrary.beams self).
Proof.
  split; [|split].
  - unfold remove_material.
    pose proof (removed_entry lower Material.name Material_eq target
                  (BeamLibrary.materials self) Material_eq_refl Material_eq_name)
      as H.
    destruct (find _ _) as [x|]; [destruct H as (l' & -> & H)|];
      eexists; eexists; (split; [reflexivity|]);
      (split; [exact H|]); (split; [|now split]);
      apply without_first_named_distinct; exact H.
  - unfold remove_beam.
    pose proof (removed_entry lower Beam.name Beam_eq target
                  (BeamLibrary.beams self) Beam_eq_refl Beam_eq_name) as H.
    destruct (find _ _) as [x|]; [destruct H as (l' & -> & H)|];
      eexists; eexists; (split; [reflexivity|]);
      (split; [exact H|]); (split; [|now split]);
      apply without_first_named_distinct; exact H.
  - unfold remove_load.
    pose proof (removed_entry lower Load.name Load_eq target
                  (BeamLibrary.loads self) Load_eq_refl Load_eq_name) as H.
    destruct (find _ _) as [x|]; [destruct H as (l' & -> & H)|];
      eexists; eexists; (split; [reflexivity|]);
      (split; [exact H|]); (split; [|now split]);
      apply without_first_named_distinct; exact H.
Qed.

(** Adding an entry whose name is free and then removing that name gives
    the catalog back as it was, for each of the three lists. *)
Theorem adding_then_removing_gives_the_catalog_back (lower : string -> string)
    (self : BeamLibrary.t) (material : Material.t) (beam : Beam.t)
    (load : Load.t) :
  existsb (fun mat => same_name lower (Material.name mat) (Material.name material))
          (BeamLibrary.materials self) = false ->
  existsb (fun b => same_name lower (Beam.name b) (Beam.name beam))
          (BeamLibrary.beams self) = false ->
  existsb (fun ld => same_name lower (Load.name ld) (Load.name load))
          (BeamLibrary.loads self) = false ->
  remove_material lower (fst (add_material lower self material))
                  (Material.name material)
  = Some (self, [NoteRemoved "Material" (Material.name material)])
  /\ remove_beam lower (fst (add_beam lower self beam)) (Beam.name beam)
     = Some (self, [NoteRemoved "Beam" (Beam.name beam)])
  /\ remove_load lower (fst (add_load lower self load)) (Load.name load)
     = Some (self, [NoteRemoved "Load" (Load.name load)]).
Proof.
  destruct self as [materials beams loads].
  cbn [BeamLibrary.materials BeamLibrary.beams BeamLibrary.loads].
  intros Hm Hb Hl. split; [|split].
  - unfold add_material, remove_material.
    cbn [BeamLibrary.materials BeamLibrary.beams BeamLibrary.loads].
    rewrite Hm. cbn [fst BeamLibrary.materials BeamLibrary.beams BeamLibrary.loads].
    destruct (remove_appended Material.name Material_eq Material_eq_refl
                Material_eq_name lower materials material Hm) as [-> ->].
    reflexivity.
  - unfold add_beam, remove_beam.
    cbn [BeamLibrary.materials BeamLibrary.beams BeamLibrary.loads].
    rewrite Hb. cbn [fst BeamLibrary.materials BeamLibrary.beams BeamLibrary.loads].
    destruct (remove_appended Beam.name Beam_eq Beam_eq_refl
                Beam_eq_name lower beams beam Hb) as [-> ->].
    reflexivity.
  - unfold add_load, remove_load.
    cbn [BeamLibrary.materials BeamLibrary.beams BeamLibrary.loads].
    rewrite Hl. cbn [fst BeamLibrary.materials BeamLibrary.beams BeamLibrary.loads].
    destruct (remove_appended Load.name Load_eq Load_eq_refl
                Load_eq_name lower loads load Hl) as [-> ->].
    reflexivity.
Qed.

Lemma adding_then_removing_gives_the_catalog_back_witness :
  let self := BeamLibrary.mk [steel; aluminum] [short_beam] [uniform_load] in
  remove_material lower_letters
    (fst (add_material lower_letters self (Material.mk "Titanium" 116e9)))
    "Titanium"
  = Some (self, [NoteRemoved "Material" "Titanium"])
  /\ remove_beam lower_letters (fst (add_beam lower_letters self odd_beam)) "Beam2"
     = Some (self, [NoteRemoved "Beam" "Beam2"])
  /\ remove_load lower_letters (fst (add_load lower_letters self near_point_load))
                 "Point Load 1"
     = Some (self, [NoteRemoved "Load" "Point Load 1"]).
Proof.
  apply (adding_then_removing_gives_the_catalog_back lower_letters
           (BeamLibrary.mk [steel; aluminum] [short_beam] [uniform_load])
           (Material.mk "Titanium" 116e9) odd_beam near_point_load);
    reflexivity.
Defined.

(** A catalog read from a file may hold a name twice; removing then leaves
    the second entry of the name behind. *)
Example remove_beam_leaves_a_second_entry_of_the_name :
  remove_beam lower_letters
    (BeamLibrary.mk [steel] [short_beam; odd_beam; Beam.mk "BEAM1" 2 0.3 0.005]
                    [uniform_load])
    "beam1"
  = Some (BeamLibrary.mk [steel] [odd_beam; Beam.mk "BEAM1" 2 0.3 0.005]
                         [uniform_load],
          [NoteRemoved "Beam" "beam1"]).
Proof. reflexivity. Qed.

(** ** Changing the dimensions of a beam *)

Lemma with_dimensions_none (beam : Beam.t) :
  with_dimensions None None None beam = beam.
Proof. now destruct beam. Qed.

Lemma update_first_names (p : Beam.t -> bool) (f : Beam.t -> Beam.t)
    (l : list Beam.t) :
  (forall b, Beam.name (f b) = Beam.name b) ->
  map Beam.name (update_first p f l) = map Beam.name l.
Proof.
  intros Hf. induction l as [|b l IH]; cbn [update_first map]; [reflexivity|].
  destruct (p b); cbn [map]; [now rewrite Hf | now rewrite IH].
Qed.

(** [modify_beam_dimensions] changes the first beam of the name up to
    [lower], where it stands, and nothing else: the dimensions given take
    the new values, the others and the name stay, the beams before and
    after it, the materials and the loads are untouched, so the names of
    the beams are what they were; with no dimension given the catalog is
    unchanged. *)
Theorem modify_beam_dimensions_changes_one_beam (lower : string -> string)
    (self : BeamLibrary.t) (beam_name : string)
    (new_length new_width new_thickness : option Q) (found : Beam.t) :
  find (fun b => same_name lower (Beam.name b) beam_name) (BeamLibrary.beams self)
  = Some found ->
  let self' := fst (modify_beam_dimensions lower self beam_name
                      new_length new_width new_thickness) in
  (exists front back,
      BeamLibrary.beams self = front ++ found :: back
      /\ Forall (fun b => same_name lower (Beam.name b) beam_name = false) front
      /\ BeamLibrary.beams self'
         = front ++ Beam.mk (Beam.name found)
                            (default (Beam.length found) new_length)
                            (default (Beam.width found) new_width)
                            (default (Beam.thickness found) new_thickness)
                 :: back)
  /\ map Beam.name (BeamLibrary.beams self') = map Beam.name (BeamLibrary.beams self)
  /\ BeamLibrary.materials self' = BeamLibrary.materials self
  /\ BeamLibrary.loads self' = BeamLibrary.loads self
  /\ fst (modify_beam_dimensions lower self beam_name None None None) = self.
Proof.
  intros Hfind. cbv zeta. unfold modify_beam_dimensions. rewrite Hfind.
  cbn [fst BeamLibrary.materials BeamLibrary.beams BeamLibrary.loads].
  split; [|split; [|split; [|split]]]; try reflexivity.
  - destruct (update_first_found _
                (with_dimensions new_length new_width new_thickness) _ _ Hfind)
      as (front & back & Hl & Hf & _ & Hup).
    exists front, back. now rewrite Hup.
  - now apply update_first_names.
  - destruct self as [materials beams loads]. f_equal.
    cbn [BeamLibrary.beams] in *. clear Hfind.
    induction beams as [|b beams IH]; cbn [update_first]; [reflexivity|].
    destruct (same_name lower (Beam.name b) beam_name);
      [now rewrite with_dimensions_none | now rewrite IH].
Qed.

Lemma modify_beam_dimensions_changes_one_beam_witness :
  let self := BeamLibrary.mk [steel] [short_beam; odd_beam] [uniform_load] in
  let self' := fst (modify_beam_dimensions lower_letters self "BEAM2"
                      (Some 0.02) None (Some 0.004)) in
  (exists front back,
      BeamLibrary.beams self = front ++ odd_beam :: back
      /\ Forall (fun b => same_name lower_letters (Beam.name b) "BEAM2" = false)
                front
      /\ BeamLibrary.beams self'
         = front ++ Beam.mk "Beam2" 0.02 0.3 0.004 :: back)
  /\ map Beam.name (BeamLibrary.beams self') = map Beam.name (BeamLibrary.beams self)
  /\ BeamLibrary.materials self' = BeamLibrary.materials self
  /\ BeamLibrary.loads self' = BeamLibrary.loads self
  /\ fst (modify_beam_dimensions lower_letters self "BEAM2" None None None) = self.
Proof.
  apply (modify_beam_dimensions_changes_one_beam lower_letters
           (BeamLibrary.mk [steel] [short_beam; odd_beam] [uniform_load])
           "BEAM2" (Some 0.02) None (Some 0.004) odd_beam).
  reflexivity.
Defined.

(** [modify_beam_dimensions] stores the new dimensions as they come: a
    width or a thickness of zero is accepted, the beam's second moment is
    then zero, and a catalog that was sound no longer is. *)
Theorem modified_dimensions_are_not_validated (lower : string -> string)
    (self : BeamLibrary.t) (beam_name : string)
    (new_length new_width new_thickness : option Q) (found : Beam.t) :
  find (fun b => same_name lower (Beam.name b) beam_name) (BeamLibrary.beams self)
  = Some found ->
  new_width = Some 0 \/ new_thickness = Some 0 ->
  let self' := fst (modify_beam_dimensions lower self beam_name
                      new_length new_width new_thickness) in
  (exists beam, In beam (BeamLibrary.beams self')
                /\ Beam.name beam = Beam.name found
                /\ Beam.moment_of_inertia beam == 0)
  /\ ~ sound self'.
Proof.
  intros Hfind Hzero. cbv zeta. unfold modify_beam_dimensions. rewrite Hfind.
  cbn [fst].
  destruct (update_first_found _
              (with_dimensions new_length new_width new_thickness) _ _ Hfind)
    as (front & back & Hl & Hf & _ & Hup).
  assert (Hin : In (with_dimensions new_length new_width new_thickness found)
                   (update_first
                      (fun b => same_name lower (Beam.name b) beam_name)
                      (with_dimensions new_length new_width new_thickness)
                      (BeamLibrary.beams self))).
  { rewrite Hup, in_app_iff. right. now left. }
  split.
  - eexists. split; [exact Hin|]. split; [reflexivity|].
    unfold Beam.moment_of_inertia, with_dimensions.
    cbn [Beam.width Beam.thickness].
    destruct Hzero as [-> | ->]; cbn [default from_option id]; field.
  - intros (_ & HB & _). cbn [BeamLibrary.beams] in HB.
    rewrite List.Forall_forall in HB. destruct (HB _ Hin) as [Hw Ht].
    unfold with_dimensions in Hw, Ht. cbn [Beam.width Beam.thickness] in Hw, Ht.
    destruct Hzero as [-> | ->]; cbn [default from_option id] in *;
      [apply Hw | apply Ht]; reflexivity.
Qed.

Lemma modified_dimensions_are_not_validated_witness :
  let self := BeamLibrary.mk [steel] [short_beam; odd_beam] [uniform_load] in
  let self' := fst (modify_beam_dimensions lower_letters self "beam1"
                      None None (Some 0)) in
  (exists beam, In beam (BeamLibrary.beams self')
                /\ Beam.name beam = "Beam1"%string
                /\ Beam.moment_of_inertia beam == 0)
  /\ ~ sound self'.
Proof.
  apply (modified_dimensions_are_not_validated lower_letters
           (BeamLibrary.mk [steel] [short_beam; odd_beam] [uniform_load])
           "beam1" None None (Some 0) short_beam).
  - reflexivity.
  - now right.
Defined.
